(** * EchoVoid: the feature-extraction and aggregation pipeline

    A shallow embedding of [server/services/musicbrainz.ts], class
    [MusicBrainzService], and the properties its specification states about
    it.  The file is modelled in its current revision: the one whose
    [searchRecording] loops over [maxRetries] attempts with a timeout and
    whose [extractFeaturesFromSongs] returns an empty scaffold.  Around it
    stand the code that calls the service and reads what it leaves: the
    in-memory store of [server/storage.ts] and the routes of
    [server/routes.ts]; and the earlier revision of the two methods of the
    service that changed.

    Numbers.  A JavaScript [number] is modelled by an exact rational in
    canonical form ([Qc]), so that Leibniz equality is numeric equality and
    every function below evaluates.  Rounding, [NaN] and the infinities are
    outside the model; [Math.sqrt] is a parameter of the development.  What
    is stated of the numbers is therefore a closed form in the order of the
    operations of the code, a fact of order, or an equality that the code
    keeps up to rounding and that is said to be so.  Where rounding decides
    a result that no tolerance absorbs, the order of the dominant pitches,
    the two functions concerned are given a second time over the binary64
    floats of the kernel ([Module Double]).

    Strings.  The artist and the title of a song are well-formed strings,
    on which [encodeURIComponent] does not throw, so that every attempt of a
    search issues its request; a string with a lone surrogate, on which the
    attempt fails before any request, is outside the model.

    Effects.  An [async] method is a function from the number of requests
    issued so far to an outcome (a returned value or a thrown exception), the
    events emitted and the new number of requests; the two services are a
    [World] that answers each request by its number and its arguments.  Waits
    and deadlines appear as events and replies, not as time.

    Store and routes.  The store is a record of its maps, each an association
    list in insertion order, and a method is a function from the store to its
    result and the new store.  A route is a function from the parsed request
    body and the store to the response and the new store; what [randomUUID()],
    [new Date()], [Math.random()], [toFixed], the language model and the video
    search give are arguments, and what a route logs is left out. *)

From Stdlib Require Import QArith Qcanon ZArith Sorted Floats Uint63.
From stdpp Require Import base numbers option list sorting strings pretty.

Local Open Scope Qc_scope.

(** * Part I: the program *)

(** ** Numbers and truthiness *)

(** [arr.length] used as a number. *)
Definition of_nat (n : nat) : Qc := Qc_of_Z (Z.of_nat n).

(** [if (x)] on a number: every number but [0] is truthy. *)
Definition truthy (x : Qc) : bool := bool_decide (x ≠ 0).

(** [x || 0] where [x] is a number or [undefined]. *)
Definition or_zero (x : option Qc) : Qc :=
  match x with
  | Some v => if truthy v then v else 0
  | None => 0
  end.

(** [a[i]] for an index that the code keeps below [a.length]. *)
Definition at_index (a : list Qc) (i : nat) : Qc := default 0 (a !! i).

(** [Math.pow(x, 2)]. *)
Definition pow2 (x : Qc) : Qc := Qcpower x 2.

Definition Qc_min (x y : Qc) : Qc := if decide (x ≤ y) then x else y.
Definition Qc_max (x y : Qc) : Qc := if decide (x ≤ y) then y else x.

(** [Math.min(...arr)] and [Math.max(...arr)] on a non-empty array (the only
    place they are called is guarded by [tempos.length > 0]); on the empty
    array the model answers [0]. *)
Definition Math_min (arr : list Qc) : Qc :=
  match arr with
  | [] => 0
  | x :: xs => foldl Qc_min x xs
  end.

Definition Math_max (arr : list Qc) : Qc :=
  match arr with
  | [] => 0
  | x :: xs => foldl Qc_max x xs
  end.

(** ** Data model *)

(** The interfaces of the source, with its field names; where two interfaces
    share a name ([mean], [var], [mfcc], [id], [title]) the field carries the
    name of its interface as a prefix. *)

Record Rhythm := {
  bpm : option Qc;
  beats_count : option Qc;
}.

Record KeyEdma := {
  key : option string;
  scale : option string;
}.

Record Tonal := {
  chroma_cens : option (list Qc);
  key_edma : option KeyEdma;
}.

Record Mfcc := {
  mfcc_mean : option (list Qc);
  mfcc_var : option (list Qc);
}.

Record SpectralCentroid := { centroid_mean : option Qc }.
Record SpectralFlux := { flux_var : option Qc }.
Record ZeroCrossingRate := { zcr_mean : option Qc }.

Record Lowlevel := {
  mfcc : option Mfcc;
  spectral_centroid : option SpectralCentroid;
  spectral_flux : option SpectralFlux;
  zerocrossingrate : option ZeroCrossingRate;
}.

(** [interface AcousticBrainzFeatures]: every field optional. *)
Record AcousticBrainzFeatures := {
  rhythm : option Rhythm;
  tonal : option Tonal;
  lowlevel : option Lowlevel;
}.

Record TempoStats := {
  tempo_mean : Qc;
  tempo_std : Qc;
  tempo_range : Qc * Qc;
}.

Record MfccStats := {
  mean_vector : list Qc;
  variance_matrix : list (list Qc);
}.

Record ChromaStats := {
  dominant_pitches : list nat;
  avg_profile : list Qc;
}.

Record SpectralStats := {
  avg_centroid : Qc;
  flux_variance : Qc;
}.

(** The object literal [aggregateFeatures] returns. *)
Record AggregateProfile := {
  tempo : TempoStats;
  agg_mfcc : MfccStats;
  chroma : ChromaStats;
  spectral : SpectralStats;
  rhythm_complexity : Qc;
}.

(** ** The numeric aggregator *)

(** The optional chains read by [aggregateFeatures]:
    [feature.rhythm?.bpm], [feature.lowlevel?.mfcc?.mean], ... *)
Definition rhythm_bpm (feature : AcousticBrainzFeatures) : option Qc :=
  match rhythm feature with
  | Some r => bpm r
  | None => None
  end.

Definition tonal_chroma_cens (feature : AcousticBrainzFeatures)
  : option (list Qc) :=
  match tonal feature with
  | Some t => chroma_cens t
  | None => None
  end.

Definition lowlevel_mfcc_mean (feature : AcousticBrainzFeatures)
  : option (list Qc) :=
  match lowlevel feature with
  | Some l => match mfcc l with Some m => mfcc_mean m | None => None end
  | None => None
  end.

Definition lowlevel_spectral_centroid_mean (feature : AcousticBrainzFeatures)
  : option Qc :=
  match lowlevel feature with
  | Some l =>
      match spectral_centroid l with Some s => centroid_mean s | None => None end
  | None => None
  end.

Definition lowlevel_spectral_flux_var (feature : AcousticBrainzFeatures)
  : option Qc :=
  match lowlevel feature with
  | Some l => match spectral_flux l with Some s => flux_var s | None => None end
  | None => None
  end.

Definition lowlevel_zerocrossingrate_mean (feature : AcousticBrainzFeatures)
  : option Qc :=
  match lowlevel feature with
  | Some l =>
      match zerocrossingrate l with Some z => zcr_mean z | None => None end
  | None => None
  end.

(** [{ val, idx }] as built in [getDominantPitches]. *)
Record Indexed := {
  val : Qc;
  idx : nat;
}.

(** [Array.prototype.sort] with the comparator [(a, b) => b.val - a.val].
    The sort is stable, so its result is determined by the comparator alone;
    it is computed here by stable insertion: [x], which stood before every
    element of [l], goes before the first element not greater than it. *)
Fixpoint insert_desc (x : Indexed) (l : list Indexed) : list Indexed :=
  match l with
  | [] => [x]
  | y :: l' =>
      if decide (val y ≤ val x) then x :: y :: l' else y :: insert_desc x l'
  end.

Definition sort_desc (l : list Indexed) : list Indexed :=
  foldr insert_desc [] l.

Section Aggregator.

(** [Math.sqrt]. *)
Variable sqrt : Qc → Qc.

Definition mean (arr : list Qc) : Qc :=
  if decide (length arr = 0%nat) then 0
  else foldl (λ sum val, sum + val) 0 arr / of_nat (length arr).

Definition std (arr : list Qc) : Qc :=
  if decide (length arr = 0%nat) then 0
  else
    let mean := mean arr in
    let variance :=
      foldl (λ sum val, sum + pow2 (val - mean)) 0 arr / of_nat (length arr) in
    sqrt variance.

Definition variance (arr : list Qc) : Qc :=
  if decide (length arr = 0%nat) then 0
  else
    let mean := mean arr in
    foldl (λ sum val, sum + pow2 (val - mean)) 0 arr / of_nat (length arr).

(** The inner loop of [meanVector],
    [for (i = 0; i < Math.min(length, vector.length); i++) result[i] += vector[i]],
    and its body. *)
Definition add_at (vector result : list Qc) (i : nat) : list Qc :=
  <[i := at_index result i + at_index vector i]> result.

Definition add_vector (length : nat) (result vector : list Qc) : list Qc :=
  foldl (add_at vector) result (seq 0 (length `min` List.length vector)).

Definition meanVector (vectors : list (list Qc)) : list Qc :=
  match vectors with
  | [] => []
  | v0 :: _ =>
      let length := List.length v0 in
      let result := foldl (add_vector length) (replicate length 0) vectors in
      (λ val, val / of_nat (List.length vectors)) <$> result
  end.

(** [matrix[i][j] += d], for a row [i] of the matrix (the loops stay within
    [length] rows and columns). *)
Definition matrix_add (matrix : list (list Qc)) (i j : nat) (d : Qc)
  : list (list Qc) :=
  match matrix !! i with
  | Some row => <[i := <[j := at_index row j + d]> row]> matrix
  | None => matrix
  end.

(** The loop over [j] in [varianceMatrix], for one vector and one [i]. *)
Definition add_row (meanVec vector : list Qc) (length : nat)
    (matrix : list (list Qc)) (i : nat) : list (list Qc) :=
  foldl (λ matrix j,
      let diffI := or_zero (vector !! i) - at_index meanVec i in
      let diffJ := or_zero (vector !! j) - at_index meanVec j in
      matrix_add matrix i j (diffI * diffJ))
    matrix (seq 0 length).

(** The body of the loop over [vectors] in [varianceMatrix]. *)
Definition add_outer (meanVec : list Qc) (length : nat)
    (matrix : list (list Qc)) (vector : list Qc) : list (list Qc) :=
  foldl (add_row meanVec vector length) matrix (seq 0 length).

Definition varianceMatrix (vectors : list (list Qc)) : list (list Qc) :=
  match vectors with
  | [] => []
  | _ :: _ =>
      let meanVec := meanVector vectors in
      let length := List.length meanVec in
      let matrix := replicate length (replicate length 0) in
      let matrix := foldl (add_outer meanVec length) matrix vectors in
      (λ row : list Qc, (λ val, val / of_nat (List.length vectors)) <$> row) <$> matrix
  end.

Definition getDominantPitches (chromas : list (list Qc)) : list nat :=
  match chromas with
  | [] => []
  | _ :: _ =>
      let avgChroma := meanVector chromas in
      let indexed := imap (λ idx val, {| val := val; idx := idx |}) avgChroma in
      let indexed := sort_desc indexed in
      idx <$> take 3 indexed
  end.

(** The six arrays filled by the loop of [aggregateFeatures]. *)
Record Collected := {
  tempos : list Qc;
  mfccs : list (list Qc);
  chromas : list (list Qc);
  centroids : list Qc;
  fluxes : list Qc;
  zeroCrossings : list Qc;
}.

(** [if (x) arr.push(x)] for an optional number: [undefined] and [0] are
    falsy. *)
Definition push_number (arr : list Qc) (x : option Qc) : list Qc :=
  match x with
  | Some v => if truthy v then arr ++ [v] else arr
  | None => arr
  end.

(** [if (x) arr.push(x)] for an optional array: only [undefined] is falsy,
    an empty array is an object and therefore truthy. *)
Definition push_vector (arr : list (list Qc)) (x : option (list Qc))
  : list (list Qc) :=
  match x with
  | Some v => arr ++ [v]
  | None => arr
  end.

Definition collect_step (c : Collected) (feature : AcousticBrainzFeatures)
  : Collected :=
  {| tempos := push_number (tempos c) (rhythm_bpm feature);
     mfccs := push_vector (mfccs c) (lowlevel_mfcc_mean feature);
     chromas := push_vector (chromas c) (tonal_chroma_cens feature);
     centroids := push_number (centroids c) (lowlevel_spectral_centroid_mean feature);
     fluxes := push_number (fluxes c) (lowlevel_spectral_flux_var feature);
     zeroCrossings :=
       push_number (zeroCrossings c) (lowlevel_zerocrossingrate_mean feature) |}.

Definition no_collected : Collected :=
  {| tempos := []; mfccs := []; chromas := [];
     centroids := []; fluxes := []; zeroCrossings := [] |}.

Definition collect (features : list AcousticBrainzFeatures) : Collected :=
  foldl collect_step no_collected features.

Definition aggregateFeatures (features : list AcousticBrainzFeatures)
  : AggregateProfile :=
  let c := collect features in
  {| tempo :=
       {| tempo_mean := mean (tempos c);
          tempo_std := std (tempos c);
          tempo_range :=
            if decide (0 < length (tempos c))%nat
            then (Math_min (tempos c), Math_max (tempos c))
            else (0, 0) |};
     agg_mfcc :=
       {| mean_vector := meanVector (mfccs c);
          variance_matrix := varianceMatrix (mfccs c) |};
     chroma :=
       {| dominant_pitches := getDominantPitches (chromas c);
          avg_profile := meanVector (chromas c) |};
     spectral :=
       {| avg_centroid := mean (centroids c);
          flux_variance := variance (fluxes c) |};
     rhythm_complexity := mean (zeroCrossings c) |}.

End Aggregator.

(** ** The mean vector and the dominant pitches in double precision *)

(** [meanVector] and [getDominantPitches] once more, over the binary64
    floats of the kernel, whose operations round as those of JavaScript
    do. *)
Module Double.

(** [arr.length] used as a number. *)
Definition of_nat (n : nat) : float :=
  PrimFloat.of_uint63 (Uint63.of_Z (Z.of_nat n)).

(** [a[i]] for an index that the code keeps below [a.length]. *)
Definition at_index (a : list float) (i : nat) : float :=
  default PrimFloat.zero (a !! i).

Record Indexed := {
  val : float;
  idx : nat;
}.

Fixpoint insert_desc (x : Indexed) (l : list Indexed) : list Indexed :=
  match l with
  | [] => [x]
  | y :: l' =>
      if PrimFloat.leb (val y) (val x) then x :: y :: l'
      else y :: insert_desc x l'
  end.

Definition sort_desc (l : list Indexed) : list Indexed :=
  foldr insert_desc [] l.

Definition add_at (vector result : list float) (i : nat) : list float :=
  <[i := PrimFloat.add (at_index result i) (at_index vector i)]> result.

Definition add_vector (length : nat) (result vector : list float) : list float :=
  foldl (add_at vector) result (seq 0 (length `min` List.length vector)).

Definition meanVector (vectors : list (list float)) : list float :=
  match vectors with
  | [] => []
  | v0 :: _ =>
      let length := List.length v0 in
      let result :=
        foldl (add_vector length) (replicate length PrimFloat.zero) vectors in
      (λ val, PrimFloat.div val (of_nat (List.length vectors))) <$> result
  end.

Definition getDominantPitches (chromas : list (list float)) : list nat :=
  match chromas with
  | [] => []
  | _ :: _ =>
      let avgChroma := meanVector chromas in
      let indexed := imap (λ idx val, {| val := val; idx := idx |}) avgChroma in
      let indexed := sort_desc indexed in
      idx <$> take 3 indexed
  end.

End Double.

(** ** The outside world and the effects of the service *)

(** What the [catch] blocks tell apart: [error.name === 'AbortError'] (the
    [AbortController] fired after [timeoutMs]) or any other rejection. *)
Inductive FetchError :=
| AbortError
| NetworkError.

(** A resolved [fetch]: the status, and what [response.json()] resolves to
    ([None] when it rejects). *)
Record Response (A : Type) := {
  status : Z;
  json : option A;
}.
Arguments status {A} _.
Arguments json {A} _.

(** [response.ok]. *)
Definition ok {A : Type} (response : Response A) : bool :=
  (200 <=? status response)%Z && (status response <=? 299)%Z.

Inductive FetchResult (A : Type) :=
| Rejected (e : FetchError)
| Resolved (response : Response A).
Arguments Rejected {A} e.
Arguments Resolved {A} response.

Record MusicBrainzRecording := {
  recording_id : string;
  recording_title : string;
  artist_credit : list string;
}.

(** [data.recordings] may be missing from the parsed body. *)
Record MusicBrainzResponse := {
  recordings : option (list MusicBrainzRecording);
}.

(** The two services: what the request number [n] of the process (counted
    from [0] over both services) is answered. *)
Record World := {
  musicbrainz : nat → string → string → FetchResult MusicBrainzResponse;
  acousticbrainz : nat → string → FetchResult AcousticBrainzFeatures;
}.

Inductive Event :=
| Delay (ms : Z)
| FetchRecording (artist title : string)
| FetchFeatures (mbid : string)
| ConsoleLog
| ConsoleError.

(** What a [throw] or a rejected promise carries. *)
Inductive Exception :=
| FetchFailed (e : FetchError)
| ApiError (status : Z)
| JsonError.

Inductive Outcome (A : Type) :=
| Returned (a : A)
| Thrown (e : Exception).
Arguments Returned {A} a.
Arguments Thrown {A} e.

(** An [async] computation: from the number of requests issued so far to its
    outcome, the events it emitted and the new number of requests. *)
Definition Async (A : Type) : Type := nat → Outcome A * list Event * nat.

Definition async_ret {A : Type} (a : A) : Async A := λ n, (Returned a, [], n).

Definition async_bind {A B : Type} (k : A → Async B) (m : Async A) : Async B :=
  λ n,
    match m n with
    | (Returned a, t, n') =>
        match k a n' with
        | (o, t', n'') => (o, t ++ t', n'')
        end
    | (Thrown e, t, n') => (Thrown e, t, n')
    end.

Global Instance Async_ret : MRet Async := @async_ret.
Global Instance Async_bind : MBind Async := @async_bind.

Definition throw {A : Type} (e : Exception) : Async A := λ n, (Thrown e, [], n).

(** [try { body } catch (error) { handler }]. *)
Definition try_catch {A : Type} (body : Async A) (handler : Exception → Async A)
  : Async A :=
  λ n,
    match body n with
    | (Returned a, t, n') => (Returned a, t, n')
    | (Thrown e, t, n') =>
        match handler e n' with
        | (o, t', n'') => (o, t ++ t', n'')
        end
    end.

Definition emit (ev : Event) : Async unit := λ n, (Returned tt, [ev], n).

(** [await this.delay(ms)]. *)
Definition delay (ms : Z) : Async unit := emit (Delay ms).

(** [await fetch(url, ...)] against each service.  The artist and the title
    are well-formed strings, on which building the URL does not throw. *)
Definition fetch_recording (w : World) (artist title : string)
  : Async (Response MusicBrainzResponse) :=
  λ n,
    match musicbrainz w n artist title with
    | Rejected e => (Thrown (FetchFailed e), [FetchRecording artist title], S n)
    | Resolved response => (Returned response, [FetchRecording artist title], S n)
    end.

Definition fetch_features (w : World) (mbid : string)
  : Async (Response AcousticBrainzFeatures) :=
  λ n,
    match acousticbrainz w n mbid with
    | Rejected e => (Thrown (FetchFailed e), [FetchFeatures mbid], S n)
    | Resolved response => (Returned response, [FetchFeatures mbid], S n)
    end.

(** [await response.json()]. *)
Definition response_json {A : Type} (response : Response A) : Async A :=
  match json response with
  | Some data => mret data
  | None => throw JsonError
  end.

(** ** The service *)

Definition RATE_LIMIT_DELAY : Z := 1000.
Definition maxRetries : nat := 3.
Definition timeoutMs : Z := 10000.

(** How one turn of the [for] loop of [searchRecording] ends. *)
Inductive LoopStep (A : Type) :=
| Continue
| Return (a : A).
Arguments Continue {A}.
Arguments Return {A} a.

(** The waits before a retry: after a 429 and in the [catch] block. *)
Definition waitTime (attempt : nat) : Z := Z.of_nat attempt * 2000.
Definition catchDelay (attempt : nat) : Z := Z.of_nat attempt * 1000.

(** The body of the loop of [searchRecording], for one value of [attempt]. *)
Definition search_attempt (w : World) (artist title : string) (attempt : nat)
  : Async (LoopStep (option string)) :=
  try_catch
    (delay RATE_LIMIT_DELAY;;
     response ← fetch_recording w artist title;
     if negb (ok response) then
       if (status response =? 429)%Z && (attempt <? maxRetries)%nat then
         emit ConsoleLog;;
         delay (waitTime attempt);;
         mret Continue
       else throw (ApiError (status response))
     else
       data ← response_json response;
       match recordings data with
       | Some (r :: _) => mret (Return (Some (recording_id r)))
       | _ => mret (Return None)
       end)
    (λ error,
       emit ConsoleError;;
       if (attempt =? maxRetries)%nat then mret (Return None)
       else delay (catchDelay attempt);; mret Continue).

(** [for (let attempt = ...; attempt <= maxRetries; attempt++)] with
    [remaining = maxRetries + 1 - attempt] turns left, and the [return null]
    after the loop. *)
Fixpoint search_loop (w : World) (artist title : string)
    (remaining attempt : nat) : Async (option string) :=
  match remaining with
  | O => mret None
  | S remaining' =>
      step ← search_attempt w artist title attempt;
      match step with
      | Return result => mret result
      | Continue => search_loop w artist title remaining' (S attempt)
      end
  end.

Definition searchRecording (w : World) (artist title : string)
  : Async (option string) :=
  search_loop w artist title maxRetries 1.

Definition getAudioFeatures (w : World) (mbid : string)
  : Async (option AcousticBrainzFeatures) :=
  try_catch
    (response ← fetch_features w mbid;
     if negb (ok response) then
       if (status response =? 404)%Z then mret None
       else throw (ApiError (status response))
     else
       features ← response_json response;
       mret (Some features))
    (λ error, emit ConsoleError;; mret None).

Record Song := {
  artist : string;
  title : string;
}.

(** [if (mbid)] on a string: the empty string is falsy. *)
Definition string_truthy (s : string) : bool :=
  negb (String.eqb s EmptyString).

(** The value returned by [extractFeaturesFromSongs]; [features] is typed
    [any] and tested for [null] by the caller. *)
Record Extraction := {
  features : option AggregateProfile;
  processedCount : nat;
}.

Definition emptyFeatures : AggregateProfile :=
  {| tempo := {| tempo_mean := 0; tempo_std := 0; tempo_range := (0, 0) |};
     agg_mfcc := {| mean_vector := []; variance_matrix := [] |};
     chroma := {| dominant_pitches := []; avg_profile := [] |};
     spectral := {| avg_centroid := 0; flux_variance := 0 |};
     rhythm_complexity := 0 |}.

(** The state of the loop over the songs. *)
Record Batch := {
  allFeatures : list AcousticBrainzFeatures;
  count : nat;
}.

(** The body of [for (const song of songsToProcess)]. *)
Definition process_song (w : World) (b : Batch) (song : Song) : Async Batch :=
  mbid ← searchRecording w (artist song) (title song);
  collected ←
    match mbid with
    | Some mbid =>
        if string_truthy mbid then
          features ← getAudioFeatures w mbid;
          match features with
          | Some features => mret (allFeatures b ++ [features])
          | None => mret (allFeatures b)
          end
        else mret (allFeatures b)
    | None => mret (allFeatures b)
    end;
  mret {| allFeatures := collected; count := S (count b) |}.

Fixpoint for_each {S A : Type} (body : S → A → Async S) (l : list A) (s : S)
  : Async S :=
  match l with
  | [] => mret s
  | x :: l' => s' ← body s x; for_each body l' s'
  end.

Definition extractFeaturesFromSongs (sqrt : Qc → Qc) (w : World)
    (songs : list Song) : Async Extraction :=
  let songsToProcess := take 500 songs in
  b ← for_each (process_song w) songsToProcess {| allFeatures := []; count := 0 |};
  if (length (allFeatures b) =? 0)%nat then
    emit ConsoleLog;;
    mret {| features := Some emptyFeatures; processedCount := count b |}
  else
    emit ConsoleLog;;
    let aggregated := aggregateFeatures sqrt (allFeatures b) in
    mret {| features := Some aggregated; processedCount := count b |}.

(** ** [Map<string, V>]: a JavaScript [Map], which keeps its keys in
    insertion order: [set] on a key already present replaces the value in
    place, on a new key it appends. *)
Definition JsMap (V : Type) : Type := list (string * V).

Fixpoint map_set {V : Type} (k : string) (v : V) (m : JsMap V) : JsMap V :=
  match m with
  | [] => [(k, v)]
  | (k', v') :: m' =>
      if decide (k' = k) then (k, v) :: m' else (k', v') :: map_set k v m'
  end.

Fixpoint map_get {V : Type} (k : string) (m : JsMap V) : option V :=
  match m with
  | [] => None
  | (k', v') :: m' => if decide (k' = k) then Some v' else map_get k m'
  end.

(** [m.delete(k)]. *)
Fixpoint map_delete {V : Type} (k : string) (m : JsMap V) : JsMap V :=
  match m with
  | [] => []
  | (k', v') :: m' =>
      if decide (k' = k) then m' else (k', v') :: map_delete k m'
  end.

(** [Array.from(m.values())]. *)
Definition map_values {V : Type} (m : JsMap V) : list V := m.*2.

(** ** [shared/schema.ts] and [server/storage.ts]: the records and the store *)

(** [createdAt] is the [Date] read when the record is made, here a number. *)
Record Session := {
  session_id : string;
  session_createdAt : Z;
}.

Record SongList := {
  songlist_id : string;
  songlist_sessionId : string;
  songlist_songs : list Song;
  songlist_features : option AggregateProfile;
  songlist_createdAt : Z;
}.

(** [videoId] is [null] until a video was found. *)
Record Recommendation := {
  recommendation_id : string;
  recommendation_sessionId : string;
  recommendation_songListId : string;
  recommendation_artist : string;
  recommendation_title : string;
  recommendation_sonicMatch : string;
  recommendation_searchTerm : string;
  recommendation_videoId : option string;
  recommendation_createdAt : Z;
}.

(** [InsertRecommendation]: a recommendation without [id] and [createdAt];
    its [videoId] may be left out or [null], both [None] here. *)
Record InsertRecommendation := {
  insert_sessionId : string;
  insert_songListId : string;
  insert_artist : string;
  insert_title : string;
  insert_sonicMatch : string;
  insert_searchTerm : string;
  insert_videoId : option string;
}.

Record Feedback := {
  feedback_id : string;
  feedback_sessionId : string;
  feedback_recommendationId : string;
  feedback_liked : bool;
  feedback_createdAt : Z;
}.

(** [InsertFeedback]. *)
Record InsertFeedback := {
  given_sessionId : string;
  given_recommendationId : string;
  given_liked : bool;
}.

Record Playlist := {
  playlist_id : string;
  playlist_sessionId : string;
  playlist_recommendationId : string;
  playlist_createdAt : Z;
}.

(** [class MemStorage]: its five maps. *)
Record MemStorage := {
  sessions : JsMap Session;
  songLists : JsMap SongList;
  recommendations : JsMap Recommendation;
  feedback : JsMap Feedback;
  playlists : JsMap Playlist;
}.

(** [this.sessions.set], [this.songLists.set], ... change one map and leave
    the other four. *)
Definition set_sessions (m : JsMap Session) (st : MemStorage) : MemStorage :=
  {| sessions := m;
     songLists := songLists st;
     recommendations := recommendations st;
     feedback := feedback st;
     playlists := playlists st |}.

Definition set_songLists (m : JsMap SongList) (st : MemStorage) : MemStorage :=
  {| sessions := sessions st;
     songLists := m;
     recommendations := recommendations st;
     feedback := feedback st;
     playlists := playlists st |}.

Definition set_recommendations (m : JsMap Recommendation) (st : MemStorage)
  : MemStorage :=
  {| sessions := sessions st;
     songLists := songLists st;
     recommendations := m;
     feedback := feedback st;
     playlists := playlists st |}.

Definition set_feedback (m : JsMap Feedback) (st : MemStorage) : MemStorage :=
  {| sessions := sessions st;
     songLists := songLists st;
     recommendations := recommendations st;
     feedback := m;
     playlists := playlists st |}.

Definition set_playlists (m : JsMap Playlist) (st : MemStorage) : MemStorage :=
  {| sessions := sessions st;
     songLists := songLists st;
     recommendations := recommendations st;
     feedback := feedback st;
     playlists := m |}.

(** The methods take what [randomUUID()] and [new Date()] give them as the
    arguments [id] and [now]. *)
Definition createSession (id : string) (now : Z) (st : MemStorage)
  : Session * MemStorage :=
  let session := {| session_id := id; session_createdAt := now |} in
  (session, set_sessions (map_set id session (sessions st)) st).

Definition getSession (id : string) (st : MemStorage) : option Session :=
  map_get id (sessions st).

Definition createSongList (id : string) (now : Z) (sessionId : string)
    (songs : list Song) (st : MemStorage) : SongList * MemStorage :=
  let songList :=
    {| songlist_id := id;
       songlist_sessionId := sessionId;
       songlist_songs := songs;
       songlist_features := None;
       songlist_createdAt := now |} in
  (songList, set_songLists (map_set id songList (songLists st)) st).

Definition updateSongListFeatures (id : string) (features : AggregateProfile)
    (st : MemStorage) : option SongList * MemStorage :=
  match map_get id (songLists st) with
  | None => (None, st)
  | Some songList =>
      let updated :=
        {| songlist_id := songlist_id songList;
           songlist_sessionId := songlist_sessionId songList;
           songlist_songs := songlist_songs songList;
           songlist_features := Some features;
           songlist_createdAt := songlist_createdAt songList |} in
      (Some updated, set_songLists (map_set id updated (songLists st)) st)
  end.

Definition getSongList (id : string) (st : MemStorage) : option SongList :=
  map_get id (songLists st).

Definition getSongListsBySession (sessionId : string) (st : MemStorage)
  : list SongList :=
  filter (λ sl, songlist_sessionId sl = sessionId) (map_values (songLists st)).

(** [{ id, ...data, videoId: data.videoId ?? null, createdAt }]. *)
Definition createRecommendation (id : string) (now : Z)
    (data : InsertRecommendation) (st : MemStorage)
  : Recommendation * MemStorage :=
  let recommendation :=
    {| recommendation_id := id;
       recommendation_sessionId := insert_sessionId data;
       recommendation_songListId := insert_songListId data;
       recommendation_artist := insert_artist data;
       recommendation_title := insert_title data;
       recommendation_sonicMatch := insert_sonicMatch data;
       recommendation_searchTerm := insert_searchTerm data;
       recommendation_videoId := insert_videoId data;
       recommendation_createdAt := now |} in
  (recommendation,
   set_recommendations (map_set id recommendation (recommendations st)) st).

Definition getRecommendationsBySession (sessionId : string) (st : MemStorage)
  : list Recommendation :=
  filter (λ r, recommendation_sessionId r = sessionId)
         (map_values (recommendations st)).

Definition getRecommendation (id : string) (st : MemStorage)
  : option Recommendation :=
  map_get id (recommendations st).

(** [{ ...recommendation, videoId }]. *)
Definition with_videoId (recommendation : Recommendation) (videoId : string)
  : Recommendation :=
  {| recommendation_id := recommendation_id recommendation;
     recommendation_sessionId := recommendation_sessionId recommendation;
     recommendation_songListId := recommendation_songListId recommendation;
     recommendation_artist := recommendation_artist recommendation;
     recommendation_title := recommendation_title recommendation;
     recommendation_sonicMatch := recommendation_sonicMatch recommendation;
     recommendation_searchTerm := recommendation_searchTerm recommendation;
     recommendation_videoId := Some videoId;
     recommendation_createdAt := recommendation_createdAt recommendation |}.

Definition updateRecommendationVideoId (id videoId : string) (st : MemStorage)
  : MemStorage :=
  match map_get id (recommendations st) with
  | Some recommendation =>
      set_recommendations
        (map_set id (with_videoId recommendation videoId) (recommendations st))
        st
  | None => st
  end.

Definition createFeedback (id : string) (now : Z) (data : InsertFeedback)
    (st : MemStorage) : Feedback * MemStorage :=
  let feedbackItem :=
    {| feedback_id := id;
       feedback_sessionId := given_sessionId data;
       feedback_recommendationId := given_recommendationId data;
       feedback_liked := given_liked data;
       feedback_createdAt := now |} in
  (feedbackItem, set_feedback (map_set id feedbackItem (feedback st)) st).

Definition getFeedbackBySession (sessionId : string) (st : MemStorage)
  : list Feedback :=
  filter (λ f, feedback_sessionId f = sessionId) (map_values (feedback st)).

Definition addToPlaylist (id : string) (now : Z)
    (sessionId recommendationId : string) (st : MemStorage)
  : Playlist * MemStorage :=
  let playlistItem :=
    {| playlist_id := id;
       playlist_sessionId := sessionId;
       playlist_recommendationId := recommendationId;
       playlist_createdAt := now |} in
  (playlistItem, set_playlists (map_set id playlistItem (playlists st)) st).

(** Each item of the session with the recommendation stored under its
    [recommendationId]; the last [filter] drops the items for which there is
    none. *)
Definition getPlaylistBySession (sessionId : string) (st : MemStorage)
  : list (Playlist * Recommendation) :=
  let playlistItems :=
    filter (λ p, playlist_sessionId p = sessionId)
           (map_values (playlists st)) in
  omap (λ item : Playlist * option Recommendation,
          match item.2 with
          | Some recommendation => Some (item.1, recommendation)
          | None => None
          end)
       ((λ item, (item, map_get (playlist_recommendationId item)
                                (recommendations st)))
          <$> playlistItems).

(** The loop of [removeFromPlaylist] over the entries read before it starts:
    the first entry of the session and the recommendation is deleted from the
    map, and the loop breaks. *)
Fixpoint remove_first (sessionId recommendationId : string)
    (entries : list (string * Playlist)) (m : JsMap Playlist) : JsMap Playlist :=
  match entries with
  | [] => m
  | (id, item) :: entries' =>
      if bool_decide (playlist_sessionId item = sessionId
                      ∧ playlist_recommendationId item = recommendationId)
      then map_delete id m
      else remove_first sessionId recommendationId entries' m
  end.

Definition removeFromPlaylist (sessionId recommendationId : string)
    (st : MemStorage) : MemStorage :=
  let entries := playlists st in
  set_playlists (remove_first sessionId recommendationId entries (playlists st))
                st.

(** ** [server/services/gemini.ts]: the two calls of the model *)

(** What [ai.models.generateContent] gives [generateSonicArchetype]: a
    rejection, or a response whose [text] may be undefined. *)
Inductive Generated :=
| GenerateRejected
| GenerateText (text : option string).

(** [GeminiService.generateSonicArchetype].  The prompt varies with the
    features only, so the model answers by the features. *)
Definition generateSonicArchetype (generateContent : AggregateProfile → Generated)
    (features : AggregateProfile) : string :=
  match generateContent features with
  | GenerateText (Some text) =>
      if string_truthy text then text else "Unknown sonic archetype"
  | GenerateText None => "Unknown sonic archetype"
  | GenerateRejected => "Neural pattern processing..."
  end.

(** One recommendation in the answer of the model. *)
Record GeminiRecommendation := {
  gemini_artist : string;
  gemini_title : string;
  sonic_match : string;
  search_term : string;
}.

(** One entry of the feedback history handed to the model. *)
Record FeedbackDatum := {
  datum_liked : bool;
  datum_artist : string;
  datum_title : string;
}.

(** [GeminiService.generateRecommendations].  [generateContent] stands for
    the call of the model and [JSON.parse] of its text, by what varies in the
    prompt: [None] when the call is rejected, the text is empty, or it does
    not parse as an array.  Each of these throws, as an empty array does, and
    the [catch] block returns an empty array. *)
Definition generateRecommendations
    (generateContent : AggregateProfile → list string → list FeedbackDatum →
                       option (list GeminiRecommendation))
    (features : AggregateProfile) (userSongs : list string)
    (feedbackHistory : list FeedbackDatum) : list GeminiRecommendation :=
  match generateContent features userSongs feedbackHistory with
  | None => []
  | Some recommendations =>
      if (length recommendations =? 0)%nat then []
      else
        filter (λ rec,
                  string_truthy (gemini_artist rec)
                  && string_truthy (gemini_title rec)
                  && string_truthy (sonic_match rec)
                  && string_truthy (search_term rec) = true)
               recommendations
  end.

(** ** [server/routes.ts]: the routes *)

Inductive ResponseBody :=
| ErrorBody (error : string)
| ProcessingStarted (songListId message : string) (totalSongs : nat)
| NoProcessing
| ProcessingStatus (status songListId : string) (totalSongs : nat)
    (hasFeatures : bool)
| SessionBody (session : Session)
| FeedbackBody (feedback : Feedback)
| PlaylistBody (playlist : list (Playlist * Recommendation))
| RecommendationsBody (recommendations : list Recommendation)
| SonicProfileBody (tempo key centroid warmth archetype : string).

(** [res.status(code).json(body)]; [res.json(body)] answers 200. *)
Record HttpResponse := {
  http_status : Z;
  http_body : ResponseBody;
}.

(** What [setImmediate] was given: the song list to fill and its songs. *)
Record Scheduled := {
  scheduled_songListId : string;
  scheduled_songs : list Song;
}.

(** [POST /api/process-list], up to its response.  [body] is the request
    body as the zod schema parses it, [None] when [parse] throws. *)
Definition process_list (body : option (string * list Song)) (id : string)
    (now : Z) (st : MemStorage) : HttpResponse * MemStorage * option Scheduled :=
  match body with
  | None =>
      ({| http_status := 500;
          http_body := ErrorBody "Failed to process song list" |}, st, None)
  | Some (sessionId, songs) =>
      match getSession sessionId st with
      | None =>
          ({| http_status := 404; http_body := ErrorBody "Session not found" |},
           st, None)
      | Some session =>
          let '(songList, st') := createSongList id now sessionId songs st in
          ({| http_status := 200;
              http_body :=
                ProcessingStarted (songlist_id songList) "Processing started"
                                  (length songs) |},
           st',
           Some {| scheduled_songListId := songlist_id songList;
                   scheduled_songs := songs |})
      end
  end.

(** The callback given to [setImmediate].  [st] is the storage as the other
    requests have left it when the extraction is over: the extraction itself
    does not touch it. *)
Definition process_list_task (sqrt : Qc → Qc) (w : World) (task : Scheduled)
    (st : MemStorage) : Async MemStorage :=
  try_catch
    (result ← extractFeaturesFromSongs sqrt w (scheduled_songs task);
     let st' :=
       match features result with
       | Some features =>
           (updateSongListFeatures (scheduled_songListId task) features st).2
       | None => st
       end in
     emit ConsoleLog;;
     mret st')
    (λ error, emit ConsoleError;; mret st).

(** [GET /api/processing-status/:sessionId]. *)
Definition processing_status (sessionId : string) (st : MemStorage)
  : HttpResponse :=
  let songLists := getSongListsBySession sessionId st in
  match last songLists with
  | None => {| http_status := 200; http_body := NoProcessing |}
  | Some latestSongList =>
      let hasFeatures :=
        match songlist_features latestSongList with
        | Some _ => true
        | None => false
        end in
      {| http_status := 200;
         http_body :=
           ProcessingStatus (if hasFeatures then "completed" else "processing")
                            (songlist_id latestSongList)
                            (length (songlist_songs latestSongList))
                            hasFeatures |}
  end.

(** [POST /api/feedback].  [body] is the request body as
    [insertFeedbackSchema] parses it, [None] when [parse] throws; [id] and
    [now] go to [createFeedback], [playlistId] and [later] to
    [addToPlaylist]. *)
Definition submit_feedback (body : option InsertFeedback)
    (id playlistId : string) (now later : Z) (st : MemStorage)
  : HttpResponse * MemStorage :=
  match body with
  | None =>
      ({| http_status := 500; http_body := ErrorBody "Failed to submit feedback" |},
       st)
  | Some feedbackData =>
      let '(feedback, st1) := createFeedback id now feedbackData st in
      let st2 :=
        if given_liked feedbackData
        then (addToPlaylist playlistId later (given_sessionId feedbackData)
                            (given_recommendationId feedbackData) st1).2
        else st1 in
      ({| http_status := 200; http_body := FeedbackBody feedback |}, st2)
  end.

(** [GET /api/playlist/:sessionId]. *)
Definition playlist (sessionId : string) (st : MemStorage) : HttpResponse :=
  {| http_status := 200;
     http_body := PlaylistBody (getPlaylistBySession sessionId st) |}.

(** [s || fallback] on a string: only the empty string is falsy. *)
Definition or_text (s fallback : string) : string :=
  if string_truthy s then s else fallback.

Definition keyMap : list string :=
  ["C"; "C#"; "D"; "D#"; "E"; "F"; "F#"; "G"; "G#"; "A"; "A#"; "B"].

(** [GET /api/sonic-profile/:sessionId].  [toFixed x digits] is
    [x.toFixed(digits)], [minor] is what [Math.random() > 0.5] gives. *)
Definition sonic_profile (toFixed : Qc → nat → string)
    (generateContent : AggregateProfile → Generated) (minor : bool)
    (sessionId : string) (st : MemStorage) : HttpResponse :=
  let songLists := getSongListsBySession sessionId st in
  let placeholder :=
    {| http_status := 200;
       http_body :=
         SonicProfileBody "-- BPM" "Unknown" "-- kHz" "--"
                          "Neural pattern processing..." |} in
  match songLists !! 0%nat with
  | None => placeholder
  | Some first =>
      match songlist_features first with
      | None => placeholder
      | Some features =>
          let archetype := generateSonicArchetype generateContent features in
          let dominantPitch :=
            match dominant_pitches (chroma features) !! 0%nat with
            | Some pitch => pitch
            | None => 0%nat
            end in
          let key :=
            match keyMap !! (dominantPitch mod 12)%nat with
            | Some name => name
            | None => "undefined"
            end in
          {| http_status := 200;
             http_body :=
               SonicProfileBody
                 (or_text (toFixed (tempo_mean (tempo features)) 1%nat) "0"
                  +:+ " BPM")
                 (key +:+ " " +:+ (if minor then "Minor" else "Major"))
                 (or_text (toFixed (avg_centroid (spectral features)
                                    / of_nat 1000) 1%nat) "0"
                  +:+ "kHz")
                 (match mean_vector (agg_mfcc features) !! 2%nat with
                  | Some warmth => or_text (toFixed warmth 2%nat) "0.0"
                  | None => "0.0"
                  end)
                 archetype |}
      end
  end.

(** The history of the session as the route hands it to the model: each
    feedback with the artist and the title of its recommendation, the
    feedback on a recommendation that is not among those of the session
    left out. *)
Definition feedbackData (feedbackHistory : list Feedback)
    (existingRecommendations : list Recommendation) : list FeedbackDatum :=
  omap (λ f,
          match List.find (λ r, bool_decide (recommendation_id r
                                             = feedback_recommendationId f))
                          existingRecommendations with
          | Some rec =>
              Some {| datum_liked := feedback_liked f;
                      datum_artist := recommendation_artist rec;
                      datum_title := recommendation_title rec |}
          | None => None
          end)
       feedbackHistory.

(** The loop [for (const rec of geminiRecs)] of [POST /api/recommendations].
    [searchVideo] gives the id of the video that [youtubeService.searchVideo]
    finds for a search term, [None] when it finds none or throws; [uuid i]
    and [clock i] are what [randomUUID()] and [new Date()] give at their
    [i]-th call in the request. *)
Fixpoint save_recommendations (searchVideo : string → option string)
    (uuid : nat → string) (clock : nat → Z) (sessionId songListId : string)
    (geminiRecs : list GeminiRecommendation) (i : nat) (st : MemStorage)
  : list Recommendation * MemStorage :=
  match geminiRecs with
  | [] => ([], st)
  | rec :: geminiRecs' =>
      let '(saved, st) :=
        createRecommendation (uuid i) (clock i)
          {| insert_sessionId := sessionId;
             insert_songListId := songListId;
             insert_artist := gemini_artist rec;
             insert_title := gemini_title rec;
             insert_sonicMatch := sonic_match rec;
             insert_searchTerm := search_term rec;
             insert_videoId := None |} st in
      let '(saved, st) :=
        match searchVideo (search_term rec) with
        | Some videoId =>
            (with_videoId saved videoId,
             updateRecommendationVideoId (recommendation_id saved) videoId st)
        | None => (saved, st)
        end in
      let '(savedRecommendations, st) :=
        save_recommendations searchVideo uuid clock sessionId songListId
                             geminiRecs' (S i) st in
      (saved :: savedRecommendations, st)
  end.

(** [POST /api/recommendations].  [body] is the request body as the zod
    schema parses it, [None] when [parse] throws. *)
Definition generate_recommendations
    (generateContent : AggregateProfile → list string → list FeedbackDatum →
                       option (list GeminiRecommendation))
    (searchVideo : string → option string) (uuid : nat → string)
    (clock : nat → Z) (body : option (string * string)) (st : MemStorage)
  : HttpResponse * MemStorage :=
  let not_ready :=
    ({| http_status := 400;
        http_body := ErrorBody "Song list not found or features not ready" |},
     st) in
  let failed :=
    ({| http_status := 500;
        http_body := ErrorBody "Failed to generate recommendations" |}, st) in
  match body with
  | None => failed
  | Some (sessionId, songListId) =>
      match getSongList songListId st with
      | None => not_ready
      | Some songList =>
          match songlist_features songList with
          | None => not_ready
          | Some features =>
              let feedbackHistory := getFeedbackBySession sessionId st in
              let existingRecommendations :=
                getRecommendationsBySession sessionId st in
              let feedbackData :=
                feedbackData feedbackHistory existingRecommendations in
              let userSongs :=
                (λ s, artist s +:+ " - " +:+ title s) <$> songlist_songs songList in
              let geminiRecs :=
                generateRecommendations generateContent features userSongs
                                        feedbackData in
              if (length geminiRecs =? 0)%nat then failed
              else
                let '(savedRecommendations, st') :=
                  save_recommendations searchVideo uuid clock sessionId
                                       songListId geminiRecs 0 st in
                ({| http_status := 200;
                    http_body := RecommendationsBody savedRecommendations |},
                 st')
          end
      end
  end.

(** ** The earlier revision of the service *)

(** [server/services/musicbrainz.ts] holds an earlier revision of the class
    before the current one.  Its [delay], [getAudioFeatures] (but for the
    abort timer, which the model does not tell from another rejection),
    [aggregateFeatures] and numeric helpers are those modelled above; its
    [searchRecording] and [extractFeaturesFromSongs] differ and are modelled
    here. *)
Module Earlier.

(** A run that may not end: [None] when the recursion is deeper than the
    fuel given. *)
Definition Run (A : Type) : Type := option (Outcome A * list Event * nat).

(** The body of [searchRecording] up to the recursive call: [Continue]
    stands for [return this.searchRecording(artist, title)]. *)
Definition search_once (w : World) (artist title : string)
  : Async (LoopStep (option string)) :=
  try_catch
    (delay RATE_LIMIT_DELAY;;
     response ← fetch_recording w artist title;
     if negb (ok response) then
       if (status response =? 429)%Z then
         delay 5000;;
         mret Continue
       else throw (ApiError (status response))
     else
       data ← response_json response;
       match recordings data with
       | Some (r :: _) => mret (Return (Some (recording_id r)))
       | _ => mret (Return None)
       end)
    (λ error, emit ConsoleError;; mret (Return None)).

Fixpoint searchRecording (fuel : nat) (w : World) (artist title : string)
    (n : nat) : Run (option string) :=
  match fuel with
  | O => None
  | S fuel' =>
      match search_once w artist title n with
      | (Returned Continue, t, n1) =>
          match searchRecording fuel' w artist title n1 with
          | Some (o, t', n2) => Some (o, t ++ t', n2)
          | None => None
          end
      | (Returned (Return result), t, n1) => Some (Returned result, t, n1)
      | (Thrown e, t, n1) => Some (Thrown e, t, n1)
      end
  end.

(** A run followed by a computation that ends. *)
Definition and_then {A B : Type} (r : Run A) (k : A → Async B) : Run B :=
  match r with
  | Some (Returned a, t, n1) =>
      match k a n1 with
      | (o, t', n2) => Some (o, t ++ t', n2)
      end
  | Some (Thrown e, t, n1) => Some (Thrown e, t, n1)
  | None => None
  end.

(** The body of [for (const song of songsToProcess)]. *)
Definition process_song (fuel : nat) (w : World) (b : Batch) (song : Song)
    (n : nat) : Run Batch :=
  and_then (searchRecording fuel w (artist song) (title song) n)
    (λ mbid,
       collected ←
         match mbid with
         | Some mbid =>
             if string_truthy mbid then
               features ← getAudioFeatures w mbid;
               match features with
               | Some features => mret (allFeatures b ++ [features])
               | None => mret (allFeatures b)
               end
             else mret (allFeatures b)
         | None => mret (allFeatures b)
         end;
       mret {| allFeatures := collected; count := S (count b) |}).

Fixpoint for_each_song (fuel : nat) (w : World) (songs : list Song) (b : Batch)
    (n : nat) : Run Batch :=
  match songs with
  | [] => Some (Returned b, [], n)
  | song :: songs' =>
      match process_song fuel w b song n with
      | Some (Returned b', t, n1) =>
          match for_each_song fuel w songs' b' n1 with
          | Some (o, t', n2) => Some (o, t ++ t', n2)
          | None => None
          end
      | Some (Thrown e, t, n1) => Some (Thrown e, t, n1)
      | None => None
      end
  end.

Definition extractFeaturesFromSongs (fuel : nat) (sqrt : Qc → Qc) (w : World)
    (songs : list Song) (n : nat) : Run Extraction :=
  let songsToProcess := take 500 songs in
  and_then
    (for_each_song fuel w songsToProcess {| allFeatures := []; count := 0 |} n)
    (λ b,
       if (length (allFeatures b) =? 0)%nat then
         mret {| features := None; processedCount := count b |}
       else
         let aggregated := aggregateFeatures sqrt (allFeatures b) in
         mret {| features := Some aggregated; processedCount := count b |}).

End Earlier.

(** * Part II: the vocabulary of the properties *)

(** ** Sums, matrices and orders *)

(** The sum [meanVector] divides: the elements at index [i] of the vectors
    that have one, added from left to right starting from [0]. *)
Definition sum_at (vectors : list (list Qc)) (i : nat) : Qc :=
  foldl Qcplus 0 (omap (λ v : list Qc, v !! i) vectors).

(** [matrix[i][j]], [None] outside the matrix. *)
Definition entry (matrix : list (list Qc)) (i j : nat) : option Qc :=
  match matrix !! i with
  | Some row => row !! j
  | None => None
  end.

Definition cell (matrix : list (list Qc)) (i j : nat) : Qc :=
  default 0 (entry matrix i j).

(** An [L]×[L] array of arrays. *)
Definition square (L : nat) (matrix : list (list Qc)) : Prop :=
  length matrix = L ∧ Forall (λ row : list Qc, length row = L) matrix.

(** [diffI * diffJ] in the body of [varianceMatrix]. *)
Definition diff_prod (meanVec vector : list Qc) (i j : nat) : Qc :=
  (or_zero (vector !! i) - at_index meanVec i)
  * (or_zero (vector !! j) - at_index meanVec j).

(** The sum [varianceMatrix] divides for its entry [i], [j]: the products of
    the differences to the mean, a missing element counting as [0], added
    from left to right starting from [0]. *)
Definition cov_sum (meanVec : list Qc) (vectors : list (list Qc)) (i j : nat)
  : Qc :=
  foldl (λ sum v : _,
           sum + (default 0 (v !! i) - default 0 (meanVec !! i))
                 * (default 0 (v !! j) - default 0 (meanVec !! j)))
        0 vectors.

(** [x] is placed before [y] by a stable descending sort of a list in which
    the [idx] fields grow: larger value first, equal values by position. *)
Definition precedes (x y : Indexed) : Prop :=
  val y < val x ∨ (val x = val y ∧ (idx x < idx y)%nat).

(** The array [indexed] of [getDominantPitches]. *)
Definition indexed_of (avgChroma : list Qc) : list Indexed :=
  imap (λ idx val, {| val := val; idx := idx |}) avgChroma.

(** The order of the indices that [getDominantPitches] cuts to three. *)
Definition pitch_order (avgChroma : list Qc) : list nat :=
  idx <$> sort_desc (indexed_of avgChroma).

(** The integer [n] as a number. *)
Definition q (n : Z) : Qc := Qc_of_Z n.

(** The double nearest to [n / 10], as the literals [0.1], [0.2], [0.3]
    are read. *)
Definition tenths (n : nat) : float :=
  PrimFloat.div (Double.of_nat n) (Double.of_nat 10).

(** Two 12-dimensional chroma vectors: all the energy on the first pitch
    class, and all of it on the second. *)
Definition chroma_c : list Qc :=
  [q 1; q 0; q 0; q 0; q 0; q 0; q 0; q 0; q 0; q 0; q 0; q 0].
Definition chroma_c_sharp : list Qc :=
  [q 0; q 1; q 0; q 0; q 0; q 0; q 0; q 0; q 0; q 0; q 0; q 0].

(** ** Traces and replies *)

Definition is_fetch (ev : Event) : bool :=
  match ev with
  | FetchRecording _ _ | FetchFeatures _ => true
  | _ => false
  end.

(** The number of requests a trace holds. *)
Definition fetches (trace : list Event) : nat := length (filter is_fetch trace).

(** The backoff waits of a trace: every [Delay] but the fixed pre-call one
    that stands right before a request. *)
Fixpoint backoffs (trace : list Event) : list Z :=
  match trace with
  | Delay _ :: ((FetchRecording _ _ :: _) as rest) => backoffs rest
  | Delay ms :: rest => ms :: backoffs rest
  | _ :: rest => backoffs rest
  | [] => []
  end.

(** A reply that makes an attempt of [searchRecording] fail: a rejected
    [fetch], a status outside 2xx, or a body that does not parse. *)
Definition failed {A : Type} (reply : FetchResult A) : bool :=
  match reply with
  | Rejected _ => true
  | Resolved response => negb (ok response) || bool_decide (json response = None)
  end.

Definition rate_limited {A : Type} (reply : FetchResult A) : bool :=
  match reply with
  | Rejected _ => false
  | Resolved response => (status response =? 429)%Z
  end.


(** [data.recordings[0].id] when there is a first recording. *)
Definition first_id (data : MusicBrainzResponse) : option string :=
  match recordings data with
  | Some (r :: _) => Some (recording_id r)
  | _ => None
  end.

(** What the [catch] block of [searchRecording] leaves behind. *)
Definition caught (artist title : string) (attempt n : nat)
  : Outcome (LoopStep (option string)) * list Event * nat :=
  if (attempt =? maxRetries)%nat
  then (Returned (Return None),
        [Delay RATE_LIMIT_DELAY; FetchRecording artist title; ConsoleError], S n)
  else (Returned Continue,
        [Delay RATE_LIMIT_DELAY; FetchRecording artist title; ConsoleError;
         Delay (catchDelay attempt)], S n).

(** A service that knows no recording and no features. *)
Definition silent_world : World :=
  {| musicbrainz := λ _ _ _,
       Resolved {| status := 200; json := Some {| recordings := Some [] |} |};
     acousticbrainz := λ _ _, Resolved {| status := 404; json := None |} |}.

(** The features [getAudioFeatures] hands back for a reply. *)
Definition features_of (reply : FetchResult AcousticBrainzFeatures)
  : option AcousticBrainzFeatures :=
  match reply with
  | Resolved response => if ok response then json response else None
  | Rejected _ => None
  end.

(** Whether the [catch] block of [getAudioFeatures] ran. *)
Definition features_caught (reply : FetchResult AcousticBrainzFeatures) : bool :=
  match reply with
  | Resolved response =>
      if ok response then bool_decide (json response = None)
      else negb (status response =? 404)%Z
  | Rejected _ => true
  end.

(** The requests of a trace that went to the search service. *)
Definition searched (trace : list Event) : list Song :=
  omap (λ ev, match ev with
              | FetchRecording artist title =>
                  Some {| artist := artist; title := title |}
              | _ => None
              end) trace.

(** The songs of a list, each repeated at least once, in order. *)
Inductive repeats : list Song → list Song → Prop :=
| repeats_nil : repeats [] []
| repeats_cons song k songs l :
    repeats songs l → repeats (song :: songs) (replicate (S k) song ++ l).

(** ** Documents *)

(** An optional number as [if (x)] sees it: [0] is as good as absent. *)
Definition nonzero (x : option Qc) : option Qc :=
  match x with
  | Some v => if truthy v then Some v else None
  | None => None
  end.

(** The document with every scalar field that is [0] removed. *)
Definition strip_zeros (d : AcousticBrainzFeatures) : AcousticBrainzFeatures :=
  {| rhythm :=
       (λ r, {| bpm := nonzero (bpm r); beats_count := beats_count r |})
         <$> rhythm d;
     tonal := tonal d;
     lowlevel :=
       (λ l, {| mfcc := mfcc l;
                spectral_centroid :=
                  (λ s, {| centroid_mean := nonzero (centroid_mean s) |})
                    <$> spectral_centroid l;
                spectral_flux :=
                  (λ s, {| flux_var := nonzero (flux_var s) |})
                    <$> spectral_flux l;
                zerocrossingrate :=
                  (λ z, {| zcr_mean := nonzero (zcr_mean z) |})
                    <$> zerocrossingrate l |})
         <$> lowlevel d |}.

(** ** Sample inputs *)

(** [Math.sqrt] as far as the rationals hold it: exact on the squares of
    rationals, numerator and denominator rounded down elsewhere.  It serves
    the examples. *)
Definition sample_sqrt (x : Qc) : Qc :=
  Q2Qc (Z.sqrt (Qnum (this x)) # Pos.sqrt (Qden (this x))).

(** A document that carries nothing but [lowlevel.mfcc.mean]. *)
Definition mfcc_doc (mean : option (list Qc)) : AcousticBrainzFeatures :=
  {| rhythm := None;
     tonal := None;
     lowlevel :=
       Some {| mfcc := Some {| mfcc_mean := mean; mfcc_var := None |};
               spectral_centroid := None;
               spectral_flux := None;
               zerocrossingrate := None |} |}.

(** A document that carries [lowlevel.mfcc.mean] and [tonal.chroma_cens]. *)
Definition vector_doc (mean cens : list Qc) : AcousticBrainzFeatures :=
  {| rhythm := None;
     tonal := Some {| chroma_cens := Some cens; key_edma := None |};
     lowlevel :=
       Some {| mfcc := Some {| mfcc_mean := Some mean; mfcc_var := None |};
               spectral_centroid := None;
               spectral_flux := None;
               zerocrossingrate := None |} |}.

Definition long_doc : AcousticBrainzFeatures := vector_doc [q 1; q 2] [q 0; q 5].

Definition bpm_doc (x : Qc) : AcousticBrainzFeatures :=
  {| rhythm := Some {| bpm := Some x; beats_count := None |};
     tonal := None;
     lowlevel := None |}.

Definition found (mbid : string) : FetchResult MusicBrainzResponse :=
  Resolved
    {| status := 200;
       json := Some {| recordings :=
                         Some [ {| recording_id := mbid;
                                   recording_title := "Title";
                                   artist_credit := ["Artist"] |} ] |} |}.

Definition answer (status : Z) : FetchResult MusicBrainzResponse :=
  Resolved {| status := status; json := None |}.

(** The search service answers 429 twice, then finds the recording. *)
Definition busy_world : World :=
  {| musicbrainz := λ n _ _, if (n <? 2)%nat then answer 429 else found "mbid-1";
     acousticbrainz := λ _ _, Resolved {| status := 404; json := None |} |}.

(** Every recording is found and has features: a tempo of 120. *)
Definition rich_world : World :=
  {| musicbrainz := λ _ _ _, found "mbid-1";
     acousticbrainz := λ _ _,
       Resolved {| status := 200; json := Some (bpm_doc (q 120)) |} |}.

(** The search service answers 429 to every request. *)
Definition limited_world : World :=
  {| musicbrainz := λ _ _ _, answer 429;
     acousticbrainz := λ _ _, Rejected AbortError |}.

(** A 429, then a timeout, then a server error: the wait after the first
    attempt follows the 429 schedule, the wait after the second the schedule
    of the [catch] block. *)
Definition flaky_world : World :=
  {| musicbrainz := λ n _ _,
       match n with
       | O => answer 429
       | S O => Rejected AbortError
       | _ => answer 500
       end;
     acousticbrainz := λ _ _, Rejected NetworkError |}.

(** ** Sums and columns *)

(** The sum of a list of numbers. *)
Definition Qc_sum (l : list Qc) : Qc := foldr Qcplus 0 l.

(** Component [i] of every vector of a collection. *)
Definition column (vectors : list (list Qc)) (i : nat) : list Qc :=
  (λ v : list Qc, at_index v i) <$> vectors.

(** ** Pace and cost of a trace *)

(** The milliseconds a trace spends in [delay]. *)
Definition waited (trace : list Event) : Z :=
  foldr (λ ev acc, match ev with Delay ms => (ms + acc)%Z | _ => acc end) 0%Z trace.

(** Every search request of the trace comes right after a wait of
    [RATE_LIMIT_DELAY]. *)
Fixpoint paced (trace : list Event) : bool :=
  match trace with
  | [] => true
  | FetchRecording _ _ :: _ => false
  | Delay ms :: FetchRecording _ _ :: rest =>
      (ms =? RATE_LIMIT_DELAY)%Z && paced rest
  | _ :: rest => paced rest
  end.

(** The requests of a trace that went to the feature service. *)
Definition looked_up (trace : list Event) : list string :=
  omap (λ ev, match ev with FetchFeatures mbid => Some mbid | _ => None end) trace.

(** The documents that the feature service returned in a run whose first
    request has the number [n]: for each request of the trace to the feature
    service, in order, the features of the reply to it, when it has any. *)
Fixpoint recovered (w : World) (n : nat) (trace : list Event)
  : list AcousticBrainzFeatures :=
  match trace with
  | [] => []
  | FetchRecording _ _ :: rest => recovered w (S n) rest
  | FetchFeatures mbid :: rest =>
      match features_of (acousticbrainz w n mbid) with
      | Some features => features :: recovered w (S n) rest
      | None => recovered w (S n) rest
      end
  | _ :: rest => recovered w n rest
  end.

(** ** Storage: well-formedness and samples *)

(** Every song list sits under the key of its own [id], and no key occurs
    twice. *)
Definition songLists_wf (st : MemStorage) : Prop :=
  NoDup (songLists st).*1
  ∧ Forall (λ entry : string * SongList, songlist_id entry.2 = entry.1)
           (songLists st).

(** [{ ...songList, features }]. *)
Definition with_features (songList : SongList) (features : AggregateProfile)
  : SongList :=
  {| songlist_id := songlist_id songList;
     songlist_sessionId := songlist_sessionId songList;
     songlist_songs := songlist_songs songList;
     songlist_features := Some features;
     songlist_createdAt := songlist_createdAt songList |}.

Definition empty_storage : MemStorage :=
  {| sessions := [];
     songLists := [];
     recommendations := [];
     feedback := [];
     playlists := [] |}.

(** A storage with one session and one song list waiting for its features. *)
Definition waiting_storage : MemStorage :=
  {| sessions := [("s1", {| session_id := "s1"; session_createdAt := 1 |})];
     songLists :=
       [("l1", {| songlist_id := "l1";
                  songlist_sessionId := "s1";
                  songlist_songs := [ {| artist := "A"; title := "one" |} ];
                  songlist_features := None;
                  songlist_createdAt := 2 |})];
     recommendations := [];
     feedback := [];
     playlists := [] |}.

(** Every search finds a recording with a non-empty identifier at once, and
    every recording has features. *)
Definition all_found (w : World) : Prop :=
  (∀ (n : nat) (artist title : string),
     ∃ (response : Response MusicBrainzResponse) (data : MusicBrainzResponse)
       (id : string),
       musicbrainz w n artist title = Resolved response
       ∧ ok response = true
       ∧ json response = Some data
       ∧ first_id data = Some id
       ∧ string_truthy id = true)
  ∧ (∀ (n : nat) (mbid : string),
       ∃ (response : Response AcousticBrainzFeatures)
         (features : AcousticBrainzFeatures),
         acousticbrainz w n mbid = Resolved response
         ∧ ok response = true
         ∧ json response = Some features).

(** The search service cannot be reached. *)
Definition down_world : World :=
  {| musicbrainz := λ _ _ _, Rejected NetworkError;
     acousticbrainz := λ _ _, Rejected NetworkError |}.

(** A playlist row of the session for the recommendation. *)
Definition row_of (sessionId recommendationId : string) (item : Playlist) : Prop :=
  playlist_sessionId item = sessionId
  ∧ playlist_recommendationId item = recommendationId.

(** What [updateSongListFeatures] makes of a stored song list: the one with
    the id gets the features, every other list stays. *)
Definition completed_with (id : string) (features : AggregateProfile)
    (songList : SongList) : SongList :=
  if decide (songlist_id songList = id)
  then with_features songList features
  else songList.

Definition sample_recommendation : Recommendation :=
  {| recommendation_id := "r1";
     recommendation_sessionId := "s1";
     recommendation_songListId := "l1";
     recommendation_artist := "Artist";
     recommendation_title := "Title";
     recommendation_sonicMatch := "close timbre";
     recommendation_searchTerm := "Artist Title official audio";
     recommendation_videoId := None;
     recommendation_createdAt := 3 |}.

Definition playlist_row (id : string) (now : Z) : Playlist :=
  {| playlist_id := id;
     playlist_sessionId := "s1";
     playlist_recommendationId := "r1";
     playlist_createdAt := now |}.

(** A storage in which the session has liked the same recommendation
    twice. *)
Definition liked_twice_storage : MemStorage :=
  {| sessions := [("s1", {| session_id := "s1"; session_createdAt := 1 |})];
     songLists := [];
     recommendations := [("r1", sample_recommendation)];
     feedback := [];
     playlists := [("p1", playlist_row "p1" 4); ("p2", playlist_row "p2" 5)] |}.

(** [waiting_storage] once the extraction has recovered [long_doc] for its
    song. *)
Definition completed_storage : MemStorage :=
  (updateSongListFeatures "l1" (aggregateFeatures sample_sqrt [long_doc])
     waiting_storage).2.

(** [toFixed] as far as the rationals hold it: the nearest multiple of
    [10 ^ - digits], the larger one of two that are as near, in decimal
    notation.  It serves the examples. *)
Definition sample_toFixed (x : Qc) (digits : nat) : string :=
  let nearest :=
    ((2 * Z.abs (Qnum (this x)) * 10 ^ Z.of_nat digits + Z.pos (Qden (this x)))
     / (2 * Z.pos (Qden (this x))))%Z in
  let text := pretty (Z.to_N nearest) in
  let text :=
    String.concat EmptyString (replicate (S digits - String.length text)%nat "0")
    +:+ text in
  let whole := (String.length text - digits)%nat in
  (if bool_decide (x < 0) then "-" else EmptyString)
  +:+ String.substring 0 whole text
  +:+ (if (digits =? 0)%nat then EmptyString
       else "." +:+ String.substring whole digits text).

(** A model that is never reached. *)
Definition no_model (features : AggregateProfile) : Generated := GenerateRejected.

(** The recommendation that [POST /api/recommendations] answers and stores
    for the [i]-th recommendation of the model. *)
Definition saved_of (searchVideo : string → option string) (uuid : nat → string)
    (clock : nat → Z) (sessionId songListId : string) (i : nat)
    (rec : GeminiRecommendation) : Recommendation :=
  {| recommendation_id := uuid i;
     recommendation_sessionId := sessionId;
     recommendation_songListId := songListId;
     recommendation_artist := gemini_artist rec;
     recommendation_title := gemini_title rec;
     recommendation_sonicMatch := sonic_match rec;
     recommendation_searchTerm := search_term rec;
     recommendation_videoId := searchVideo (search_term rec);
     recommendation_createdAt := clock i |}.

(** No text of the recommendation is empty. *)
Definition complete (r : Recommendation) : Prop :=
  recommendation_artist r ≠ EmptyString
  ∧ recommendation_title r ≠ EmptyString
  ∧ recommendation_sonicMatch r ≠ EmptyString
  ∧ recommendation_searchTerm r ≠ EmptyString.

(** The model answers two recommendations, the second without a title. *)
Definition sample_model (features : AggregateProfile) (userSongs : list string)
    (feedbackHistory : list FeedbackDatum) : option (list GeminiRecommendation) :=
  Some [ {| gemini_artist := "Artist";
            gemini_title := "Title";
            sonic_match := "close timbre";
            search_term := "Artist Title official audio" |};
         {| gemini_artist := "Other";
            gemini_title := EmptyString;
            sonic_match := "same tempo";
            search_term := "Other official audio" |} ].

(** * Part III: properties *)

(** ** [meanVector]: the accumulation loop and its closed form *)

Lemma foldl_pointwise {A B : Type} (f g : A → B → A) (a : A) (l : list B) :
  (∀ a b, f a b = g a b) → foldl f a l = foldl g a l.
Proof.
  intros Hfg. revert a. induction l as [|b l IH]; intros a; [done|].
  simpl. by rewrite Hfg, IH.
Qed.

Lemma at_index_lookup (a : list Qc) (i : nat) (x : Qc) :
  a !! i = Some x → at_index a i = x.
Proof. unfold at_index. by intros ->. Qed.

Lemma or_zero_default (x : option Qc) : or_zero x = default 0 x.
Proof.
  destruct x as [v|]; [|done]. simpl. unfold truthy.
  case_bool_decide as Hv; [done|]. by rewrite Hv.
Qed.

Section MeanVectorLoop.

Variable vector : list Qc.

Lemma add_loop_length (result : list Qc) (m : nat) :
  length (foldl (add_at vector) result (seq 0 m)) = length result.
Proof.
  induction m as [|m IH]; [done|].
  rewrite seq_S, foldl_app. simpl. unfold add_at at 1.
  by rewrite length_insert.
Qed.

Lemma add_loop_lookup (result : list Qc) (m i : nat) :
  (m ≤ length result)%nat →
  foldl (add_at vector) result (seq 0 m) !! i =
    if decide (i < m)%nat
    then Some (at_index result i + at_index vector i)
    else result !! i.
Proof.
  revert i. induction m as [|m IH]; intros i Hm.
  - done.
  - rewrite seq_S, foldl_app. simpl. unfold add_at at 1.
    set (r := foldl (add_at vector) result (seq 0 m)) in *.
    assert (Hr : at_index r m = at_index result m).
    { unfold at_index. rewrite IH by lia. case_decide; [lia|done]. }
    destruct (decide (i = m)) as [->|Hne].
    + rewrite list_lookup_insert_eq.
      * rewrite Hr. case_decide; [done|lia].
      * subst r. rewrite add_loop_length. lia.
    + rewrite list_lookup_insert_ne by done.
      rewrite IH by lia. repeat case_decide; (done || lia).
Qed.

End MeanVectorLoop.

Lemma add_vector_length (L : nat) (result vector : list Qc) :
  length (add_vector L result vector) = length result.
Proof. apply add_loop_length. Qed.

Lemma add_vector_lookup (L : nat) (result vector : list Qc) (i : nat) :
  length result = L →
  add_vector L result vector !! i =
    if decide (i < L `min` length vector)%nat
    then Some (at_index result i + at_index vector i)
    else result !! i.
Proof. intros HL. unfold add_vector. apply add_loop_lookup. lia. Qed.

Lemma foldl_add_vector_length (L : nat) (vectors : list (list Qc))
    (result : list Qc) :
  length (foldl (add_vector L) result vectors) = length result.
Proof.
  revert result. induction vectors as [|v vs IH]; intros result; [done|].
  simpl. by rewrite IH, add_vector_length.
Qed.

(** After the loop over [vectors], slot [i] holds its initial value plus, in
    order, the [i]-th element of every vector that has one. *)
Lemma foldl_add_vector_lookup (L : nat) (vectors : list (list Qc))
    (result : list Qc) (i : nat) :
  length result = L → (i < L)%nat →
  foldl (add_vector L) result vectors !! i =
    Some (foldl Qcplus (at_index result i) (omap (λ v : list Qc, v !! i) vectors)).
Proof.
  revert result. induction vectors as [|v vs IH]; intros result HL Hi.
  - simpl. unfold at_index.
    destruct (lookup_lt_is_Some_2 result i) as [x ->]; [lia|done].
  - simpl. rewrite IH by (by rewrite ?add_vector_length).
    f_equal. unfold at_index at 1. rewrite add_vector_lookup by done.
    case_decide as Hlt.
    + destruct (lookup_lt_is_Some_2 v i) as [x Hx]; [lia|].
      rewrite Hx. simpl. by rewrite (at_index_lookup v i x).
    + rewrite (lookup_ge_None_2 v i) by lia. done.
Qed.

Lemma meanVector_length (v0 : list Qc) (rest : list (list Qc)) :
  length (meanVector (v0 :: rest)) = length v0.
Proof.
  unfold meanVector. rewrite length_fmap, foldl_add_vector_length.
  apply length_replicate.
Qed.

Lemma meanVector_lookup (v0 : list Qc) (rest : list (list Qc)) (i : nat) :
  meanVector (v0 :: rest) !! i =
    if decide (i < length v0)%nat
    then Some (sum_at (v0 :: rest) i / of_nat (length (v0 :: rest)))
    else None.
Proof.
  case_decide as Hi.
  - unfold meanVector. rewrite list_lookup_fmap.
    rewrite (foldl_add_vector_lookup (length v0)); [|apply length_replicate|done].
    simpl. do 3 f_equal. unfold at_index.
    by rewrite lookup_replicate_2.
  - apply lookup_ge_None_2. rewrite meanVector_length. lia.
Qed.

(** C4.  [meanVector] of the empty collection is the empty vector; of a
    non-empty collection it is a vector as long as the FIRST vector, whose
    entry at each index is the sum of the elements that the vectors have at
    that index (a vector too short for the index is skipped) divided by the
    number of ALL vectors. *)
Theorem meanVector_spec :
  meanVector [] = [] ∧
  ∀ (v0 : list Qc) (rest : list (list Qc)),
    length (meanVector (v0 :: rest)) = length v0 ∧
    ∀ i : nat,
      meanVector (v0 :: rest) !! i =
        if decide (i < length v0)%nat
        then Some (foldl Qcplus 0 (omap (λ v : list Qc, v !! i) (v0 :: rest))
                   / of_nat (length (v0 :: rest)))
        else None.
Proof.
  split; [done|]. intros v0 rest. split.
  - apply meanVector_length.
  - intros i. apply meanVector_lookup.
Qed.

(** ** [varianceMatrix]: the accumulation loops and their closed form *)

Lemma square_replicate (L : nat) : square L (replicate L (replicate L 0)).
Proof.
  split; [apply length_replicate|].
  apply Forall_replicate, length_replicate.
Qed.

Lemma square_row (L : nat) (matrix : list (list Qc)) (i : nat) (row : list Qc) :
  square L matrix → matrix !! i = Some row → length row = L.
Proof.
  intros [_ Hrows] Hi. rewrite Forall_lookup in Hrows. by eapply Hrows.
Qed.

Lemma square_entry (L : nat) (matrix : list (list Qc)) (i j : nat) :
  square L matrix →
  entry matrix i j =
    if decide (i < L ∧ j < L)%nat then Some (cell matrix i j) else None.
Proof.
  intros Hsq. unfold cell, entry.
  destruct (matrix !! i) as [row|] eqn:Hi.
  - pose proof (square_row _ _ _ _ Hsq Hi) as Hrow.
    apply lookup_lt_Some in Hi. destruct Hsq as [Hlen _].
    case_decide as Hij.
    + destruct (lookup_lt_is_Some_2 row j) as [x ->]; [lia|done].
    + apply lookup_ge_None_2. lia.
  - apply lookup_ge_None_1 in Hi. destruct Hsq as [Hlen _].
    case_decide; [lia|done].
Qed.

Lemma matrix_add_square (L : nat) (matrix : list (list Qc)) (i j : nat) (d : Qc) :
  square L matrix → square L (matrix_add matrix i j d).
Proof.
  intros Hsq. unfold matrix_add.
  destruct (matrix !! i) as [row|] eqn:Hi; [|done].
  pose proof (square_row _ _ _ _ Hsq Hi) as Hrow.
  destruct Hsq as [Hlen Hrows]. split.
  - by rewrite length_insert.
  - apply Forall_insert; [done|]. by rewrite length_insert.
Qed.

Lemma matrix_add_cell (L : nat) (matrix : list (list Qc)) (i j : nat) (d : Qc)
    (i' j' : nat) :
  square L matrix → (i < L)%nat → (j < L)%nat →
  cell (matrix_add matrix i j d) i' j' =
    if decide (i' = i ∧ j' = j) then cell matrix i j + d else cell matrix i' j'.
Proof.
  intros Hsq Hi Hj. unfold matrix_add.
  destruct (lookup_lt_is_Some_2 matrix i) as [row Hrow];
    [destruct Hsq; lia|].
  pose proof (square_row _ _ _ _ Hsq Hrow) as Hlen.
  rewrite Hrow. unfold cell, entry.
  destruct (decide (i' = i)) as [->|Hne].
  - rewrite list_lookup_insert_eq by (destruct Hsq; lia). rewrite Hrow.
    destruct (decide (j' = j)) as [->|Hnej].
    + rewrite list_lookup_insert_eq by lia.
      case_decide as Hc; [done|]. by destruct Hc.
    + rewrite list_lookup_insert_ne by done.
      case_decide as Hc; [|done]. by destruct Hc.
  - rewrite list_lookup_insert_ne by done.
    case_decide as Hc; [|done]. by destruct Hc.
Qed.

Section VarianceLoops.

Variables (meanVec vector : list Qc) (L : nat).

Lemma add_row_square (matrix : list (list Qc)) (i n : nat) :
  square L matrix → square L (add_row meanVec vector n matrix i).
Proof.
  intros Hsq. unfold add_row. induction n as [|n IH]; [done|].
  rewrite seq_S, foldl_app. simpl. by apply matrix_add_square.
Qed.

Lemma add_row_cell (matrix : list (list Qc)) (i n i' j' : nat) :
  square L matrix → (i < L)%nat → (n ≤ L)%nat →
  cell (add_row meanVec vector n matrix i) i' j' =
    if decide (i' = i ∧ j' < n)%nat
    then cell matrix i' j' + diff_prod meanVec vector i' j'
    else cell matrix i' j'.
Proof.
  intros Hsq Hi. revert i' j'. induction n as [|n IH]; intros i' j' Hn.
  - simpl. case_decide as Hc; [lia|done].
  - unfold add_row. rewrite seq_S, foldl_app. simpl.
    fold (add_row meanVec vector n matrix i).
    rewrite (matrix_add_cell L) by (done || lia || by apply add_row_square).
    rewrite !IH by lia.
    repeat case_decide; try done; try lia.
    destruct_and!. by subst.
Qed.

Lemma add_outer_prefix_square (matrix : list (list Qc)) (n : nat) :
  square L matrix →
  square L (foldl (add_row meanVec vector L) matrix (seq 0 n)).
Proof.
  intros Hsq. induction n as [|n IH]; [done|].
  rewrite seq_S, foldl_app. simpl. by apply add_row_square.
Qed.

Lemma add_outer_prefix_cell (matrix : list (list Qc)) (n i' j' : nat) :
  square L matrix → (n ≤ L)%nat →
  cell (foldl (add_row meanVec vector L) matrix (seq 0 n)) i' j' =
    if decide (i' < n ∧ j' < L)%nat
    then cell matrix i' j' + diff_prod meanVec vector i' j'
    else cell matrix i' j'.
Proof.
  intros Hsq. revert i' j'. induction n as [|n IH]; intros i' j' Hn.
  - case_decide as Hc; [lia|done].
  - rewrite seq_S, foldl_app. simpl.
    rewrite add_row_cell by (lia || by apply add_outer_prefix_square).
    rewrite !IH by lia.
    repeat case_decide; try done; try lia.
Qed.

Lemma add_outer_square (matrix : list (list Qc)) :
  square L matrix → square L (add_outer meanVec L matrix vector).
Proof. apply add_outer_prefix_square. Qed.

Lemma add_outer_cell (matrix : list (list Qc)) (i j : nat) :
  square L matrix → (i < L)%nat → (j < L)%nat →
  cell (add_outer meanVec L matrix vector) i j =
    cell matrix i j + diff_prod meanVec vector i j.
Proof.
  intros Hsq Hi Hj. unfold add_outer.
  change (cell (foldl (add_row meanVec vector L) matrix (seq 0 L)) i j
          = cell matrix i j + diff_prod meanVec vector i j).
  rewrite add_outer_prefix_cell by (done || lia).
  case_decide; [done|lia].
Qed.

End VarianceLoops.

Lemma foldl_add_outer_square (meanVec : list Qc) (L : nat)
    (vectors : list (list Qc)) (matrix : list (list Qc)) :
  square L matrix → square L (foldl (add_outer meanVec L) matrix vectors).
Proof.
  revert matrix. induction vectors as [|v vs IH]; intros matrix Hsq; [done|].
  simpl. by apply IH, add_outer_square.
Qed.

(** After the loop over [vectors], [matrix[i][j]] holds its initial value
    plus, in order, the product of differences of every vector. *)
Lemma foldl_add_outer_cell (meanVec : list Qc) (L : nat)
    (vectors : list (list Qc)) (matrix : list (list Qc)) (i j : nat) :
  square L matrix → (i < L)%nat → (j < L)%nat →
  cell (foldl (add_outer meanVec L) matrix vectors) i j =
    foldl (λ sum v, sum + diff_prod meanVec v i j) (cell matrix i j) vectors.
Proof.
  revert matrix. induction vectors as [|v vs IH]; intros matrix Hsq Hi Hj; [done|].
  simpl. rewrite IH by (done || by apply add_outer_square).
  by rewrite add_outer_cell.
Qed.

Lemma entry_fmap (f : Qc → Qc) (matrix : list (list Qc)) (i j : nat) :
  entry ((λ row : list Qc, f <$> row) <$> matrix) i j = f <$> entry matrix i j.
Proof.
  unfold entry. rewrite list_lookup_fmap.
  destruct (matrix !! i) as [row|]; [|done]. simpl. apply list_lookup_fmap.
Qed.

Lemma square_fmap (f : Qc → Qc) (L : nat) (matrix : list (list Qc)) :
  square L matrix → square L ((λ row : list Qc, f <$> row) <$> matrix).
Proof.
  intros [Hlen Hrows]. split; [by rewrite length_fmap|].
  apply Forall_fmap. eapply Forall_impl; [exact Hrows|].
  intros row Hrow. simpl. by rewrite length_fmap.
Qed.

Lemma cell_replicate (L i j : nat) : cell (replicate L (replicate L 0)) i j = 0.
Proof.
  unfold cell. rewrite (square_entry L) by apply square_replicate.
  case_decide as Hij; [|done]. simpl. unfold cell, entry.
  rewrite lookup_replicate_2 by lia. by rewrite lookup_replicate_2 by lia.
Qed.

Lemma varianceMatrix_square (v0 : list Qc) (rest : list (list Qc)) :
  square (length (meanVector (v0 :: rest))) (varianceMatrix (v0 :: rest)).
Proof.
  unfold varianceMatrix.
  apply square_fmap, foldl_add_outer_square, square_replicate.
Qed.

Lemma varianceMatrix_entry (v0 : list Qc) (rest : list (list Qc)) (i j : nat) :
  entry (varianceMatrix (v0 :: rest)) i j =
    if decide (i < length (meanVector (v0 :: rest))
               ∧ j < length (meanVector (v0 :: rest)))%nat
    then Some (cov_sum (meanVector (v0 :: rest)) (v0 :: rest) i j
               / of_nat (length (v0 :: rest)))
    else None.
Proof.
  set (vs := v0 :: rest). set (m := meanVector vs). set (N := length m).
  unfold vs at 1. unfold varianceMatrix. cbv zeta. fold vs m N.
  rewrite entry_fmap.
  rewrite (square_entry N)
    by apply foldl_add_outer_square, square_replicate.
  case_decide as Hij; [|done]. destruct Hij as [Hi Hj].
  rewrite foldl_add_outer_cell by (done || apply square_replicate).
  rewrite cell_replicate. unfold cov_sum.
  match goal with
  | |- _ <$> Some ?a = Some (?b / _) => assert (a = b) as ->; [|done]
  end.
  apply foldl_pointwise. intros sum v.
  unfold diff_prod. by rewrite !or_zero_default.
Qed.

(** C5.  [varianceMatrix] of a non-empty collection is an N×N matrix, N the
    length of [meanVector] of the collection, whose entry [i], [j] is the sum
    over all the vectors of [(v[i] - mean[i]) * (v[j] - mean[j])], a missing
    [v[i]] or [v[j]] taken as [0], divided by the number of vectors. *)
Theorem varianceMatrix_spec (v0 : list Qc) (rest : list (list Qc)) :
  length (varianceMatrix (v0 :: rest)) = length (meanVector (v0 :: rest))
  ∧ Forall (λ row : list Qc, length row = length (meanVector (v0 :: rest)))
           (varianceMatrix (v0 :: rest))
  ∧ ∀ i j : nat,
      entry (varianceMatrix (v0 :: rest)) i j =
        if decide (i < length (meanVector (v0 :: rest))
                   ∧ j < length (meanVector (v0 :: rest)))%nat
        then Some
          (foldl (λ sum v : _,
              sum + (default 0 (v !! i) - default 0 (meanVector (v0 :: rest) !! i))
                    * (default 0 (v !! j) - default 0 (meanVector (v0 :: rest) !! j)))
             0 (v0 :: rest)
           / of_nat (length (v0 :: rest)))
        else None.
Proof.
  destruct (varianceMatrix_square v0 rest) as [Hlen Hrows].
  split; [done|]. split; [done|].
  intros i j. apply varianceMatrix_entry.
Qed.

(** ** [getDominantPitches]: the stable descending sort *)

Lemma precedes_val_le (x y : Indexed) : precedes x y → val y ≤ val x.
Proof.
  intros [Hlt|[Heq _]]; [by apply Qclt_le_weak|]. rewrite Heq. apply Qcle_refl.
Qed.

Lemma precedes_asym (x y : Indexed) : precedes x y → precedes y x → False.
Proof.
  intros [H1|[H1 H1']] [H2|[H2 H2']].
  - by apply (Qclt_not_le _ _ H1), Qclt_le_weak.
  - rewrite H2 in H1. by apply (Qclt_not_le _ _ H1), Qcle_refl.
  - rewrite H1 in H2. by apply (Qclt_not_le _ _ H2), Qcle_refl.
  - lia.
Qed.

Global Instance precedes_antisym : AntiSymm (=) precedes.
Proof. intros x y Hxy Hyx. by destruct (precedes_asym x y). Qed.

Lemma insert_desc_perm (x : Indexed) (l : list Indexed) :
  insert_desc x l ≡ₚ x :: l.
Proof.
  induction l as [|y l IH]; [done|]. simpl.
  case_decide; [done|]. by rewrite IH, Permutation_swap.
Qed.

Lemma sort_desc_perm (l : list Indexed) : sort_desc l ≡ₚ l.
Proof.
  induction l as [|x l IH]; [done|].
  unfold sort_desc in *. simpl. by rewrite insert_desc_perm, IH.
Qed.

Lemma insert_desc_sorted (x : Indexed) (l : list Indexed) :
  StronglySorted precedes l →
  Forall (λ y, idx x < idx y)%nat l →
  StronglySorted precedes (insert_desc x l).
Proof.
  induction 1 as [|y l Hl IH Hy]; intros Hidx.
  - repeat constructor.
  - apply Forall_cons in Hidx as [Hxy Hidx]. simpl.
    case_decide as Hle.
    + constructor; [by constructor|].
      constructor.
      * apply Qcle_lt_or_eq in Hle as [Hlt|Heq]; [by left|by right].
      * rewrite Forall_forall in Hy, Hidx |- *. intros z Hz.
        pose proof (precedes_val_le _ _ (Hy z Hz)) as Hzy.
        destruct (Qcle_lt_or_eq _ _ (Qcle_trans _ _ _ Hzy Hle)) as [Hlt|Heq];
          [by left|right; split; [done|by apply Hidx]].
    + apply Qcnot_le_lt in Hle.
      constructor; [by apply IH|].
      rewrite insert_desc_perm. constructor; [by left|done].
Qed.

Lemma sort_desc_sorted (l : list Indexed) :
  StronglySorted (λ x y, idx x < idx y)%nat l →
  StronglySorted precedes (sort_desc l).
Proof.
  induction 1 as [|x l Hl IH Hx]; [constructor|].
  unfold sort_desc in *. simpl. apply insert_desc_sorted; [done|].
  fold (sort_desc l). by rewrite sort_desc_perm.
Qed.

(** The result does not depend on the sorting algorithm: every arrangement
    of the list that is sorted by [precedes] is the one computed here. *)
Lemma sort_desc_unique (l l' : list Indexed) :
  StronglySorted (λ x y, idx x < idx y)%nat l →
  l' ≡ₚ l → StronglySorted precedes l' → l' = sort_desc l.
Proof.
  intros Hl Hperm Hsorted.
  apply (StronglySorted_unique precedes); [done|by apply sort_desc_sorted|].
  by rewrite sort_desc_perm.
Qed.

Lemma indexed_of_seq (avgChroma : list Qc) :
  indexed_of avgChroma =
    (λ i, {| val := at_index avgChroma i; idx := i |}) <$> seq 0 (length avgChroma).
Proof.
  apply list_eq. intros i. unfold indexed_of.
  rewrite list_lookup_imap, list_lookup_fmap.
  destruct (avgChroma !! i) as [x|] eqn:Hi.
  - rewrite lookup_seq_lt by (by eapply lookup_lt_Some). simpl.
    by rewrite (at_index_lookup _ _ _ Hi).
  - rewrite lookup_seq_ge by (by apply lookup_ge_None_1). done.
Qed.

Lemma indexed_of_idx (avgChroma : list Qc) :
  idx <$> indexed_of avgChroma = seq 0 (length avgChroma).
Proof.
  rewrite indexed_of_seq, <-list_fmap_compose.
  rewrite <-(list_fmap_id (seq 0 _)) at 2. by apply list_fmap_ext.
Qed.

Lemma indexed_of_val (avgChroma : list Qc) :
  Forall (λ x, val x = at_index avgChroma (idx x)) (indexed_of avgChroma).
Proof. rewrite indexed_of_seq. by apply Forall_fmap, Forall_true. Qed.

Lemma seq_increasing (j n : nat) : StronglySorted lt (seq j n).
Proof.
  revert j. induction n as [|n IH]; intros j; [constructor|].
  simpl. constructor; [apply IH|].
  apply Forall_forall. intros k Hk. apply elem_of_seq in Hk. lia.
Qed.

Lemma indexed_of_increasing (avgChroma : list Qc) :
  StronglySorted (λ x y, idx x < idx y)%nat (indexed_of avgChroma).
Proof.
  rewrite indexed_of_seq.
  apply (StronglySorted_fmap _ lt); [done|apply seq_increasing].
Qed.

Lemma StronglySorted_fmap_elem_of {A B : Type} (f : A → B)
    (R1 : relation A) (R2 : relation B) (P : A → Prop) (l : list A) :
  (∀ x y, P x → P y → R1 x y → R2 (f x) (f y)) →
  Forall P l → StronglySorted R1 l → StronglySorted R2 (f <$> l).
Proof.
  intros HR HP Hl. induction Hl as [|x l Hl IH Hx]; [constructor|].
  apply Forall_cons in HP as [HPx HP]. csimpl. constructor; [by apply IH|].
  rewrite Forall_fmap. rewrite Forall_forall in Hx, HP |- *.
  intros y Hy. apply HR; auto.
Qed.

Lemma pitch_order_perm (avgChroma : list Qc) :
  pitch_order avgChroma ≡ₚ seq 0 (length avgChroma).
Proof.
  unfold pitch_order. by rewrite sort_desc_perm, indexed_of_idx.
Qed.

Lemma pitch_order_sorted (avgChroma : list Qc) :
  StronglySorted
    (λ a b : nat,
       default 0 (avgChroma !! b) < default 0 (avgChroma !! a)
       ∨ (default 0 (avgChroma !! a) = default 0 (avgChroma !! b) ∧ (a < b)%nat))
    (pitch_order avgChroma).
Proof.
  unfold pitch_order.
  apply (StronglySorted_fmap_elem_of idx precedes _
           (λ x, val x = at_index avgChroma (idx x))).
  - intros x y Hx Hy. unfold precedes, at_index in *. by rewrite Hx, Hy.
  - rewrite sort_desc_perm. apply indexed_of_val.
  - apply sort_desc_sorted, indexed_of_increasing.
Qed.

Lemma getDominantPitches_order (v0 : list Qc) (rest : list (list Qc)) :
  getDominantPitches (v0 :: rest) = take 3 (pitch_order (meanVector (v0 :: rest))).
Proof. unfold getDominantPitches, pitch_order. by rewrite fmap_take. Qed.

(** C7.  For a non-empty collection, [getDominantPitches] returns the first
    three entries of an arrangement of all the indices of the mean vector
    that is sorted by descending mean value, equal values in ascending index
    order; when the mean vector has fewer than three entries these are all
    its indices.  The chroma vectors [1,0,0,...] and [0,1,0,...] give
    [0, 1, 2]. *)
Theorem getDominantPitches_spec :
  (∀ (v0 : list Qc) (rest : list (list Qc)),
     ∃ order : list nat,
       order ≡ₚ seq 0 (length (meanVector (v0 :: rest)))
       ∧ StronglySorted
           (λ a b : nat,
              default 0 (meanVector (v0 :: rest) !! b)
                < default 0 (meanVector (v0 :: rest) !! a)
              ∨ (default 0 (meanVector (v0 :: rest) !! a)
                   = default 0 (meanVector (v0 :: rest) !! b)
                 ∧ (a < b)%nat))
           order
       ∧ getDominantPitches (v0 :: rest) = take 3 order
       ∧ length (getDominantPitches (v0 :: rest))
           = (3 `min` length (meanVector (v0 :: rest)))%nat
       ∧ ((length (meanVector (v0 :: rest)) < 3)%nat →
          getDominantPitches (v0 :: rest) = order))
  ∧ getDominantPitches [chroma_c; chroma_c_sharp] = [0; 1; 2]%nat.
Proof.
  split; [|by vm_compute].
  intros v0 rest. exists (pitch_order (meanVector (v0 :: rest))).
  pose proof (pitch_order_perm (meanVector (v0 :: rest))) as Hperm.
  assert (Hlen : length (pitch_order (meanVector (v0 :: rest)))
                 = length (meanVector (v0 :: rest))).
  { by rewrite Hperm, length_seq. }
  split; [done|]. split; [apply pitch_order_sorted|].
  split; [apply getDominantPitches_order|].
  rewrite getDominantPitches_order. split.
  - rewrite length_take. lia.
  - intros Hshort. apply take_ge. lia.
Qed.

(** ** [searchRecording]: attempts, waits and exhaustion *)

Lemma search_attempt_run (w : World) (artist title : string) (attempt n : nat) :
  search_attempt w artist title attempt n =
    match musicbrainz w n artist title with
    | Rejected _ => caught artist title attempt n
    | Resolved response =>
        if ok response then
          match json response with
          | Some data =>
              (Returned (Return (first_id data)),
               [Delay RATE_LIMIT_DELAY; FetchRecording artist title], S n)
          | None => caught artist title attempt n
          end
        else if (status response =? 429)%Z && (attempt <? maxRetries)%nat then
          (Returned Continue,
           [Delay RATE_LIMIT_DELAY; FetchRecording artist title; ConsoleLog;
            Delay (waitTime attempt)], S n)
        else caught artist title attempt n
    end.
Proof.
  unfold search_attempt, try_catch, caught, first_id.
  unfold mbind, Async_bind, async_bind, fetch_recording, delay, emit.
  destruct (musicbrainz w n artist title) as [e|response]; simpl.
  - by destruct (attempt =? maxRetries)%nat.
  - destruct (ok response); simpl.
    + unfold response_json. destruct (json response) as [data|]; simpl.
      * by destruct (recordings data) as [[|r rs]|].
      * by destruct (attempt =? maxRetries)%nat.
    + destruct ((status response =? 429)%Z && (attempt <? maxRetries)%nat);
        simpl; [done|].
      by destruct (attempt =? maxRetries)%nat.
Qed.

(** One turn of the loop never throws and issues exactly one request. *)
Lemma search_attempt_total (w : World) (artist title : string) (attempt n : nat) :
  ∃ step trace,
    search_attempt w artist title attempt n = (Returned step, trace, S n)
    ∧ fetches trace = 1%nat
    ∧ Forall (λ ev, is_fetch ev = true → ev = FetchRecording artist title) trace.
Proof.
  rewrite search_attempt_run. unfold caught.
  repeat case_match; eexists _, _; (split; [reflexivity|]);
    (split; [done|]); repeat constructor; done.
Qed.

Lemma fetches_app (t1 t2 : list Event) :
  fetches (t1 ++ t2) = (fetches t1 + fetches t2)%nat.
Proof. unfold fetches. by rewrite filter_app, length_app. Qed.

Lemma search_loop_total (w : World) (artist title : string)
    (remaining attempt n : nat) :
  ∃ result trace k,
    search_loop w artist title remaining attempt n = (Returned result, trace, (n + k)%nat)
    ∧ (k ≤ remaining)%nat
    ∧ fetches trace = k
    ∧ Forall (λ ev, is_fetch ev = true → ev = FetchRecording artist title) trace.
Proof.
  revert attempt n. induction remaining as [|remaining IH]; intros attempt n.
  - exists None, [], 0%nat. simpl. rewrite Nat.add_0_r. repeat split; done.
  - destruct (search_attempt_total w artist title attempt n)
      as (step & t1 & Hrun & Hf1 & Hev1).
    simpl. unfold mbind, Async_bind, async_bind at 1. rewrite Hrun.
    destruct step as [|result].
    + destruct (IH (S attempt) (S n)) as (result & t2 & k & Hrest & Hk & Hf2 & Hev2).
      rewrite Hrest. exists result, (t1 ++ t2), (S k).
      replace (n + S k)%nat with (S n + k)%nat by lia.
      repeat split; [lia| |by apply Forall_app].
      rewrite fetches_app. lia.
    + exists result, (t1 ++ []), 1%nat. simpl.
      replace (n + 1)%nat with (S n) by lia. rewrite app_nil_r.
      repeat split; [lia|done|done].
Qed.

(** When every reply fails, the loop uses all its turns and returns [null]. *)
Lemma search_loop_exhausted (w : World) (artist title : string)
    (remaining attempt n : nat) :
  (attempt + remaining = S maxRetries)%nat →
  (∀ i, (i < remaining)%nat → failed (musicbrainz w (n + i) artist title) = true) →
  ∃ trace,
    search_loop w artist title remaining attempt n = (Returned None, trace, (n + remaining)%nat)
    ∧ fetches trace = remaining.
Proof.
  revert attempt n. induction remaining as [|remaining IH]; intros attempt n Hinv Hfail.
  - exists []. simpl. by rewrite Nat.add_0_r.
  - simpl. unfold mbind, Async_bind, async_bind at 1.
    rewrite search_attempt_run.
    pose proof (Hfail 0%nat ltac:(lia)) as H0. rewrite Nat.add_0_r in H0.
    assert (Hnext : ∀ t1, fetches t1 = 1%nat →
      ∃ trace,
        match search_loop w artist title remaining (S attempt) (S n) with
        | (o, t', n'') => (o, t1 ++ t', n'')
        end = (Returned None, trace, (n + S remaining)%nat)
        ∧ fetches trace = S remaining).
    { intros t1 Ht1.
      destruct (IH (S attempt) (S n)) as (t2 & Hrest & Hf2); [lia| |].
      - intros i Hi. replace (S n + i)%nat with (n + S i)%nat by lia.
        apply Hfail. lia.
      - rewrite Hrest. exists (t1 ++ t2).
        replace (S n + remaining)%nat with (n + S remaining)%nat by lia.
        split; [done|]. rewrite fetches_app. lia. }
    assert (Hcaught : ∃ trace,
      match caught artist title attempt n with
      | (Returned a, t, n') =>
          match
            match a with
            | Continue => search_loop w artist title remaining (S attempt)
            | Return result => mret result
            end n'
          with
          | (o, t', n'') => (o, t ++ t', n'')
          end
      | (Thrown e, t, n') => (Thrown e, t, n')
      end = (Returned None, trace, (n + S remaining)%nat)
      ∧ fetches trace = S remaining).
    { unfold caught. destruct (attempt =? maxRetries)%nat eqn:Hlast.
      - apply Nat.eqb_eq in Hlast. assert (remaining = 0%nat) as -> by lia.
        eexists. simpl. replace (n + 1)%nat with (S n) by lia. done.
      - by apply Hnext. }
    destruct (musicbrainz w n artist title) as [e|response]; [done|].
    simpl in H0. destruct (ok response); simpl in H0.
    + destruct (json response) as [data|]; [|done].
      by case_bool_decide.
    + destruct ((status response =? 429)%Z && (attempt <? maxRetries)%nat);
        [by apply Hnext|done].
Qed.

Lemma search_loop_step (w : World) (artist title : string)
    (remaining attempt n : nat) :
  search_loop w artist title (S remaining) attempt n =
    match search_attempt w artist title attempt n with
    | (Returned Continue, t1, n1) =>
        match search_loop w artist title remaining (S attempt) n1 with
        | (o, t2, n2) => (o, t1 ++ t2, n2)
        end
    | (Returned (Return result), t1, n1) => (Returned result, t1 ++ [], n1)
    | (Thrown e, t1, n1) => (Thrown e, t1, n1)
    end.
Proof.
  simpl. unfold mbind, Async_bind, async_bind at 1.
  destruct (search_attempt w artist title attempt n) as [[[[|result]|e] t1] n1];
    done.
Qed.

#[local] Arguments search_loop : simpl never.






(** [searchRecording] never throws and issues between one and [maxRetries]
    requests, all of them for the song it was given. *)
Lemma searchRecording_total (w : World) (artist title : string) (n : nat) :
  ∃ result trace k,
    searchRecording w artist title n = (Returned result, trace, (n + k)%nat)
    ∧ (1 ≤ k ≤ maxRetries)%nat
    ∧ fetches trace = k
    ∧ Forall (λ ev, is_fetch ev = true → ev = FetchRecording artist title) trace.
Proof.
  unfold searchRecording.
  destruct (search_loop_total w artist title maxRetries 1 n)
    as (result & trace & k & Hrun & Hk & Hf & Hev).
  exists result, trace, k. repeat split; try done.
  destruct k as [|k]; [|lia].
  exfalso. revert Hrun Hf. unfold maxRetries. rewrite search_loop_step.
  destruct (search_attempt_total w artist title 1 n)
    as (step & t1 & Hs & Hf1 & _).
  rewrite Hs. destruct step as [|r].
  - destruct (search_loop w artist title 2 2 (S n)) as [[o t2] n2].
    intros [= _ <- _]. rewrite fetches_app. lia.
  - intros [= _ <- _]. rewrite fetches_app. lia.
Qed.







(** ** [searchRecording]: the definitive miss *)

(** C9.  When the search answers with a 2xx status and a body holding no
    recording, [searchRecording] returns [null] at once: one pre-call delay,
    one request, no retry and no backoff wait. *)
Theorem searchRecording_no_match (w : World) (artist title : string) (n : nat)
    (response : Response MusicBrainzResponse) (data : MusicBrainzResponse) :
  musicbrainz w n artist title = Resolved response →
  ok response = true →
  json response = Some data →
  default [] (recordings data) = [] →
  searchRecording w artist title n
    = (Returned None, [Delay RATE_LIMIT_DELAY; FetchRecording artist title], S n).
Proof.
  intros Hreply Hok Hjson Hnone.
  unfold searchRecording, maxRetries.
  rewrite search_loop_step, search_attempt_run, Hreply, Hok, Hjson.
  unfold first_id. by destruct (recordings data) as [[|r rs]|].
Qed.

Lemma searchRecording_no_match_witness :
  searchRecording silent_world "Artist" "Title" 0%nat
    = (Returned None, [Delay 1000; FetchRecording "Artist" "Title"], 1%nat).
Proof.
  apply (searchRecording_no_match silent_world "Artist" "Title" 0%nat
           {| status := 200; json := Some {| recordings := Some [] |} |}
           {| recordings := Some [] |});
    reflexivity.
Defined.

(** ** [getAudioFeatures]: one request *)

Lemma getAudioFeatures_run (w : World) (mbid : string) (n : nat) :
  getAudioFeatures w mbid n =
    (Returned (features_of (acousticbrainz w n mbid)),
     FetchFeatures mbid
       :: (if features_caught (acousticbrainz w n mbid) then [ConsoleError] else []),
     S n).
Proof.
  unfold getAudioFeatures, try_catch, features_of, features_caught.
  unfold mbind, Async_bind, async_bind, fetch_features, emit.
  destruct (acousticbrainz w n mbid) as [e|response]; simpl; [done|].
  destruct (ok response); simpl.
  - unfold response_json. by destruct (json response) as [f|].
  - by destruct (status response =? 404)%Z.
Qed.

(** C8.  [getAudioFeatures] issues exactly one request whatever the reply and
    never throws; a 404 gives [null] without passing through the [catch]
    block; a rejected [fetch] (the 10 s abort included), any other status
    outside 2xx and a body that does not parse give [null] too. *)
Theorem getAudioFeatures_single_attempt :
  (∀ (w : World) (mbid : string) (n : nat),
     ∃ result trace,
       getAudioFeatures w mbid n = (Returned result, trace, S n)
       ∧ fetches trace = 1%nat
       ∧ (failed (acousticbrainz w n mbid) = true → result = None))
  ∧ (∀ (w : World) (mbid : string) (n : nat)
       (response : Response AcousticBrainzFeatures),
       acousticbrainz w n mbid = Resolved response →
       status response = 404%Z →
       getAudioFeatures w mbid n = (Returned None, [FetchFeatures mbid], S n))
  ∧ (∀ (w : World) (mbid : string) (n : nat),
       acousticbrainz w n mbid = Rejected AbortError →
       getAudioFeatures w mbid n
         = (Returned None, [FetchFeatures mbid; ConsoleError], S n)).
Proof.
  split; [|split].
  - intros w mbid n. rewrite getAudioFeatures_run.
    eexists _, _. split; [done|]. split.
    + unfold fetches. simpl. by destruct (features_caught _).
    + unfold failed, features_of.
      destruct (acousticbrainz w n mbid) as [e|response]; [done|].
      destruct (ok response); [|done]. simpl.
      case_bool_decide; [done|]. intros; discriminate.
  - intros w mbid n response Hreply Hstatus.
    rewrite getAudioFeatures_run, Hreply. unfold features_of, features_caught, ok.
    by rewrite Hstatus.
  - intros w mbid n Hreply. by rewrite getAudioFeatures_run, Hreply.
Qed.

(** ** [extractFeaturesFromSongs]: the batch *)

Lemma searched_app (t1 t2 : list Event) :
  searched (t1 ++ t2) = searched t1 ++ searched t2.
Proof. unfold searched. apply omap_app. Qed.

Lemma searched_replicate (song : Song) (trace : list Event) :
  Forall (λ ev, is_fetch ev = true
                → ev = FetchRecording (artist song) (title song)) trace →
  searched trace = replicate (fetches trace) song.
Proof.
  induction 1 as [|ev trace Hev Hall IH]; [done|].
  unfold fetches in *. destruct ev; simpl; try done.
  - specialize (Hev eq_refl). injection Hev as -> ->.
    rewrite IH. by destruct song.
  - specialize (Hev eq_refl). discriminate.
Qed.

Lemma searched_one_song (song : Song) (trace : list Event) :
  Forall (λ ev, is_fetch ev = true
                → ev = FetchRecording (artist song) (title song)) trace →
  (1 ≤ fetches trace)%nat →
  ∃ k, searched trace = replicate (S k) song.
Proof.
  intros Hall Hf. rewrite (searched_replicate song) by done.
  exists (fetches trace - 1)%nat. f_equal. lia.
Qed.

(** One turn of the loop over the songs: it never throws, counts the song,
    keeps or extends the accumulator, and sends every search request, at
    least one, for this song. *)
Lemma process_song_total (w : World) (b : Batch) (song : Song) (n : nat) :
  ∃ b' trace n',
    process_song w b song n = (Returned b', trace, n')
    ∧ count b' = S (count b)
    ∧ (∃ k, searched trace = replicate (S k) song).
Proof.
  unfold process_song.
  destruct (searchRecording_total w (artist song) (title song) n)
    as (mbid & t1 & k & Hrun & Hk & Hf & Hev).
  unfold mbind, Async_bind, async_bind. rewrite Hrun.
  assert (Hs1 : ∃ k, searched t1 = replicate (S k) song).
  { apply searched_one_song; [done|lia]. }
  destruct Hs1 as [k1 Hk1].
  destruct mbid as [mbid|]; [destruct (string_truthy mbid)|].
  - rewrite getAudioFeatures_run.
    destruct (features_of _) as [f|]; simpl;
      eexists _, _, _; (split; [reflexivity|]); (split; [done|]);
      exists k1; rewrite !searched_app, Hk1;
      destruct (features_caught _); simpl; by rewrite app_nil_r.
  - simpl. eexists _, _, _. split; [reflexivity|]. split; [done|].
    exists k1. rewrite !searched_app, Hk1. simpl. by rewrite app_nil_r.
  - simpl. eexists _, _, _. split; [reflexivity|]. split; [done|].
    exists k1. rewrite !searched_app, Hk1. simpl. by rewrite app_nil_r.
Qed.

Lemma for_each_process_song (w : World) (songs : list Song) (b : Batch) (n : nat) :
  ∃ b' trace n',
    for_each (process_song w) songs b n = (Returned b', trace, n')
    ∧ count b' = (count b + length songs)%nat
    ∧ repeats songs (searched trace).
Proof.
  revert b n. induction songs as [|song songs IH]; intros b n.
  - exists b, [], n. simpl. rewrite Nat.add_0_r. repeat split. constructor.
  - destruct (process_song_total w b song n)
      as (b1 & t1 & n1 & Hrun & Hcount & k & Hk).
    destruct (IH b1 n1) as (b2 & t2 & n2 & Hrest & Hcount2 & Hrep).
    exists b2, (t1 ++ t2), n2. simpl.
    unfold mbind, Async_bind, async_bind at 1. rewrite Hrun, Hrest.
    split; [done|]. split; [lia|].
    rewrite searched_app, Hk. by constructor.
Qed.


Lemma extractFeaturesFromSongs_run (sqrt : Qc → Qc) (w : World)
    (songs : list Song) (n : nat) :
  ∃ b trace n',
    for_each (process_song w) (take 500 songs)
             {| allFeatures := []; count := 0 |} n = (Returned b, trace, n')
    ∧ count b = length (take 500 songs)
    ∧ repeats (take 500 songs) (searched trace)
    ∧ extractFeaturesFromSongs sqrt w songs n =
        (Returned {| features :=
                       Some (if (length (allFeatures b) =? 0)%nat
                             then emptyFeatures
                             else aggregateFeatures sqrt (allFeatures b));
                     processedCount := count b |},
         trace ++ [ConsoleLog], n').
Proof.
  destruct (for_each_process_song w (take 500 songs)
              {| allFeatures := []; count := 0 |} n)
    as (b & trace & n' & Hrun & Hcount & Hrep).
  exists b, trace, n'. repeat split; [done|done|done|].
  unfold extractFeaturesFromSongs.
  unfold mbind, Async_bind, async_bind at 1. rewrite Hrun.
  by destruct (length (allFeatures b) =? 0)%nat.
Qed.


(** The statistics of an aggregate whose source array is empty. *)
Lemma aggregateFeatures_defaults (sqrt : Qc → Qc)
    (docs : list AcousticBrainzFeatures) :
  (tempos (collect docs) = [] →
     tempo (aggregateFeatures sqrt docs)
       = {| tempo_mean := 0; tempo_std := 0; tempo_range := (0, 0) |})
  ∧ (mfccs (collect docs) = [] →
       agg_mfcc (aggregateFeatures sqrt docs)
         = {| mean_vector := []; variance_matrix := [] |})
  ∧ (chromas (collect docs) = [] →
       chroma (aggregateFeatures sqrt docs)
         = {| dominant_pitches := []; avg_profile := [] |})
  ∧ (centroids (collect docs) = [] →
       avg_centroid (spectral (aggregateFeatures sqrt docs)) = 0)
  ∧ (fluxes (collect docs) = [] →
       flux_variance (spectral (aggregateFeatures sqrt docs)) = 0)
  ∧ (zeroCrossings (collect docs) = [] →
       rhythm_complexity (aggregateFeatures sqrt docs) = 0).
Proof.
  unfold aggregateFeatures. simpl.
  repeat split; intros ->; done.
Qed.

Lemma aggregateFeatures_nil (sqrt : Qc → Qc) :
  aggregateFeatures sqrt [] = emptyFeatures.
Proof. done. Qed.

(** C1.  For every batch and every behaviour of the two services,
    [extractFeaturesFromSongs] returns, without throwing, a result whose
    [features] is an [AggregateProfile] and not [null]: the aggregate of the
    documents the loop recovered, which is the all-zero, all-empty profile
    when none was recovered; in it every statistic whose source array is
    empty has its default: [0], the empty array, or the range [(0, 0)]. *)
Theorem extractFeaturesFromSongs_total (sqrt : Qc → Qc) (w : World)
    (songs : list Song) (n : nat) :
  ∃ (docs : list AcousticBrainzFeatures) (profile : AggregateProfile)
    (processed : nat) (trace : list Event) (n' : nat),
    for_each (process_song w) (take 500 songs)
             {| allFeatures := []; count := 0 |} n
      = (Returned {| allFeatures := docs; count := processed |}, trace, n')
    ∧ extractFeaturesFromSongs sqrt w songs n
      = (Returned {| features := Some profile; processedCount := processed |},
         trace ++ [ConsoleLog], n')
    ∧ profile = aggregateFeatures sqrt docs
    ∧ (docs = [] → profile = emptyFeatures)
    ∧ (tempos (collect docs) = [] →
         tempo profile
           = {| tempo_mean := 0; tempo_std := 0; tempo_range := (0, 0) |})
    ∧ (mfccs (collect docs) = [] →
         agg_mfcc profile = {| mean_vector := []; variance_matrix := [] |})
    ∧ (chromas (collect docs) = [] →
         chroma profile = {| dominant_pitches := []; avg_profile := [] |})
    ∧ (centroids (collect docs) = [] → avg_centroid (spectral profile) = 0)
    ∧ (fluxes (collect docs) = [] → flux_variance (spectral profile) = 0)
    ∧ (zeroCrossings (collect docs) = [] → rhythm_complexity profile = 0).
Proof.
  destruct (extractFeaturesFromSongs_run sqrt w songs n)
    as ([docs processed] & trace & n' & Hloop & Hcount & Hrep & Hrun).
  simpl in Hrun.
  exists docs. eexists _, processed, trace, n'.
  split; [exact Hloop|]. split; [exact Hrun|].
  assert (Hprofile :
    (if (length docs =? 0)%nat
     then emptyFeatures else aggregateFeatures sqrt docs)
    = aggregateFeatures sqrt docs).
  { destruct docs as [|doc docs]; [|done].
    simpl. by rewrite aggregateFeatures_nil. }
  rewrite Hprofile. split; [done|]. split.
  - intros ->. apply aggregateFeatures_nil.
  - apply aggregateFeatures_defaults.
Qed.

(** ** [aggregateFeatures]: what is collected *)

Lemma push_number_nonzero (arr : list Qc) (x : option Qc) :
  push_number arr x = arr ++ option_list (nonzero x).
Proof.
  destruct x as [v|]; simpl; [|by rewrite app_nil_r].
  destruct (truthy v); simpl; [done|by rewrite app_nil_r].
Qed.

Lemma push_vector_option_list (arr : list (list Qc)) (x : option (list Qc)) :
  push_vector arr x = arr ++ option_list x.
Proof. destruct x as [v|]; simpl; [done|by rewrite app_nil_r]. Qed.

Lemma omap_cons_option_list {A B : Type} (f : A → option B) (x : A) (l : list A) :
  omap f (x :: l) = option_list (f x) ++ omap f l.
Proof. simpl. by destruct (f x). Qed.

(** The six arrays after the loop, from any starting point. *)
Lemma foldl_collect_step (docs : list AcousticBrainzFeatures) (c : Collected) :
  foldl collect_step c docs =
    {| tempos := tempos c ++ omap (λ d, nonzero (rhythm_bpm d)) docs;
       mfccs := mfccs c ++ omap lowlevel_mfcc_mean docs;
       chromas := chromas c ++ omap tonal_chroma_cens docs;
       centroids :=
         centroids c ++ omap (λ d, nonzero (lowlevel_spectral_centroid_mean d)) docs;
       fluxes := fluxes c ++ omap (λ d, nonzero (lowlevel_spectral_flux_var d)) docs;
       zeroCrossings :=
         zeroCrossings c
           ++ omap (λ d, nonzero (lowlevel_zerocrossingrate_mean d)) docs |}.
Proof.
  revert c. induction docs as [|d docs IH]; intros c.
  - simpl. rewrite !app_nil_r. by destruct c.
  - cbn [foldl]. rewrite IH. unfold collect_step. cbn [tempos mfccs chromas
      centroids fluxes zeroCrossings].
    rewrite !push_number_nonzero, !push_vector_option_list.
    rewrite !omap_cons_option_list, <-!app_assoc. done.
Qed.

Lemma collect_omap (docs : list AcousticBrainzFeatures) :
  collect docs =
    {| tempos := omap (λ d, nonzero (rhythm_bpm d)) docs;
       mfccs := omap lowlevel_mfcc_mean docs;
       chromas := omap tonal_chroma_cens docs;
       centroids := omap (λ d, nonzero (lowlevel_spectral_centroid_mean d)) docs;
       fluxes := omap (λ d, nonzero (lowlevel_spectral_flux_var d)) docs;
       zeroCrossings :=
         omap (λ d, nonzero (lowlevel_zerocrossingrate_mean d)) docs |}.
Proof. unfold collect. by rewrite foldl_collect_step. Qed.

Lemma nonzero_idemp (x : option Qc) : nonzero (nonzero x) = nonzero x.
Proof.
  destruct x as [v|]; [|done]. simpl.
  destruct (truthy v) eqn:Hv; [|done]. simpl. by rewrite Hv.
Qed.

Lemma strip_zeros_reads (d : AcousticBrainzFeatures) :
  nonzero (rhythm_bpm (strip_zeros d)) = nonzero (rhythm_bpm d)
  ∧ lowlevel_mfcc_mean (strip_zeros d) = lowlevel_mfcc_mean d
  ∧ tonal_chroma_cens (strip_zeros d) = tonal_chroma_cens d
  ∧ nonzero (lowlevel_spectral_centroid_mean (strip_zeros d))
      = nonzero (lowlevel_spectral_centroid_mean d)
  ∧ nonzero (lowlevel_spectral_flux_var (strip_zeros d))
      = nonzero (lowlevel_spectral_flux_var d)
  ∧ nonzero (lowlevel_zerocrossingrate_mean (strip_zeros d))
      = nonzero (lowlevel_zerocrossingrate_mean d).
Proof.
  unfold rhythm_bpm, lowlevel_mfcc_mean, tonal_chroma_cens,
    lowlevel_spectral_centroid_mean, lowlevel_spectral_flux_var,
    lowlevel_zerocrossingrate_mean, strip_zeros.
  destruct d as [[r|] t [l|]]; simpl; rewrite ?nonzero_idemp;
    repeat split; try done.
  - by destruct (spectral_centroid l); simpl; rewrite ?nonzero_idemp.
  - by destruct (spectral_flux l); simpl; rewrite ?nonzero_idemp.
  - by destruct (zerocrossingrate l); simpl; rewrite ?nonzero_idemp.
  - by destruct (spectral_centroid l); simpl; rewrite ?nonzero_idemp.
  - by destruct (spectral_flux l); simpl; rewrite ?nonzero_idemp.
  - by destruct (zerocrossingrate l); simpl; rewrite ?nonzero_idemp.
Qed.

Lemma omap_fmap_pointwise {A B C : Type} (f : B → option C) (g : A → option C)
    (h : A → B) (l : list A) :
  (∀ x, f (h x) = g x) → omap f (h <$> l) = omap g l.
Proof.
  intros Hfg. induction l as [|x l IH]; [done|].
  csimpl. by rewrite Hfg, IH.
Qed.

Lemma collect_strip_zeros (docs : list AcousticBrainzFeatures) :
  collect (strip_zeros <$> docs) = collect docs.
Proof.
  rewrite !collect_omap.
  f_equal; apply omap_fmap_pointwise; intros d; apply strip_zeros_reads.
Qed.

(** C10, as stated, fails for an empty array: [if ([])] is taken, so a
    document whose [lowlevel.mfcc.mean] is [[]] is collected and, standing
    first, cuts the mean vector to length 0, where the same document without
    the field leaves the other document's vector as the mean. *)
Lemma empty_vector_is_collected :
  mfccs (collect [mfcc_doc (Some []); mfcc_doc (Some [q 1; q 2])])
    = [[]; [q 1; q 2]]
  ∧ mean_vector (agg_mfcc (aggregateFeatures sample_sqrt
        [mfcc_doc (Some []); mfcc_doc (Some [q 1; q 2])])) = []
  ∧ mfccs (collect [mfcc_doc None; mfcc_doc (Some [q 1; q 2])])
    = [[q 1; q 2]]
  ∧ mean_vector (agg_mfcc (aggregateFeatures sample_sqrt
        [mfcc_doc None; mfcc_doc (Some [q 1; q 2])])) = [q 1; q 2].
Proof.
  repeat split; apply (bool_decide_unpack _); by vm_compute.
Qed.

(** C10, amended.  The loop of [aggregateFeatures] collects a scalar field
    when it is present and not [0], and a vector field when it is present,
    the empty array included.  So a scalar field equal to [0] counts exactly
    as an absent one: removing the zero fields of every document leaves the
    aggregate unchanged, and a document whose [rhythm.bpm] is [0] adds
    nothing to the tempo statistics. *)
Theorem aggregateFeatures_truthy_fields :
  (∀ docs : list AcousticBrainzFeatures,
     tempos (collect docs) = omap (λ d, nonzero (rhythm_bpm d)) docs
     ∧ centroids (collect docs)
         = omap (λ d, nonzero (lowlevel_spectral_centroid_mean d)) docs
     ∧ fluxes (collect docs)
         = omap (λ d, nonzero (lowlevel_spectral_flux_var d)) docs
     ∧ zeroCrossings (collect docs)
         = omap (λ d, nonzero (lowlevel_zerocrossingrate_mean d)) docs
     ∧ mfccs (collect docs) = omap lowlevel_mfcc_mean docs
     ∧ chromas (collect docs) = omap tonal_chroma_cens docs)
  ∧ (∀ (sqrt : Qc → Qc) (docs : list AcousticBrainzFeatures),
       aggregateFeatures sqrt (strip_zeros <$> docs) = aggregateFeatures sqrt docs)
  ∧ (∀ (sqrt : Qc → Qc) (pre post : list AcousticBrainzFeatures)
       (d : AcousticBrainzFeatures),
       rhythm_bpm d = Some 0 →
       tempo (aggregateFeatures sqrt (pre ++ d :: post))
         = tempo (aggregateFeatures sqrt (pre ++ post))).
Proof.
  split; [|split].
  - intros docs. by rewrite collect_omap.
  - intros sqrt docs. unfold aggregateFeatures. by rewrite collect_strip_zeros.
  - intros sqrt pre post d Hd. unfold aggregateFeatures.
    assert (Heq : tempos (collect (pre ++ d :: post)) = tempos (collect (pre ++ post))).
    { rewrite !collect_omap. simpl. rewrite !omap_app. simpl. by rewrite Hd. }
    cbn [tempo]. by rewrite Heq.
Qed.

(** ** [aggregateFeatures]: the order of the documents *)

Lemma foldl_sum_perm {B : Type} (f : B → Qc) (l l' : list B) :
  l ≡ₚ l' →
  ∀ a : Qc, foldl (λ sum v, sum + f v) a l = foldl (λ sum v, sum + f v) a l'.
Proof.
  induction 1 as [|x l l' _ IH|x y l|l1 l2 l3 _ IH1 _ IH2]; intros a.
  - done.
  - simpl. apply IH.
  - simpl. f_equal. ring.
  - by rewrite IH1.
Qed.

Lemma mean_perm (l l' : list Qc) : l ≡ₚ l' → mean l = mean l'.
Proof.
  intros Hperm. unfold mean. rewrite (Permutation_length Hperm).
  case_decide; [done|]. f_equal.
  apply (foldl_sum_perm (λ v, v) _ _ Hperm).
Qed.

Lemma variance_perm (l l' : list Qc) : l ≡ₚ l' → variance l = variance l'.
Proof.
  intros Hperm. unfold variance.
  rewrite (Permutation_length Hperm), (mean_perm _ _ Hperm).
  case_decide; [done|]. f_equal.
  apply (foldl_sum_perm (λ v, pow2 (v - mean l')) _ _ Hperm).
Qed.









(** It fails for the dominant pitches also when the vectors have one length:
    in double precision the three vectors [0.3, 0.1], [0.2, 0.2] and
    [0.1, 0.3], whose two means are both 0.2, give the means
    0.19999999999999998 and 0.20000000000000004 in one order and the same
    two exchanged in the other, hence the pitches [1, 0] and [0, 1]; the
    exact means tie, and give [0, 1] in both orders. *)
Lemma rounded_tie_order :
  Double.getDominantPitches
    [[tenths 3; tenths 1]; [tenths 2; tenths 2]; [tenths 1; tenths 3]]
    = [1; 0]%nat
  ∧ Double.getDominantPitches
      [[tenths 1; tenths 3]; [tenths 2; tenths 2]; [tenths 3; tenths 1]]
    = [0; 1]%nat
  ∧ getDominantPitches
      [[q 3 / q 10; q 1 / q 10]; [q 2 / q 10; q 2 / q 10]; [q 1 / q 10; q 3 / q 10]]
    = [0; 1]%nat
  ∧ getDominantPitches
      [[q 1 / q 10; q 3 / q 10]; [q 2 / q 10; q 2 / q 10]; [q 3 / q 10; q 1 / q 10]]
    = [0; 1]%nat.
Proof. repeat split; vm_compute; reflexivity. Qed.



(** ** Runs on sample inputs *)

Example tempo_of_120_and_140 :
  tempo_mean (tempo (aggregateFeatures sample_sqrt [bpm_doc (q 120); bpm_doc (q 140)]))
    = q 130
  ∧ tempo_std (tempo (aggregateFeatures sample_sqrt [bpm_doc (q 120); bpm_doc (q 140)]))
    = q 10
  ∧ tempo_range (tempo (aggregateFeatures sample_sqrt [bpm_doc (q 120); bpm_doc (q 140)]))
    = (q 120, q 140).
Proof.
  repeat split; [apply (bool_decide_unpack _); by vm_compute..|].
  unfold aggregateFeatures. simpl. f_equal; apply (bool_decide_unpack _); by vm_compute.
Qed.

Example meanVector_ragged :
  meanVector [[q 1; q 2]; [q 3]; [q 5; q 6; q 7]] = [q 3; Q2Qc (8 # 3)].
Proof. apply (bool_decide_unpack _). by vm_compute. Qed.

Example varianceMatrix_ragged :
  varianceMatrix [[q 1; q 2]; [q 3]; [q 5; q 6; q 7]]
    = [[Q2Qc (8 # 3); Q2Qc (8 # 3)]; [Q2Qc (8 # 3); Q2Qc (56 # 9)]].
Proof. apply (bool_decide_unpack _). by vm_compute. Qed.

Example searchRecording_third_attempt :
  searchRecording busy_world "Artist" "Title" 0%nat =
    (Returned (Some "mbid-1"),
     [Delay 1000; FetchRecording "Artist" "Title"; ConsoleLog; Delay 2000;
      Delay 1000; FetchRecording "Artist" "Title"; ConsoleLog; Delay 4000;
      Delay 1000; FetchRecording "Artist" "Title"],
     3%nat).
Proof. reflexivity. Qed.

Example searchRecording_always_limited :
  searchRecording limited_world "Artist" "Title" 0%nat =
    (Returned None,
     [Delay 1000; FetchRecording "Artist" "Title"; ConsoleLog; Delay 2000;
      Delay 1000; FetchRecording "Artist" "Title"; ConsoleLog; Delay 4000;
      Delay 1000; FetchRecording "Artist" "Title"; ConsoleError],
     3%nat).
Proof. reflexivity. Qed.

Example searchRecording_mixed_failures :
  searchRecording flaky_world "Artist" "Title" 0%nat =
    (Returned None,
     [Delay 1000; FetchRecording "Artist" "Title"; ConsoleLog; Delay (waitTime 1);
      Delay 1000; FetchRecording "Artist" "Title"; ConsoleError; Delay (catchDelay 2);
      Delay 1000; FetchRecording "Artist" "Title"; ConsoleError],
     3%nat).
Proof. reflexivity. Qed.

Example getAudioFeatures_timeout :
  getAudioFeatures limited_world "mbid-1" 0%nat =
    (Returned None, [FetchFeatures "mbid-1"; ConsoleError], 1%nat).
Proof. reflexivity. Qed.

Example extractFeaturesFromSongs_nothing_found :
  extractFeaturesFromSongs sample_sqrt silent_world
    [ {| artist := "A"; title := "one" |}; {| artist := "B"; title := "two" |} ]
    0%nat =
    (Returned {| features := Some emptyFeatures; processedCount := 2 |},
     [Delay 1000; FetchRecording "A" "one";
      Delay 1000; FetchRecording "B" "two"; ConsoleLog],
     2%nat).
Proof. reflexivity. Qed.

Example extractFeaturesFromSongs_empty_batch :
  extractFeaturesFromSongs sample_sqrt silent_world [] 0%nat =
    (Returned {| features := Some emptyFeatures; processedCount := 0 |},
     [ConsoleLog], 0%nat).
Proof. reflexivity. Qed.

Example getAudioFeatures_not_found :
  getAudioFeatures silent_world "mbid-1" 0%nat =
    (Returned None, [FetchFeatures "mbid-1"], 1%nat).
Proof. reflexivity. Qed.

Example extractFeaturesFromSongs_found :
  extractFeaturesFromSongs sample_sqrt rich_world
    [ {| artist := "A"; title := "one" |}; {| artist := "B"; title := "two" |} ]
    0%nat =
    (Returned
       {| features :=
            Some (aggregateFeatures sample_sqrt [bpm_doc (q 120); bpm_doc (q 120)]);
          processedCount := 2 |},
     [Delay 1000; FetchRecording "A" "one"; FetchFeatures "mbid-1";
      Delay 1000; FetchRecording "B" "two"; FetchFeatures "mbid-1"; ConsoleLog],
     4%nat).
Proof. reflexivity. Qed.

Example zero_bpm_is_skipped :
  tempos (collect [bpm_doc (q 0); bpm_doc (q 120)]) = [q 120].
Proof. apply (bool_decide_unpack _). by vm_compute. Qed.

Example getDominantPitches_short :
  getDominantPitches [[q 1; q 3]] = [1; 0]%nat.
Proof. by vm_compute. Qed.

(** Six hundred songs: five hundred are processed. *)
Example extractFeaturesFromSongs_600 :
  ∃ result trace n',
    extractFeaturesFromSongs sample_sqrt silent_world
      (replicate 600 {| artist := "A"; title := "one" |}) 0%nat
      = (Returned result, trace, n')
    ∧ processedCount result = 500%nat
    ∧ fetches trace = 500%nat.
Proof. eexists _, _, _. split; [by vm_compute|]. split; by vm_compute. Qed.

(** * Part IV: further properties of the aggregator *)

(** ** Order and arithmetic of the numbers *)

Lemma Qc_square_nonneg (x : Qc) : 0 ≤ x * x.
Proof.
  destruct (total Qcle 0 x) as [Hx|Hx].
  - pose proof (Qcmult_le_compat_r 0 x x Hx Hx) as H.
    by rewrite Qcmult_0_l in H.
  - apply Qcopp_le_compat in Hx. replace (- 0) with 0 in Hx by ring.
    pose proof (Qcmult_le_compat_r 0 (- x) (- x) Hx Hx) as H.
    rewrite Qcmult_0_l in H. by replace (- x * - x) with (x * x) in H by ring.
Qed.

Lemma Qcinv_pos (x : Qc) : 0 < x → 0 < / x.
Proof.
  unfold Qclt. intros Hx. change (this (/ x)) with (Qred (/ this x)).
  rewrite Qred_correct. apply Qinv_lt_0_compat. exact Hx.
Qed.

Lemma pow2_mult (x : Qc) : pow2 x = x * x.
Proof. unfold pow2. simpl. ring. Qed.

Lemma of_nat_pos (n : nat) : 0 < of_nat (S n).
Proof. unfold of_nat, Qclt. simpl. unfold Qlt. simpl. lia. Qed.

Lemma of_nat_S (n : nat) : of_nat (S n) = of_nat n + 1.
Proof.
  unfold of_nat. apply Qc_is_canon. simpl. rewrite Qred_correct.
  rewrite Nat2Z.inj_succ. unfold Z.succ. rewrite inject_Z_plus. reflexivity.
Qed.

Lemma of_nat_0 : of_nat 0 = 0.
Proof. by apply Qc_is_canon. Qed.

Lemma Qcdiv_nonneg (s n : Qc) : 0 ≤ s → 0 < n → 0 ≤ s / n.
Proof.
  intros Hs Hn. unfold Qcdiv.
  pose proof (Qcmult_le_compat_r 0 s (/ n) Hs
                (Qclt_le_weak _ _ (Qcinv_pos n Hn))) as H.
  by rewrite Qcmult_0_l in H.
Qed.

(** ** Sums *)

Lemma foldl_plus_sum {B : Type} (f : B → Qc) (l : list B) (a : Qc) :
  foldl (λ sum v, sum + f v) a l = a + Qc_sum (f <$> l).
Proof.
  revert a. induction l as [|x l IH]; intros a.
  - unfold Qc_sum. cbn [foldl fmap list_fmap foldr]. ring.
  - cbn [foldl]. rewrite IH, fmap_cons. unfold Qc_sum. cbn [foldr]. ring.
Qed.

Lemma Qc_sum_nonneg (l : list Qc) : Forall (λ x, 0 ≤ x) l → 0 ≤ Qc_sum l.
Proof.
  induction 1 as [|x l Hx _ IH]; [apply Qcle_refl|].
  unfold Qc_sum in *. simpl. by apply Qcplus_nonneg_nonneg.
Qed.

Lemma variance_cons (x : Qc) (l : list Qc) :
  variance (x :: l) =
    Qc_sum ((λ v, pow2 (v - mean (x :: l))) <$> (x :: l))
    / of_nat (length (x :: l)).
Proof.
  unfold variance. case_decide as Hlen; [done|].
  rewrite (foldl_plus_sum (λ v, pow2 (v - mean (x :: l)))). f_equal. ring.
Qed.

(** ** [variance]: sign *)

Lemma pow2_nonneg (x : Qc) : 0 ≤ pow2 x.
Proof. rewrite pow2_mult. apply Qc_square_nonneg. Qed.

(** X1.  [variance] is never negative: it is [0] on the empty array and a
    sum of squares over a length elsewhere; so [spectral.flux_variance] of an
    aggregate is never negative. *)
Theorem variance_nonneg (sqrt : Qc → Qc) :
  (∀ arr : list Qc, 0 ≤ variance arr)
  ∧ ∀ docs : list AcousticBrainzFeatures,
      0 ≤ flux_variance (spectral (aggregateFeatures sqrt docs)).
Proof.
  assert (Hvar : ∀ arr : list Qc, 0 ≤ variance arr).
  { intros [|x l]; [apply Qcle_refl|].
    rewrite variance_cons.
    apply Qcdiv_nonneg; [|apply of_nat_pos].
    apply Qc_sum_nonneg, Forall_fmap, Forall_true. intros v. apply pow2_nonneg. }
  split; [exact Hvar|]. intros docs. apply Hvar.
Qed.

(** ** [tempo.range] *)

Lemma Qc_min_le (a b : Qc) : Qc_min a b ≤ a ∧ Qc_min a b ≤ b.
Proof.
  unfold Qc_min. case_decide as Hab; split; try done; try apply Qcle_refl.
  apply Qclt_le_weak. by apply Qcnot_le_lt.
Qed.

Lemma Qc_max_ge (a b : Qc) : a ≤ Qc_max a b ∧ b ≤ Qc_max a b.
Proof.
  unfold Qc_max. case_decide as Hab; split; try done; try apply Qcle_refl.
  apply Qclt_le_weak. by apply Qcnot_le_lt.
Qed.

Lemma foldl_min_spec (l : list Qc) (a : Qc) :
  foldl Qc_min a l ∈ a :: l
  ∧ Forall (λ y, foldl Qc_min a l ≤ y) (a :: l).
Proof.
  revert a. induction l as [|y l IH]; intros a.
  - cbn [foldl]. split; [by left|]. repeat constructor. apply Qcle_refl.
  - cbn [foldl]. destruct (IH (Qc_min a y)) as [Hin Hall].
    apply Forall_cons in Hall as [Hhead Hall].
    destruct (Qc_min_le a y) as [Ha Hy]. split.
    + apply elem_of_cons in Hin as [->|Hin].
      * unfold Qc_min. case_decide; [by left|by right; left].
      * by right; right.
    + constructor; [by eapply Qcle_trans|].
      constructor; [by eapply Qcle_trans|done].
Qed.

Lemma foldl_max_spec (l : list Qc) (a : Qc) :
  foldl Qc_max a l ∈ a :: l
  ∧ Forall (λ y, y ≤ foldl Qc_max a l) (a :: l).
Proof.
  revert a. induction l as [|y l IH]; intros a.
  - cbn [foldl]. split; [by left|]. repeat constructor. apply Qcle_refl.
  - cbn [foldl]. destruct (IH (Qc_max a y)) as [Hin Hall].
    apply Forall_cons in Hall as [Hhead Hall].
    destruct (Qc_max_ge a y) as [Ha Hy]. split.
    + apply elem_of_cons in Hin as [->|Hin].
      * unfold Qc_max. case_decide; [by right; left|by left].
      * by right; right.
    + constructor; [by eapply Qcle_trans|].
      constructor; [by eapply Qcle_trans|done].
Qed.

Lemma tempo_range_cons (sqrt : Qc → Qc) (docs : list AcousticBrainzFeatures)
    (x : Qc) (l : list Qc) :
  tempos (collect docs) = x :: l →
  tempo_range (tempo (aggregateFeatures sqrt docs))
    = (foldl Qc_min x l, foldl Qc_max x l).
Proof.
  intros Heq. unfold aggregateFeatures. cbn [tempo tempo_range].
  rewrite Heq. by case_decide; [|simpl in *; lia].
Qed.

(** X2.  When some tempo was collected, the two ends of [tempo.range] are
    collected tempos and every collected tempo lies between them. *)
Theorem tempo_range_brackets (sqrt : Qc → Qc)
    (docs : list AcousticBrainzFeatures) (x : Qc) :
  x ∈ tempos (collect docs) →
  (tempo_range (tempo (aggregateFeatures sqrt docs))).1 ≤ x
  ∧ x ≤ (tempo_range (tempo (aggregateFeatures sqrt docs))).2
  ∧ (tempo_range (tempo (aggregateFeatures sqrt docs))).1 ∈ tempos (collect docs)
  ∧ (tempo_range (tempo (aggregateFeatures sqrt docs))).2 ∈ tempos (collect docs).
Proof.
  intros Hx. destruct (tempos (collect docs)) as [|y l] eqn:Heq.
  { by apply elem_of_nil in Hx. }
  rewrite (tempo_range_cons sqrt docs y l Heq). cbn [fst snd].
  destruct (foldl_min_spec l y) as [Hmin_in Hmin].
  destruct (foldl_max_spec l y) as [Hmax_in Hmax].
  rewrite Forall_forall in Hmin, Hmax. auto.
Qed.

Lemma tempo_range_brackets_witness :
  (tempo_range (tempo (aggregateFeatures sample_sqrt
      [bpm_doc (q 120); bpm_doc (q 90); bpm_doc (q 140)]))).1 ≤ q 90
  ∧ q 90 ≤ (tempo_range (tempo (aggregateFeatures sample_sqrt
      [bpm_doc (q 120); bpm_doc (q 90); bpm_doc (q 140)]))).2
  ∧ (tempo_range (tempo (aggregateFeatures sample_sqrt
      [bpm_doc (q 120); bpm_doc (q 90); bpm_doc (q 140)]))).1
      ∈ tempos (collect [bpm_doc (q 120); bpm_doc (q 90); bpm_doc (q 140)])
  ∧ (tempo_range (tempo (aggregateFeatures sample_sqrt
      [bpm_doc (q 120); bpm_doc (q 90); bpm_doc (q 140)]))).2
      ∈ tempos (collect [bpm_doc (q 120); bpm_doc (q 90); bpm_doc (q 140)]).
Proof.
  apply (tempo_range_brackets sample_sqrt
           [bpm_doc (q 120); bpm_doc (q 90); bpm_doc (q 140)] (q 90)).
  apply (bool_decide_unpack _). by vm_compute.
Defined.

(** A tempo that is collected is not [0]. *)
Lemma tempos_nonzero (docs : list AcousticBrainzFeatures) :
  Forall (λ x, x ≠ 0) (tempos (collect docs)).
Proof.
  rewrite collect_omap. cbn [tempos]. apply Forall_forall. intros x Hx.
  apply list_elem_of_omap in Hx as (d & _ & Hd).
  unfold nonzero in Hd. destruct (rhythm_bpm d) as [v|]; [|done].
  destruct (truthy v) eqn:Hv; [|done]. injection Hd as <-.
  by apply bool_decide_eq_true in Hv.
Qed.

(** X3.  [tempo.range] is ordered, its lower end never above its upper end,
    and it is [0, 0] exactly when no tempo was collected: a tempo of [0] is
    never collected, so that none of its ends is [0] otherwise. *)
Theorem tempo_range_zero_iff (sqrt : Qc → Qc)
    (docs : list AcousticBrainzFeatures) :
  (tempo_range (tempo (aggregateFeatures sqrt docs))).1
    ≤ (tempo_range (tempo (aggregateFeatures sqrt docs))).2
  ∧ (tempo_range (tempo (aggregateFeatures sqrt docs)) = (0, 0)
     ↔ tempos (collect docs) = [])
  ∧ (tempos (collect docs) ≠ [] →
     (tempo_range (tempo (aggregateFeatures sqrt docs))).1 ≠ 0
     ∧ (tempo_range (tempo (aggregateFeatures sqrt docs))).2 ≠ 0).
Proof.
  pose proof (tempos_nonzero docs) as Hnonzero.
  destruct (tempos (collect docs)) as [|y l] eqn:Heq.
  { unfold aggregateFeatures. cbn [tempo tempo_range]. rewrite Heq.
    split; [apply Qcle_refl|]. split; [done|]. by intros []. }
  rewrite (tempo_range_cons sqrt docs y l Heq). cbn [fst snd].
  destruct (foldl_min_spec l y) as [Hmin_in Hmin].
  destruct (foldl_max_spec l y) as [Hmax_in Hmax].
  rewrite Forall_forall in Hnonzero.
  apply Forall_cons in Hmin as [Hmin _]. apply Forall_cons in Hmax as [Hmax _].
  split; [by eapply Qcle_trans|]. split.
  - split; [|done]. intros [= Hzero _]. exfalso.
    apply (Hnonzero _ Hmin_in Hzero).
  - intros _. split; [exact (Hnonzero _ Hmin_in)|exact (Hnonzero _ Hmax_in)].
Qed.

(** ** [varianceMatrix]: symmetry, diagonal and columns *)

Lemma cov_sum_sym (meanVec : list Qc) (vectors : list (list Qc)) (i j : nat) :
  cov_sum meanVec vectors i j = cov_sum meanVec vectors j i.
Proof. unfold cov_sum. apply foldl_pointwise. intros sum v. ring. Qed.

Lemma cov_sum_diag_nonneg (meanVec : list Qc) (vectors : list (list Qc)) (i : nat) :
  0 ≤ cov_sum meanVec vectors i i.
Proof.
  unfold cov_sum.
  rewrite (foldl_plus_sum
    (λ v : list Qc,
       (default 0 (v !! i) - default 0 (meanVec !! i))
       * (default 0 (v !! i) - default 0 (meanVec !! i)))).
  rewrite Qcplus_0_l. apply Qc_sum_nonneg, Forall_fmap, Forall_true.
  intros v. apply Qc_square_nonneg.
Qed.

(** X4.  The matrix of [varianceMatrix] is symmetric and its diagonal is
    never negative. *)
Theorem varianceMatrix_symmetric (vectors : list (list Qc)) (i j : nat) :
  entry (varianceMatrix vectors) i j = entry (varianceMatrix vectors) j i
  ∧ ∀ x : Qc, entry (varianceMatrix vectors) i i = Some x → 0 ≤ x.
Proof.
  destruct vectors as [|v0 rest].
  { split; [done|]. intros x. by destruct i. }
  rewrite !varianceMatrix_entry. split.
  - rewrite cov_sum_sym.
    repeat case_decide; try done; destruct_and?; exfalso; auto.
  - intros x. case_decide; [|done]. intros [= <-].
    apply Qcdiv_nonneg; [apply cov_sum_diag_nonneg|apply of_nat_pos].
Qed.

Lemma omap_lookup_column (vectors : list (list Qc)) (i : nat) :
  Forall (λ v : list Qc, (i < length v)%nat) vectors →
  omap (λ v : list Qc, v !! i) vectors = column vectors i.
Proof.
  induction 1 as [|v vs Hv _ IH]; [done|].
  unfold column in *. csimpl.
  destruct (lookup_lt_is_Some_2 v i Hv) as [x Hx].
  rewrite Hx, IH. by rewrite (at_index_lookup v i x).
Qed.

Lemma length_column (vectors : list (list Qc)) (i : nat) :
  length (column vectors i) = length vectors.
Proof. unfold column. apply length_fmap. Qed.

Lemma meanVector_uniform (v0 : list Qc) (rest : list (list Qc)) (i : nat) :
  Forall (λ v : list Qc, length v = length v0) rest →
  (i < length v0)%nat →
  meanVector (v0 :: rest) !! i = Some (mean (column (v0 :: rest) i)).
Proof.
  intros Hlen Hi. rewrite meanVector_lookup.
  case_decide; [|lia]. f_equal.
  unfold sum_at. rewrite omap_lookup_column.
  - unfold mean. rewrite length_column. by case_decide.
  - constructor; [done|]. eapply Forall_impl; [exact Hlen|].
    intros v Hv. simpl in Hv. lia.
Qed.

(** X5.  When all the vectors have the length of the first, entry [i] of
    [meanVector] is [mean] of the [i]-th components, and entry [i], [i] of
    [varianceMatrix] is [variance] of the [i]-th components. *)
Theorem uniform_vectors_columns (v0 : list Qc) (rest : list (list Qc)) (i : nat) :
  Forall (λ v : list Qc, length v = length v0) rest →
  (i < length v0)%nat →
  meanVector (v0 :: rest) !! i = Some (mean (column (v0 :: rest) i))
  ∧ entry (varianceMatrix (v0 :: rest)) i i
    = Some (variance (column (v0 :: rest) i)).
Proof.
  intros Hlen Hi.
  pose proof (meanVector_uniform v0 rest i Hlen Hi) as Hmean.
  split; [done|].
  rewrite varianceMatrix_entry, meanVector_length.
  case_decide; [|lia]. f_equal.
  unfold variance. rewrite length_column. case_decide; [done|]. f_equal.
  unfold cov_sum, column. rewrite foldl_fmap, Hmean.
  apply foldl_pointwise. intros sum v.
  rewrite pow2_mult. done.
Qed.

Lemma uniform_vectors_columns_witness :
  meanVector [[q 1; q 2]; [q 3; q 6]] !! 1%nat
    = Some (mean (column [[q 1; q 2]; [q 3; q 6]] 1))
  ∧ entry (varianceMatrix [[q 1; q 2]; [q 3; q 6]]) 1 1
    = Some (variance (column [[q 1; q 2]; [q 3; q 6]] 1)).
Proof.
  apply (uniform_vectors_columns [q 1; q 2] [[q 3; q 6]] 1).
  - repeat constructor.
  - simpl. lia.
Defined.

(** ** [getDominantPitches]: the largest values *)

(** X6.  The indices returned by [getDominantPitches] are distinct indices
    of the mean vector, at most three, and none of the indices left out has
    a larger mean value than one of those returned. *)
Theorem getDominantPitches_largest (v0 : list Qc) (rest : list (list Qc)) :
  NoDup (getDominantPitches (v0 :: rest))
  ∧ (length (getDominantPitches (v0 :: rest)) ≤ 3)%nat
  ∧ (∀ a : nat, a ∈ getDominantPitches (v0 :: rest) →
       (a < length (meanVector (v0 :: rest)))%nat)
  ∧ (∀ a b : nat,
       a ∈ getDominantPitches (v0 :: rest) →
       (b < length (meanVector (v0 :: rest)))%nat →
       b ∉ getDominantPitches (v0 :: rest) →
       default 0 (meanVector (v0 :: rest) !! b)
         ≤ default 0 (meanVector (v0 :: rest) !! a)).
Proof.
  rewrite getDominantPitches_order.
  set (m := meanVector (v0 :: rest)).
  pose proof (pitch_order_perm m) as Hperm.
  pose proof (pitch_order_sorted m) as Hsorted.
  assert (Hnodup : NoDup (pitch_order m)).
  { rewrite Hperm. apply NoDup_seq. }
  rewrite <-(take_drop 3 (pitch_order m)) in Hnodup, Hsorted, Hperm.
  split; [by apply NoDup_app in Hnodup as [? _]|].
  split; [rewrite length_take; lia|]. split.
  - intros a Ha.
    assert (Hin : a ∈ seq 0 (length m)).
    { rewrite <-Hperm. apply elem_of_app. by left. }
    apply elem_of_seq in Hin. lia.
  - intros a b Ha Hb Hnot.
    assert (Hin : b ∈ take 3 (pitch_order m) ++ drop 3 (pitch_order m)).
    { rewrite Hperm. apply elem_of_seq. lia. }
    apply elem_of_app in Hin as [Hin|Hin]; [done|].
    pose proof (StronglySorted_app_1_elem_of _ _ _ a b Hsorted Ha Hin) as Hab.
    simpl in Hab. destruct Hab as [Hlt|[Heq _]].
    + by apply Qclt_le_weak.
    + rewrite Heq. apply Qcle_refl.
Qed.

(** * Part V: further properties of the resolver, the fetcher and the batch *)

(** ** [searchRecording]: the first reply that does not fail *)

(** A failed reply before the last attempt makes the loop go on. *)
Lemma search_attempt_failed (w : World) (artist title : string) (attempt n : nat) :
  (attempt < maxRetries)%nat →
  failed (musicbrainz w n artist title) = true →
  ∃ trace,
    search_attempt w artist title attempt n = (Returned Continue, trace, S n)
    ∧ fetches trace = 1%nat.
Proof.
  intros Hattempt Hfailed. rewrite search_attempt_run. unfold caught.
  assert (Hne : (attempt =? maxRetries)%nat = false) by (apply Nat.eqb_neq; lia).
  assert (Hlt : (attempt <? maxRetries)%nat = true) by (by apply Nat.ltb_lt).
  rewrite Hne, Hlt.
  destruct (musicbrainz w n artist title) as [e|response]; [by eexists|].
  simpl in Hfailed. destruct (ok response); simpl in Hfailed.
  - destruct (json response); [by case_bool_decide|by eexists].
  - destruct (status response =? 429)%Z; by eexists.
Qed.

Lemma search_loop_succeeds (w : World) (artist title : string)
    (response : Response MusicBrainzResponse) (data : MusicBrainzResponse)
    (k remaining attempt n : nat) :
  (attempt + remaining = S maxRetries)%nat →
  (k < remaining)%nat →
  (∀ i, (i < k)%nat → failed (musicbrainz w (n + i) artist title) = true) →
  musicbrainz w (n + k) artist title = Resolved response →
  ok response = true →
  json response = Some data →
  ∃ trace,
    search_loop w artist title remaining attempt n
      = (Returned (first_id data), trace, (n + S k)%nat)
    ∧ fetches trace = S k.
Proof.
  revert remaining attempt n.
  induction k as [|k IH]; intros remaining attempt n Hinv Hk Hfail Hreply Hok Hjson.
  - destruct remaining as [|remaining]; [lia|].
    rewrite Nat.add_0_r in Hreply.
    rewrite search_loop_step, search_attempt_run, Hreply, Hok, Hjson.
    eexists. replace (n + 1)%nat with (S n) by lia. done.
  - destruct remaining as [|remaining]; [lia|].
    destruct (search_attempt_failed w artist title attempt n) as (t1 & Hrun & Hf1).
    { lia. }
    { specialize (Hfail 0%nat ltac:(lia)). by rewrite Nat.add_0_r in Hfail. }
    destruct (IH remaining (S attempt) (S n)) as (t2 & Hrest & Hf2);
      [lia|lia| | |done|done|].
    { intros i Hi. replace (S n + i)%nat with (n + S i)%nat by lia.
      apply Hfail. lia. }
    { by replace (S n + k)%nat with (n + S k)%nat by lia. }
    rewrite search_loop_step, Hrun, Hrest. exists (t1 ++ t2).
    replace (S n + S k)%nat with (n + S (S k))%nat by lia.
    split; [done|]. rewrite fetches_app. lia.
Qed.

(** X7.  When the replies to the first [k] requests fail, in whatever way,
    and the next one, still within [maxRetries], is a 2xx reply with a
    parsed body, [searchRecording] returns the identifier of the first
    recording of that body ([null] if it has none) after exactly [k + 1]
    requests. *)
Theorem searchRecording_first_success (w : World) (artist title : string)
    (response : Response MusicBrainzResponse) (data : MusicBrainzResponse)
    (k n : nat) :
  (k < maxRetries)%nat →
  (∀ i, (i < k)%nat → failed (musicbrainz w (n + i) artist title) = true) →
  musicbrainz w (n + k) artist title = Resolved response →
  ok response = true →
  json response = Some data →
  ∃ trace,
    searchRecording w artist title n
      = (Returned (first_id data), trace, (n + S k)%nat)
    ∧ fetches trace = S k.
Proof.
  intros Hk Hfail Hreply Hok Hjson. unfold searchRecording.
  by apply (search_loop_succeeds w artist title response data k).
Qed.

Lemma searchRecording_first_success_witness :
  ∃ trace,
    searchRecording busy_world "Artist" "Title" 0%nat
      = (Returned (Some "mbid-1"), trace, 3%nat)
    ∧ fetches trace = 3%nat.
Proof.
  apply (searchRecording_first_success busy_world "Artist" "Title"
           {| status := 200;
              json := Some {| recordings :=
                                Some [ {| recording_id := "mbid-1";
                                          recording_title := "Title";
                                          artist_credit := ["Artist"] |} ] |} |}
           {| recordings :=
                Some [ {| recording_id := "mbid-1";
                          recording_title := "Title";
                          artist_credit := ["Artist"] |} ] |}
           2 0).
  - unfold maxRetries. lia.
  - intros i Hi. destruct i as [|[|i]]; [reflexivity|reflexivity|lia].
  - reflexivity.
  - reflexivity.
  - reflexivity.
Defined.

Lemma search_loop_found (w : World) (artist title : string)
    (remaining attempt n : nat) (id : string) (trace : list Event) (n' : nat) :
  search_loop w artist title remaining attempt n = (Returned (Some id), trace, n') →
  ∃ (i : nat) (response : Response MusicBrainzResponse)
    (data : MusicBrainzResponse),
    (i < remaining)%nat
    ∧ musicbrainz w (n + i) artist title = Resolved response
    ∧ ok response = true
    ∧ json response = Some data
    ∧ first_id data = Some id
    ∧ n' = (n + S i)%nat.
Proof.
  revert attempt n trace.
  induction remaining as [|remaining IH]; intros attempt n trace Hrun.
  - unfold search_loop in Hrun. discriminate.
  - rewrite search_loop_step, search_attempt_run in Hrun.
    assert (Hnext : ∀ t1,
      match search_loop w artist title remaining (S attempt) (S n) with
      | (o, t2, n2) => (o, t1 ++ t2, n2)
      end = (Returned (Some id), trace, n') →
      ∃ i response data,
        (i < S remaining)%nat
        ∧ musicbrainz w (n + i) artist title = Resolved response
        ∧ ok response = true ∧ json response = Some data
        ∧ first_id data = Some id ∧ n' = (n + S i)%nat).
    { intros t1 Hm.
      destruct (search_loop w artist title remaining (S attempt) (S n))
        as [[o t2] n2] eqn:Hrest.
      injection Hm as -> <- ->.
      destruct (IH _ _ _ Hrest) as (i & response & data & Hi & Hr & Hok & Hj & Hid & ->).
      exists (S i), response, data.
      replace (n + S i)%nat with (S n + i)%nat by lia.
      repeat split; try done; lia. }
    assert (Hcaught :
      match caught artist title attempt n with
      | (Returned Continue, t1, n1) =>
          match search_loop w artist title remaining (S attempt) n1 with
          | (o, t2, n2) => (o, t1 ++ t2, n2)
          end
      | (Returned (Return result), t1, n1) => (Returned result, t1 ++ [], n1)
      | (Thrown e, t1, n1) => (Thrown e, t1, n1)
      end = (Returned (Some id), trace, n') →
      ∃ i response data,
        (i < S remaining)%nat
        ∧ musicbrainz w (n + i) artist title = Resolved response
        ∧ ok response = true ∧ json response = Some data
        ∧ first_id data = Some id ∧ n' = (n + S i)%nat).
    { unfold caught. destruct (attempt =? maxRetries)%nat; [discriminate|].
      apply Hnext. }
    destruct (musicbrainz w n artist title) as [e|response] eqn:Hreply;
      [exact (Hcaught Hrun)|].
    destruct (ok response) eqn:Hok.
    + destruct (json response) as [data|] eqn:Hjson; [|exact (Hcaught Hrun)].
      injection Hrun as Hid _ <-.
      exists 0%nat, response, data. rewrite Nat.add_0_r.
      repeat split; try done; lia.
    + destruct ((status response =? 429)%Z && (attempt <? maxRetries)%nat);
        [exact (Hnext _ Hrun)|exact (Hcaught Hrun)].
Qed.

(** X8.  An identifier returned by [searchRecording] is the identifier of
    the first recording in the body of a 2xx reply to one of its at most
    [maxRetries] requests, the last request it issued. *)
Theorem searchRecording_found (w : World) (artist title : string) (n : nat)
    (id : string) (trace : list Event) (n' : nat) :
  searchRecording w artist title n = (Returned (Some id), trace, n') →
  ∃ (i : nat) (response : Response MusicBrainzResponse)
    (data : MusicBrainzResponse),
    (i < maxRetries)%nat
    ∧ musicbrainz w (n + i) artist title = Resolved response
    ∧ ok response = true
    ∧ json response = Some data
    ∧ first_id data = Some id
    ∧ n' = (n + S i)%nat.
Proof. apply search_loop_found. Qed.

Lemma searchRecording_found_witness :
  ∃ (i : nat) (response : Response MusicBrainzResponse)
    (data : MusicBrainzResponse),
    (i < maxRetries)%nat
    ∧ musicbrainz busy_world (0 + i) "Artist" "Title" = Resolved response
    ∧ ok response = true
    ∧ json response = Some data
    ∧ first_id data = Some "mbid-1"
    ∧ 3%nat = (0 + S i)%nat.
Proof.
  apply (searchRecording_found busy_world "Artist" "Title" 0 "mbid-1"
           [Delay 1000; FetchRecording "Artist" "Title"; ConsoleLog; Delay 2000;
            Delay 1000; FetchRecording "Artist" "Title"; ConsoleLog; Delay 4000;
            Delay 1000; FetchRecording "Artist" "Title"]
           3).
  reflexivity.
Defined.

(** ** The pace of the requests *)

Lemma waited_app (t1 t2 : list Event) :
  waited (t1 ++ t2) = (waited t1 + waited t2)%Z.
Proof.
  induction t1 as [|ev t1 IH]; [done|].
  unfold waited in *. cbn [app foldr]. rewrite IH. destruct ev; lia.
Qed.

Lemma looked_up_app (t1 t2 : list Event) :
  looked_up (t1 ++ t2) = looked_up t1 ++ looked_up t2.
Proof. unfold looked_up. apply omap_app. Qed.

Lemma paced_head (trace : list Event) :
  paced trace = true → ∀ artist title rest, trace ≠ FetchRecording artist title :: rest.
Proof. intros Hp artist title rest ->. discriminate. Qed.

Lemma paced_delay_cons (ms : Z) (trace : list Event) :
  paced trace = true → paced (Delay ms :: trace) = true.
Proof.
  intros Hp. destruct trace as [|ev trace]; [done|].
  destruct ev; try done.
Qed.

Lemma paced_app_bounded (k : nat) (t1 t2 : list Event) :
  (length t1 ≤ k)%nat →
  paced t1 = true → paced t2 = true → paced (t1 ++ t2) = true.
Proof.
  revert t1. induction k as [|k IH]; intros t1 Hlen H1 H2.
  - destruct t1; [done|simpl in Hlen; lia].
  - destruct t1 as [|ev t1]; [done|]. simpl in Hlen.
    destruct ev as [ms|artist title|mbid| |].
    2: discriminate.
    2-4: change (paced (t1 ++ t2) = true); change (paced t1 = true) in H1;
         apply IH; [lia|done|done].
    + destruct t1 as [|ev' t1]; [by apply paced_delay_cons|].
      simpl in Hlen.
      destruct ev' as [ms'|artist title|mbid| |].
      * change (paced (Delay ms :: (Delay ms' :: t1) ++ t2) = true).
        apply paced_delay_cons. apply (IH (Delay ms' :: t1)); [simpl; lia|done|done].
      * cbn [paced app] in *. apply andb_true_iff in H1 as [Hms H1].
        rewrite Hms. apply IH; [lia|done|done].
      * change (paced (Delay ms :: (FetchFeatures mbid :: t1) ++ t2) = true).
        apply paced_delay_cons.
        apply (IH (FetchFeatures mbid :: t1)); [simpl; lia|done|done].
      * change (paced (Delay ms :: (ConsoleLog :: t1) ++ t2) = true).
        apply paced_delay_cons.
        apply (IH (ConsoleLog :: t1)); [simpl; lia|done|done].
      * change (paced (Delay ms :: (ConsoleError :: t1) ++ t2) = true).
        apply paced_delay_cons.
        apply (IH (ConsoleError :: t1)); [simpl; lia|done|done].
Qed.

Lemma paced_app (t1 t2 : list Event) :
  paced t1 = true → paced t2 = true → paced (t1 ++ t2) = true.
Proof. by apply (paced_app_bounded (length t1)). Qed.

Lemma waitTime_nonneg (attempt : nat) : (0 ≤ waitTime attempt)%Z.
Proof. unfold waitTime. lia. Qed.

Lemma catchDelay_nonneg (attempt : nat) : (0 ≤ catchDelay attempt)%Z.
Proof. unfold catchDelay. lia. Qed.

(** One turn of the loop of [searchRecording]: its request follows the fixed
    delay, and it spends at least that delay waiting. *)
Lemma search_attempt_pace (w : World) (artist title : string) (attempt n : nat) :
  ∃ step trace,
    search_attempt w artist title attempt n = (Returned step, trace, S n)
    ∧ paced trace = true
    ∧ (RATE_LIMIT_DELAY ≤ waited trace)%Z
    ∧ fetches trace = 1%nat
    ∧ looked_up trace = [].
Proof.
  rewrite search_attempt_run. unfold caught.
  pose proof (waitTime_nonneg attempt). pose proof (catchDelay_nonneg attempt).
  repeat case_match; eexists _, _; (split; [reflexivity|]);
    unfold waited, RATE_LIMIT_DELAY; cbn [foldr paced];
    repeat split; try done; try lia.
Qed.

Lemma search_loop_pace (w : World) (artist title : string)
    (remaining attempt n : nat) :
  ∃ result trace n',
    search_loop w artist title remaining attempt n = (Returned result, trace, n')
    ∧ paced trace = true
    ∧ (RATE_LIMIT_DELAY * Z.of_nat (fetches trace) ≤ waited trace)%Z
    ∧ looked_up trace = [].
Proof.
  revert attempt n. induction remaining as [|remaining IH]; intros attempt n.
  - exists None, [], n. done.
  - destruct (search_attempt_pace w artist title attempt n)
      as (step & t1 & Hrun & Hp1 & Hw1 & Hf1 & Hl1).
    rewrite search_loop_step, Hrun. destruct step as [|result].
    + destruct (IH (S attempt) (S n)) as (result & t2 & n2 & Hrest & Hp2 & Hw2 & Hl2).
      rewrite Hrest. exists result, (t1 ++ t2), n2.
      split; [done|]. split; [by apply paced_app|].
      rewrite waited_app, fetches_app, looked_up_app, Hf1, Hl1, Hl2.
      split; [|done]. unfold RATE_LIMIT_DELAY in *. lia.
    + exists result, (t1 ++ []), (S n). rewrite app_nil_r.
      split; [done|]. split; [done|]. rewrite Hf1, Hl1.
      split; [|done]. unfold RATE_LIMIT_DELAY in *. lia.
Qed.

(** ** The cost of a batch *)

Lemma fetches_split (trace : list Event) :
  fetches trace = (length (searched trace) + length (looked_up trace))%nat.
Proof.
  induction trace as [|ev trace IH]; [done|].
  change (ev :: trace) with ([ev] ++ trace).
  rewrite fetches_app, searched_app, looked_up_app, !length_app, IH.
  destruct ev; cbv [fetches searched looked_up]; simpl; lia.
Qed.

Lemma searchRecording_cost (w : World) (song : Song) (n : nat) :
  ∃ result trace,
    searchRecording w (artist song) (title song) n
      = (Returned result, trace, (n + fetches trace)%nat)
    ∧ paced trace = true
    ∧ (RATE_LIMIT_DELAY * Z.of_nat (length (searched trace)) ≤ waited trace)%Z
    ∧ (1 ≤ length (searched trace) ≤ maxRetries)%nat
    ∧ looked_up trace = [].
Proof.
  destruct (searchRecording_total w (artist song) (title song) n)
    as (result & trace & k & Hrun & Hk & Hf & Hev).
  destruct (search_loop_pace w (artist song) (title song) maxRetries 1 n)
    as (result' & trace' & n' & Hrun' & Hp & Hw & Hl).
  fold (searchRecording w (artist song) (title song)) in Hrun'.
  rewrite Hrun in Hrun'. injection Hrun' as <- <- <-.
  exists result, trace. rewrite Hf. split; [done|].
  rewrite (searched_replicate song trace Hev), length_replicate, Hf.
  rewrite Hf in Hw. done.
Qed.

(** One turn of the loop over the songs, with its cost. *)
Lemma process_song_cost (w : World) (b : Batch) (song : Song) (n : nat) :
  ∃ b' trace,
    process_song w b song n = (Returned b', trace, (n + fetches trace)%nat)
    ∧ count b' = S (count b)
    ∧ paced trace = true
    ∧ (RATE_LIMIT_DELAY * Z.of_nat (length (searched trace)) ≤ waited trace)%Z
    ∧ (1 ≤ length (searched trace) ≤ maxRetries)%nat
    ∧ (length (looked_up trace) ≤ 1)%nat
    ∧ (length (allFeatures b) ≤ length (allFeatures b')
       ≤ length (allFeatures b) + length (looked_up trace))%nat
    ∧ Forall (λ mbid, string_truthy mbid = true) (looked_up trace).
Proof.
  unfold process_song.
  destruct (searchRecording_cost w song n)
    as (mbid & t1 & Hrun & Hp & Hw & Hs & Hl).
  unfold mbind, Async_bind, async_bind. rewrite Hrun.
  assert (Hquiet : ∀ docs,
    ∃ b' trace,
      (Returned {| allFeatures := docs; count := S (count b) |},
       t1 ++ [] ++ [], (n + fetches t1)%nat)
        = (Returned b', trace, (n + fetches trace)%nat)
      ∧ count b' = S (count b)
      ∧ paced trace = true
      ∧ (RATE_LIMIT_DELAY * Z.of_nat (length (searched trace)) ≤ waited trace)%Z
      ∧ (1 ≤ length (searched trace) ≤ maxRetries)%nat
      ∧ (length (looked_up trace) ≤ 1)%nat
      ∧ (length docs ≤ length (allFeatures b')
         ≤ length docs + length (looked_up trace))%nat
      ∧ Forall (λ mbid, string_truthy mbid = true) (looked_up trace)).
  { intros docs. eexists _, t1. simpl. rewrite app_nil_r.
    split; [reflexivity|]. rewrite Hl. simpl.
    repeat split; try done; lia. }
  destruct mbid as [mbid|]; [|apply Hquiet].
  destruct (string_truthy mbid) eqn:Htruthy; [|apply Hquiet].
  rewrite getAudioFeatures_run.
  set (t2 := FetchFeatures mbid
               :: (if features_caught (acousticbrainz w (n + fetches t1) mbid)
                   then [ConsoleError] else [])).
  assert (Ht2 : paced t2 = true ∧ waited t2 = 0%Z ∧ fetches t2 = 1%nat
                ∧ searched t2 = [] ∧ looked_up t2 = [mbid]).
  { unfold t2. by destruct (features_caught _). }
  destruct Ht2 as (Hp2 & Hw2 & Hf2 & Hs2 & Hl2).
  assert (Hfacts : ∀ docs, (length docs ≤ length (allFeatures b) + 1)%nat →
    (length (allFeatures b) ≤ length docs)%nat →
    ∃ b' trace,
      (Returned {| allFeatures := docs; count := S (count b) |},
       t1 ++ (t2 ++ []) ++ [], S (n + fetches t1))
        = (Returned b', trace, (n + fetches trace)%nat)
      ∧ count b' = S (count b)
      ∧ paced trace = true
      ∧ (RATE_LIMIT_DELAY * Z.of_nat (length (searched trace)) ≤ waited trace)%Z
      ∧ (1 ≤ length (searched trace) ≤ maxRetries)%nat
      ∧ (length (looked_up trace) ≤ 1)%nat
      ∧ (length (allFeatures b) ≤ length (allFeatures b')
         ≤ length (allFeatures b) + length (looked_up trace))%nat
      ∧ Forall (λ mbid, string_truthy mbid = true) (looked_up trace)).
  { intros docs Hdocs Hdocs'. eexists _, (t1 ++ t2). rewrite !app_nil_r.
    rewrite fetches_app, Hf2. split; [f_equal; lia|].
    rewrite searched_app, looked_up_app, waited_app, Hs2, Hl2, Hl, Hw2, app_nil_r.
    simpl. repeat split; try done; try lia.
    - by apply paced_app.
    - by constructor. }
  destruct (features_of _) as [f|]; simpl; apply Hfacts;
    rewrite ?length_app; simpl; lia.
Qed.

Lemma for_each_cost (w : World) (songs : list Song) (b : Batch) (n : nat) :
  ∃ b' trace,
    for_each (process_song w) songs b n
      = (Returned b', trace, (n + fetches trace)%nat)
    ∧ count b' = (count b + length songs)%nat
    ∧ paced trace = true
    ∧ (RATE_LIMIT_DELAY * Z.of_nat (length (searched trace)) ≤ waited trace)%Z
    ∧ (length songs ≤ length (searched trace) ≤ maxRetries * length songs)%nat
    ∧ (length (looked_up trace) ≤ length songs)%nat
    ∧ (length (allFeatures b) ≤ length (allFeatures b')
       ≤ length (allFeatures b) + length (looked_up trace))%nat
    ∧ Forall (λ mbid, string_truthy mbid = true) (looked_up trace).
Proof.
  revert b n. induction songs as [|song songs IH]; intros b n.
  - exists b, []. simpl. rewrite !Nat.add_0_r.
    repeat split; try done; lia.
  - destruct (process_song_cost w b song n)
      as (b1 & t1 & Hrun & Hc1 & Hp1 & Hw1 & Hs1 & Hl1 & Hd1 & Ht1).
    destruct (IH b1 (n + fetches t1)%nat)
      as (b2 & t2 & Hrest & Hc2 & Hp2 & Hw2 & Hs2 & Hl2 & Hd2 & Ht2).
    exists b2, (t1 ++ t2). cbn [for_each].
    unfold mbind, Async_bind, async_bind at 1. rewrite Hrun, Hrest.
    rewrite fetches_app, searched_app, looked_up_app, waited_app, !length_app.
    split; [f_equal; lia|]. cbn [length].
    split; [lia|]. split; [by apply paced_app|].
    unfold RATE_LIMIT_DELAY, maxRetries in *.
    repeat split; try lia. by apply Forall_app.
Qed.

(** The run of [extractFeaturesFromSongs], with its cost. *)
Lemma extractFeaturesFromSongs_cost_run (sqrt : Qc → Qc) (w : World)
    (songs : list Song) (n : nat) :
  ∃ (docs : list AcousticBrainzFeatures) (profile : AggregateProfile)
    (trace : list Event),
    extractFeaturesFromSongs sqrt w songs n
      = (Returned {| features := Some profile;
                     processedCount := length (take 500 songs) |},
         trace, (n + fetches trace)%nat)
    ∧ profile = aggregateFeatures sqrt docs
    ∧ paced trace = true
    ∧ (RATE_LIMIT_DELAY * Z.of_nat (length (searched trace)) ≤ waited trace)%Z
    ∧ (length (take 500 songs) ≤ length (searched trace)
       ≤ maxRetries * length (take 500 songs))%nat
    ∧ (length docs ≤ length (looked_up trace) ≤ length (take 500 songs))%nat
    ∧ Forall (λ mbid, string_truthy mbid = true) (looked_up trace).
Proof.
  destruct (for_each_cost w (take 500 songs) {| allFeatures := []; count := 0 |} n)
    as ([docs processed] & trace & Hrun & Hc & Hp & Hw & Hs & Hl & Hd & Ht).
  simpl in Hc, Hd. subst processed.
  exists docs, (aggregateFeatures sqrt docs), (trace ++ [ConsoleLog]).
  assert (Hlog : fetches (trace ++ [ConsoleLog]) = fetches trace
                 ∧ searched (trace ++ [ConsoleLog]) = searched trace
                 ∧ looked_up (trace ++ [ConsoleLog]) = looked_up trace
                 ∧ waited (trace ++ [ConsoleLog]) = waited trace).
  { rewrite fetches_app, searched_app, looked_up_app, waited_app.
    change (fetches [ConsoleLog]) with 0%nat.
    change (searched [ConsoleLog]) with (@nil Song).
    change (looked_up [ConsoleLog]) with (@nil string).
    change (waited [ConsoleLog]) with 0%Z.
    by rewrite !app_nil_r, Nat.add_0_r, Z.add_0_r. }
  destruct Hlog as (-> & -> & -> & ->).
  split.
  - unfold extractFeaturesFromSongs.
    unfold mbind, Async_bind, async_bind at 1. rewrite Hrun. simpl.
    destruct docs as [|doc docs]; [|done].
    simpl. by rewrite aggregateFeatures_nil.
  - split; [done|]. split; [by apply paced_app|].
    repeat split; try done; lia.
Qed.

(** X9.  In every run of [extractFeaturesFromSongs] each search request
    comes right after a wait of [RATE_LIMIT_DELAY], so the run waits at least
    one second per search request and at least [processedCount] seconds in
    all. *)
Theorem extractFeaturesFromSongs_pace (sqrt : Qc → Qc) (w : World)
    (songs : list Song) (n : nat) :
  ∃ (result : Extraction) (trace : list Event) (n' : nat),
    extractFeaturesFromSongs sqrt w songs n = (Returned result, trace, n')
    ∧ paced trace = true
    ∧ (RATE_LIMIT_DELAY * Z.of_nat (length (searched trace)) ≤ waited trace)%Z
    ∧ (RATE_LIMIT_DELAY * Z.of_nat (processedCount result) ≤ waited trace)%Z.
Proof.
  destruct (extractFeaturesFromSongs_cost_run sqrt w songs n)
    as (docs & profile & trace & Hrun & _ & Hp & Hw & Hs & _).
  eexists _, _, _. split; [exact Hrun|]. split; [done|]. split; [done|].
  cbn [processedCount]. unfold RATE_LIMIT_DELAY in *. lia.
Qed.

(** X10.  A run of [extractFeaturesFromSongs] sends at most [maxRetries]
    search requests and at most one feature request per song processed, no
    more feature requests than search requests, hence at most
    [4 * processedCount] requests and at most 2000 in all; it never asks the
    feature service about an empty identifier. *)
Theorem extractFeaturesFromSongs_requests (sqrt : Qc → Qc) (w : World)
    (songs : list Song) (n : nat) :
  ∃ (result : Extraction) (trace : list Event),
    extractFeaturesFromSongs sqrt w songs n
      = (Returned result, trace, (n + fetches trace)%nat)
    ∧ (length (searched trace) ≤ maxRetries * processedCount result)%nat
    ∧ (length (looked_up trace) ≤ processedCount result)%nat
    ∧ (length (looked_up trace) ≤ length (searched trace))%nat
    ∧ (fetches trace ≤ 4 * processedCount result)%nat
    ∧ (fetches trace ≤ 2000)%nat
    ∧ Forall (λ mbid, mbid ≠ EmptyString) (looked_up trace).
Proof.
  destruct (extractFeaturesFromSongs_cost_run sqrt w songs n)
    as (docs & profile & trace & Hrun & _ & _ & _ & Hs & Hl & Ht).
  eexists _, _. split; [exact Hrun|]. cbn [processedCount].
  rewrite fetches_split. rewrite length_take in *. unfold maxRetries in *.
  repeat split; try lia.
  eapply Forall_impl; [exact Ht|]. intros mbid Hm ->. discriminate.
Qed.

(** ** A batch in which nothing resolves *)

Lemma process_song_unresolved (w : World) (b : Batch) (song : Song) (n : nat) :
  (∀ n artist title response data,
     musicbrainz w n artist title = Resolved response →
     ok response = true →
     json response = Some data →
     first_id data = None ∨ first_id data = Some EmptyString) →
  ∃ trace n',
    process_song w b song n
      = (Returned {| allFeatures := allFeatures b; count := S (count b) |},
         trace, n')
    ∧ looked_up trace = [].
Proof.
  intros Hw. unfold process_song.
  destruct (searchRecording_cost w song n)
    as (mbid & t1 & Hrun & _ & _ & _ & Hl).
  unfold mbind, Async_bind, async_bind. rewrite Hrun.
  assert (Hfalsy : mbid = None ∨ mbid = Some EmptyString).
  { destruct mbid as [id|]; [|by left].
    destruct (search_loop_found _ _ _ _ _ _ _ _ _ Hrun)
      as (i & response & data & _ & Hreply & Hok & Hjson & Hid & _).
    destruct (Hw _ _ _ _ _ Hreply Hok Hjson) as [Hnone|Hempty]; [congruence|].
    right. congruence. }
  destruct Hfalsy as [->| ->]; simpl; eexists _, _;
    (split; [reflexivity|]); by rewrite !looked_up_app, Hl.
Qed.

Lemma for_each_unresolved (w : World) (songs : list Song) (b : Batch) (n : nat) :
  (∀ n artist title response data,
     musicbrainz w n artist title = Resolved response →
     ok response = true →
     json response = Some data →
     first_id data = None ∨ first_id data = Some EmptyString) →
  ∃ trace n',
    for_each (process_song w) songs b n
      = (Returned {| allFeatures := allFeatures b;
                     count := (count b + length songs)%nat |},
         trace, n')
    ∧ looked_up trace = [].
Proof.
  intros Hw. revert b n. induction songs as [|song songs IH]; intros b n.
  - exists [], n. simpl. rewrite Nat.add_0_r. by destruct b.
  - destruct (process_song_unresolved w b song n Hw) as (t1 & n1 & Hrun & Hl1).
    destruct (IH {| allFeatures := allFeatures b; count := S (count b) |} n1)
      as (t2 & n2 & Hrest & Hl2).
    exists (t1 ++ t2), n2. cbn [for_each].
    unfold mbind, Async_bind, async_bind at 1. rewrite Hrun, Hrest.
    cbn [allFeatures count length].
    split; [by replace (S (count b) + length songs)%nat
                 with (count b + S (length songs))%nat by lia|].
    by rewrite looked_up_app, Hl1, Hl2.
Qed.

(** X11.  When no reply of the search service carries a recording with a
    non-empty identifier, [extractFeaturesFromSongs] never calls the feature
    service and returns the empty scaffold, with [processedCount] the number
    of songs attempted. *)
Theorem extractFeaturesFromSongs_unresolved (sqrt : Qc → Qc) (w : World)
    (songs : list Song) (n : nat) :
  (∀ n artist title response data,
     musicbrainz w n artist title = Resolved response →
     ok response = true →
     json response = Some data →
     first_id data = None ∨ first_id data = Some EmptyString) →
  ∃ trace n',
    extractFeaturesFromSongs sqrt w songs n
      = (Returned {| features := Some emptyFeatures;
                     processedCount := (length songs `min` 500)%nat |},
         trace, n')
    ∧ looked_up trace = [].
Proof.
  intros Hw.
  destruct (for_each_unresolved w (take 500 songs)
              {| allFeatures := []; count := 0 |} n Hw)
    as (trace & n' & Hrun & Hl).
  exists (trace ++ [ConsoleLog]), n'. unfold extractFeaturesFromSongs.
  unfold mbind, Async_bind, async_bind at 1. rewrite Hrun.
  cbn [allFeatures count length Nat.eqb]. simpl.
  rewrite length_take, looked_up_app, Hl, (Nat.min_comm 500). done.
Qed.

Lemma extractFeaturesFromSongs_unresolved_witness :
  ∃ trace n',
    extractFeaturesFromSongs sample_sqrt silent_world
      [ {| artist := "A"; title := "one" |}; {| artist := "B"; title := "two" |} ]
      0%nat
      = (Returned {| features := Some emptyFeatures;
                     processedCount := (2 `min` 500)%nat |},
         trace, n')
    ∧ looked_up trace = [].
Proof.
  apply (extractFeaturesFromSongs_unresolved sample_sqrt silent_world
           [ {| artist := "A"; title := "one" |};
             {| artist := "B"; title := "two" |} ] 0).
  intros n artist title response data Hreply _ Hjson.
  injection Hreply as <-. injection Hjson as <-. by left.
Defined.

(** ** A batch in which everything resolves *)

Lemma process_song_found (w : World) (b : Batch) (song : Song) (n : nat) :
  all_found w →
  ∃ (features : AcousticBrainzFeatures) (trace : list Event),
    process_song w b song n
      = (Returned {| allFeatures := allFeatures b ++ [features];
                     count := S (count b) |},
         trace, S (S n))
    ∧ waited trace = RATE_LIMIT_DELAY
    ∧ fetches trace = 2%nat.
Proof.
  intros [Hsearch Hfeatures].
  destruct (Hsearch n (artist song) (title song))
    as (response & data & id & Hreply & Hok & Hjson & Hid & Htruthy).
  destruct (Hfeatures (S n) id) as (response' & features & Hreply' & Hok' & Hjson').
  exists features. unfold process_song.
  unfold mbind, Async_bind, async_bind.
  unfold searchRecording, maxRetries.
  rewrite search_loop_step, search_attempt_run, Hreply, Hok, Hjson, Hid, Htruthy.
  rewrite getAudioFeatures_run, Hreply'.
  unfold features_of, features_caught. rewrite Hok', Hjson'.
  rewrite bool_decide_false by done.
  eexists. split; [reflexivity|]. done.
Qed.

Lemma for_each_found (w : World) (songs : list Song) (b : Batch) (n : nat) :
  all_found w →
  ∃ (docs : list AcousticBrainzFeatures) (trace : list Event),
    for_each (process_song w) songs b n
      = (Returned {| allFeatures := allFeatures b ++ docs;
                     count := (count b + length songs)%nat |},
         trace, (n + 2 * length songs)%nat)
    ∧ length docs = length songs
    ∧ waited trace = (RATE_LIMIT_DELAY * Z.of_nat (length songs))%Z
    ∧ fetches trace = (2 * length songs)%nat.
Proof.
  intros Hw. revert b n. induction songs as [|song songs IH]; intros b n.
  - exists [], []. simpl. rewrite app_nil_r, !Nat.add_0_r. by destruct b.
  - destruct (process_song_found w b song n Hw) as (f & t1 & Hrun & Hw1 & Hf1).
    destruct (IH {| allFeatures := allFeatures b ++ [f]; count := S (count b) |}
                 (S (S n))) as (docs & t2 & Hrest & Hlen & Hw2 & Hf2).
    exists (f :: docs), (t1 ++ t2). cbn [for_each].
    unfold mbind, Async_bind, async_bind at 1. rewrite Hrun, Hrest.
    cbn [allFeatures count length].
    rewrite <-(assoc_L (++)), waited_app, fetches_app, Hw1, Hw2, Hf1, Hf2, Hlen.
    replace (S (count b) + length songs)%nat
      with (count b + S (length songs))%nat by lia.
    replace (S (S n) + 2 * length songs)%nat
      with (n + 2 * S (length songs))%nat by lia.
    split; [done|]. unfold RATE_LIMIT_DELAY.
    repeat split; lia.
Qed.

Lemma rich_world_all_found : all_found rich_world.
Proof.
  split.
  - intros n artist title. by eexists _, _, _.
  - intros n mbid. by eexists _, _.
Qed.

(** ** The documents of a batch *)

Lemma recovered_app (w : World) (n : nat) (t1 t2 : list Event) :
  recovered w n (t1 ++ t2)
    = recovered w n t1 ++ recovered w (n + fetches t1) t2.
Proof.
  revert n. induction t1 as [|ev t1 IH]; intros n.
  - simpl. by rewrite Nat.add_0_r.
  - replace (fetches (ev :: t1)) with (fetches [ev] + fetches t1)%nat
      by (by rewrite <-fetches_app).
    destruct ev as [ms|artist title|mbid| |]; cbn [app recovered];
      rewrite IH.
    + change (fetches [Delay ms]) with 0%nat. done.
    + change (fetches [FetchRecording artist title]) with 1%nat.
      by replace (n + (1 + fetches t1))%nat with (S n + fetches t1)%nat by lia.
    + change (fetches [FetchFeatures mbid]) with 1%nat.
      replace (n + (1 + fetches t1))%nat with (S n + fetches t1)%nat by lia.
      by destruct (features_of (acousticbrainz w n mbid)).
    + change (fetches [ConsoleLog]) with 0%nat. done.
    + change (fetches [ConsoleError]) with 0%nat. done.
Qed.

(** The requests of [searchRecording] recover no document. *)
Lemma recovered_searches (w : World) (artist title : string) (n : nat)
    (trace : list Event) :
  Forall (λ ev, is_fetch ev = true → ev = FetchRecording artist title) trace →
  recovered w n trace = [].
Proof.
  intros Hev. revert n. induction Hev as [|ev trace Hfetch Hev IH]; intros n;
    [done|].
  destruct ev as [ms|artist' title'|mbid| |]; cbn [recovered]; try apply IH.
  by specialize (Hfetch eq_refl).
Qed.

(** One turn of the loop over the songs appends the document that the
    feature service returned in it, if any. *)
Lemma process_song_recovered (w : World) (b : Batch) (song : Song) (n : nat) :
  ∃ b' trace,
    process_song w b song n = (Returned b', trace, (n + fetches trace)%nat)
    ∧ allFeatures b' = allFeatures b ++ recovered w n trace.
Proof.
  unfold process_song.
  destruct (searchRecording_total w (artist song) (title song) n)
    as (mbid & t1 & k & Hrun & _ & Hf & Hev).
  apply (recovered_searches w _ _ n) in Hev.
  unfold mbind, Async_bind, async_bind. rewrite Hrun.
  assert (Hquiet :
    ∃ b' trace,
      (Returned {| allFeatures := allFeatures b; count := S (count b) |},
       t1 ++ [] ++ [], (n + k)%nat)
        = (Returned b', trace, (n + fetches trace)%nat)
      ∧ allFeatures b' = allFeatures b ++ recovered w n trace).
  { eexists _, t1. simpl. rewrite !app_nil_r, Hf, Hev.
    split; [reflexivity|]. by rewrite app_nil_r. }
  destruct mbid as [mbid|]; [|exact Hquiet].
  destruct (string_truthy mbid); [|exact Hquiet].
  rewrite getAudioFeatures_run.
  set (t2 := FetchFeatures mbid
               :: (if features_caught (acousticbrainz w (n + k) mbid)
                   then [ConsoleError] else [])).
  assert (Ht2 : fetches t2 = 1%nat
                ∧ recovered w (n + k) t2
                  = match features_of (acousticbrainz w (n + k) mbid) with
                    | Some features => [features]
                    | None => []
                    end).
  { unfold t2. split; [by destruct (features_caught _)|].
    cbn [recovered].
    destruct (features_of (acousticbrainz w (n + k) mbid));
      by destruct (features_caught _). }
  destruct Ht2 as [Hf2 Hr2].
  destruct (features_of (acousticbrainz w (n + k) mbid)) as [features|];
    simpl; rewrite !app_nil_r; fold t2; eexists _, (t1 ++ t2);
    rewrite fetches_app, recovered_app, Hf, Hf2, Hev, Hr2;
    replace (n + (k + 1))%nat with (S (n + k)) by lia;
    (split; [reflexivity|]); cbn [allFeatures app]; by rewrite ?app_nil_r.
Qed.

Lemma for_each_recovered (w : World) (songs : list Song) (b : Batch) (n : nat) :
  ∃ b' trace,
    for_each (process_song w) songs b n
      = (Returned b', trace, (n + fetches trace)%nat)
    ∧ allFeatures b' = allFeatures b ++ recovered w n trace.
Proof.
  revert b n. induction songs as [|song songs IH]; intros b n.
  - exists b, []. simpl. by rewrite Nat.add_0_r, app_nil_r.
  - destruct (process_song_recovered w b song n) as (b1 & t1 & Hrun & Hdocs).
    destruct (IH b1 (n + fetches t1)%nat) as (b2 & t2 & Hrest & Hdocs2).
    exists b2, (t1 ++ t2). cbn [for_each].
    unfold mbind, Async_bind, async_bind at 1. rewrite Hrun, Hrest.
    rewrite fetches_app, recovered_app, Hdocs2, Hdocs, <-(assoc_L (++)).
    by rewrite (assoc_L Nat.add).
Qed.

(** X16.  The profile that [extractFeaturesFromSongs] returns is the
    aggregate of exactly the documents that the feature service returned in
    the run, in the order of the requests; and when every search finds a
    recording at once and every recording has features, the run recovers one
    document for every search request it sent. *)
Theorem extractFeaturesFromSongs_recovered (sqrt : Qc → Qc) (w : World)
    (songs : list Song) (n : nat) :
  ∃ (result : Extraction) (trace : list Event) (n' : nat),
    extractFeaturesFromSongs sqrt w songs n = (Returned result, trace, n')
    ∧ features result = Some (aggregateFeatures sqrt (recovered w n trace))
    ∧ (all_found w →
       length (recovered w n trace) = length (searched trace)
       ∧ length (looked_up trace) = length (searched trace)).
Proof.
  destruct (for_each_recovered w (take 500 songs)
              {| allFeatures := []; count := 0 |} n)
    as (b & trace & Hrun & Hdocs).
  cbn [allFeatures app] in Hdocs.
  assert (Hlog : recovered w n (trace ++ [ConsoleLog]) = recovered w n trace
                 ∧ searched (trace ++ [ConsoleLog]) = searched trace
                 ∧ looked_up (trace ++ [ConsoleLog]) = looked_up trace).
  { rewrite recovered_app, searched_app, looked_up_app.
    change (recovered w (n + fetches trace) [ConsoleLog])
      with (@nil AcousticBrainzFeatures).
    change (searched [ConsoleLog]) with (@nil Song).
    change (looked_up [ConsoleLog]) with (@nil string).
    by rewrite !app_nil_r. }
  destruct Hlog as (Hlog1 & Hlog2 & Hlog3).
  exists {| features :=
              Some (if (length (allFeatures b) =? 0)%nat
                    then emptyFeatures
                    else aggregateFeatures sqrt (allFeatures b));
            processedCount := count b |},
         (trace ++ [ConsoleLog]), (n + fetches trace)%nat.
  split; [|split].
  - unfold extractFeaturesFromSongs.
    unfold mbind, Async_bind, async_bind at 1. rewrite Hrun.
    by destruct (length (allFeatures b) =? 0)%nat.
  - cbn [features]. rewrite Hlog1, <-Hdocs.
    destruct (allFeatures b) as [|doc docs] eqn:Hb; [|done].
    simpl. by rewrite aggregateFeatures_nil.
  - intros Hw. rewrite Hlog1, Hlog2, Hlog3, <-Hdocs.
    destruct (for_each_found w (take 500 songs)
                {| allFeatures := []; count := 0 |} n Hw)
      as (docs & trace' & Hrun' & Hlen & Hwait & Hf).
    rewrite Hrun in Hrun'. injection Hrun' as -> <- _.
    destruct (for_each_cost w (take 500 songs)
                {| allFeatures := []; count := 0 |} n)
      as (b' & trace' & Hrun' & _ & _ & Hpace & Hs & Hl & _).
    rewrite Hrun in Hrun'. injection Hrun' as _ <- _.
    rewrite fetches_split in Hf. cbn [allFeatures app].
    rewrite Hwait in Hpace. unfold maxRetries, RATE_LIMIT_DELAY in *. lia.
Qed.

Example extractFeaturesFromSongs_two_found :
  ∃ (trace : list Event),
    extractFeaturesFromSongs sample_sqrt rich_world
        [ {| artist := "A"; title := "one" |}; {| artist := "B"; title := "two" |} ]
        0%nat
      = (Returned {| features :=
                       Some (aggregateFeatures sample_sqrt
                               [bpm_doc (q 120); bpm_doc (q 120)]);
                     processedCount := 2 |},
         trace, 4%nat)
    ∧ recovered rich_world 0 trace = [bpm_doc (q 120); bpm_doc (q 120)]
    ∧ searched trace
      = [ {| artist := "A"; title := "one" |}; {| artist := "B"; title := "two" |} ]
    ∧ looked_up trace = ["mbid-1"; "mbid-1"].
Proof. eexists. repeat split. Qed.

(** * Part VI: the storage and the routes *)

(** ** The map *)

Lemma map_get_set {V : Type} (k k' : string) (v : V) (m : JsMap V) :
  map_get k' (map_set k v m) = if decide (k = k') then Some v else map_get k' m.
Proof.
  induction m as [|[k0 v0] m IH]; simpl.
  - repeat case_decide; congruence.
  - repeat (case_decide; simpl); try congruence.
Qed.

Lemma map_get_None {V : Type} (k : string) (m : JsMap V) :
  map_get k m = None ↔ k ∉ m.*1.
Proof.
  induction m as [|[k0 v0] m IH]; simpl.
  - split; [intros _; apply not_elem_of_nil|done].
  - case_decide as Hk; subst.
    + split; [done|]. intros Hnot. exfalso. apply Hnot. by left.
    + rewrite IH, not_elem_of_cons.
      split; [intros Hnot; split; [congruence|done]|by intros [_ Hnot]].
Qed.

Lemma map_get_Some {V : Type} (k : string) (v : V) (m : JsMap V) :
  NoDup m.*1 → map_get k m = Some v ↔ (k, v) ∈ m.
Proof.
  induction m as [|[k0 v0] m IH]; intros Hnodup; simpl.
  - split; [done|]. intros Hin. by apply elem_of_nil in Hin.
  - apply NoDup_cons in Hnodup as [Hk0 Hnodup].
    rewrite elem_of_cons. case_decide as Hk; subst.
    + split; [intros [= ->]; by left|].
      intros [[= ->]|Hin]; [done|].
      exfalso. apply Hk0. apply list_elem_of_fmap. by exists (k, v).
    + rewrite (IH Hnodup). split; [by right|].
      intros [[= -> ->]|Hin]; done.
Qed.

(** [set] on a new key appends. *)
Lemma map_set_fresh {V : Type} (k : string) (v : V) (m : JsMap V) :
  k ∉ m.*1 → map_set k v m = m ++ [(k, v)].
Proof.
  induction m as [|[k0 v0] m IH]; intros Hk; [done|].
  simpl in *. apply not_elem_of_cons in Hk as [Hne Hk].
  case_decide; [congruence|]. by rewrite IH.
Qed.

(** [set] on a key already present replaces its value where it stands. *)
Lemma map_set_present {V : Type} (k : string) (v v0 : V) (m1 m2 : JsMap V) :
  k ∉ m1.*1 → map_set k v (m1 ++ (k, v0) :: m2) = m1 ++ (k, v) :: m2.
Proof.
  induction m1 as [|[k1 v1] m1 IH]; intros Hk; simpl.
  - by case_decide.
  - simpl in Hk. apply not_elem_of_cons in Hk as [Hne Hk].
    case_decide; [congruence|]. by rewrite IH.
Qed.

Lemma map_set_keys {V : Type} (k : string) (v : V) (m : JsMap V) :
  (map_set k v m).*1 = if decide (k ∈ m.*1) then m.*1 else m.*1 ++ [k].
Proof.
  induction m as [|[k0 v0] m IH].
  - rewrite decide_False by apply not_elem_of_nil. done.
  - cbn [map_set]. destruct (decide (k0 = k)) as [->|Hne].
    + rewrite decide_True by (by left). done.
    + rewrite !fmap_cons, IH. cbn [fst].
      destruct (decide (k ∈ m.*1)) as [Hin|Hnot].
      * rewrite decide_True by (by right). done.
      * rewrite decide_False; [done|].
        apply not_elem_of_cons. split; [congruence|done].
Qed.

(** ** The storage *)

Lemma map_set_Forall {V : Type} (P : string * V → Prop) (k : string) (v : V)
    (m : JsMap V) :
  Forall P m → P (k, v) → Forall P (map_set k v m).
Proof.
  intros Hm Hkv. induction Hm as [|[k0 v0] m H0 Hm IH]; simpl.
  - by constructor.
  - case_decide; constructor; done.
Qed.

Lemma map_set_NoDup {V : Type} (k : string) (v : V) (m : JsMap V) :
  NoDup m.*1 → NoDup (map_set k v m).*1.
Proof.
  intros Hm. rewrite map_set_keys. case_decide as Hin; [done|].
  apply NoDup_app. split; [done|]. split.
  - intros x Hx Hx'. apply list_elem_of_singleton in Hx'. by subst.
  - apply NoDup_singleton.
Qed.

Lemma map_get_elem_of {V : Type} (k : string) (v : V) (m : JsMap V) :
  map_get k m = Some v → (k, v) ∈ m.
Proof.
  induction m as [|[k0 v0] m IH]; simpl; [done|].
  case_decide; subst.
  - intros [= ->]. by left.
  - intros Hget. right. by apply IH.
Qed.

Lemma songLists_wf_id (st : MemStorage) (id : string) (songList : SongList) :
  songLists_wf st → getSongList id st = Some songList → songlist_id songList = id.
Proof.
  intros [_ Hids] Hget. apply map_get_elem_of in Hget.
  rewrite Forall_forall in Hids. apply (Hids _ Hget).
Qed.

Lemma updateSongListFeatures_run (id : string) (features : AggregateProfile)
    (st : MemStorage) :
  updateSongListFeatures id features st =
    match getSongList id st with
    | None => (None, st)
    | Some songList =>
        (Some (with_features songList features),
         set_songLists
           (map_set id (with_features songList features) (songLists st)) st)
    end.
Proof. reflexivity. Qed.

(** X12.  The storage keeps every song list under the key of its own id,
    with no key twice: the empty storage is so, and [createSession],
    [createSongList] and [updateSongListFeatures] keep it so. *)
Theorem songLists_wf_invariant :
  songLists_wf empty_storage
  ∧ ∀ (st : MemStorage) (id : string) (now : Z) (sessionId : string)
      (songs : list Song) (features : AggregateProfile),
      songLists_wf st →
      songLists_wf (createSession id now st).2
      ∧ songLists_wf (createSongList id now sessionId songs st).2
      ∧ songLists_wf (updateSongListFeatures id features st).2.
Proof.
  split.
  { split; [apply NoDup_nil_2|constructor]. }
  intros st id now sessionId songs features Hwf.
  split; [exact Hwf|]. split.
  - destruct Hwf as [Hnodup Hids]. split; simpl.
    + by apply map_set_NoDup.
    + by apply map_set_Forall.
  - rewrite updateSongListFeatures_run.
    destruct (getSongList id st) as [songList|] eqn:Hget; [|exact Hwf].
    pose proof (songLists_wf_id st id songList Hwf Hget) as Hid.
    destruct Hwf as [Hnodup Hids]. split; simpl.
    + by apply map_set_NoDup.
    + by apply map_set_Forall.
Qed.

(** X13.  [updateSongListFeatures] on an id that is not stored returns
    [undefined] and changes nothing; on a stored id it returns the list with
    the features set, which [getSongList] then finds, and leaves every other
    list, the order of the lists and the sessions as they were. *)
Theorem updateSongListFeatures_spec (id : string) (features : AggregateProfile)
    (st : MemStorage) :
  (getSongList id st = None →
     updateSongListFeatures id features st = (None, st))
  ∧ (∀ songList : SongList,
       getSongList id st = Some songList →
       (updateSongListFeatures id features st).1
         = Some (with_features songList features)
       ∧ getSongList id (updateSongListFeatures id features st).2
         = Some (with_features songList features)
       ∧ (∀ id' : string, id' ≠ id →
            getSongList id' (updateSongListFeatures id features st).2
              = getSongList id' st)
       ∧ (songLists (updateSongListFeatures id features st).2).*1
           = (songLists st).*1
       ∧ sessions (updateSongListFeatures id features st).2 = sessions st).
Proof.
  rewrite updateSongListFeatures_run. split.
  - by intros ->.
  - intros songList Hget. rewrite Hget. cbn [fst snd].
    split; [done|]. unfold getSongList in *. cbn [songLists sessions set_songLists].
    split; [by rewrite map_get_set, decide_True|].
    split.
    + intros id' Hne. by rewrite map_get_set, decide_False.
    + split; [|done]. rewrite map_set_keys, decide_True; [done|].
      apply map_get_elem_of in Hget.
      apply list_elem_of_fmap. by exists (id, songList).
Qed.

(** ** The routes *)

Lemma filter_snoc_last {A : Type} (P : A → Prop) `{∀ x, Decision (P x)}
    (l : list A) (x : A) :
  P x → last (filter P (l ++ [x])) = Some x.
Proof.
  intros Hx. rewrite filter_app, filter_cons_True by done.
  rewrite filter_nil. apply last_snoc.
Qed.

(** X14.  [POST /api/process-list]: a body that does not parse gives 500
    and a session that is not stored gives 404, both leaving the storage as
    it was and scheduling nothing; otherwise, the id being new, the song
    list is stored without features, the extraction is scheduled for it, the
    response is 200 with the number of songs, and the status of the session
    reads "processing" for this list. *)
Theorem process_list_spec (id : string) (now : Z) (st : MemStorage) :
  process_list None id now st
    = ({| http_status := 500;
          http_body := ErrorBody "Failed to process song list" |}, st, None)
  ∧ (∀ (sessionId : string) (songs : list Song),
       getSession sessionId st = None →
       process_list (Some (sessionId, songs)) id now st
         = ({| http_status := 404; http_body := ErrorBody "Session not found" |},
            st, None))
  ∧ (∀ (sessionId : string) (songs : list Song) (session : Session),
       getSession sessionId st = Some session →
       id ∉ (songLists st).*1 →
       ∃ st' : MemStorage,
         process_list (Some (sessionId, songs)) id now st
           = ({| http_status := 200;
                 http_body :=
                   ProcessingStarted id "Processing started" (length songs) |},
              st',
              Some {| scheduled_songListId := id; scheduled_songs := songs |})
         ∧ getSongList id st'
             = Some {| songlist_id := id;
                       songlist_sessionId := sessionId;
                       songlist_songs := songs;
                       songlist_features := None;
                       songlist_createdAt := now |}
         ∧ processing_status sessionId st'
             = {| http_status := 200;
                  http_body :=
                    ProcessingStatus "processing" id (length songs) false |}).
Proof.
  split; [done|]. split.
  - intros sessionId songs Hnone. unfold process_list. by rewrite Hnone.
  - intros sessionId songs session Hsession Hfresh.
    unfold process_list. rewrite Hsession. cbn [createSongList songlist_id].
    eexists. split; [reflexivity|].
    unfold getSongList, processing_status, getSongListsBySession, map_values.
    cbn [songLists set_songLists]. split.
    + by rewrite map_get_set, decide_True.
    + rewrite map_set_fresh by done. rewrite fmap_app. cbn [fmap list_fmap snd].
      rewrite filter_snoc_last by done. done.
Qed.

Lemma songLists_latest_split (st : MemStorage) (sessionId : string)
    (earlier : list SongList) (songList : SongList) :
  songLists_wf st →
  getSongListsBySession sessionId st = earlier ++ [songList] →
  ∃ m1 m2 : JsMap SongList,
    songLists st = m1 ++ (songlist_id songList, songList) :: m2
    ∧ (songlist_id songList ∉ m1.*1)
    ∧ songlist_sessionId songList = sessionId
    ∧ filter (λ sl, songlist_sessionId sl = sessionId) m1.*2 = earlier
    ∧ filter (λ sl, songlist_sessionId sl = sessionId) m2.*2 = [].
Proof.
  intros [Hnodup Hids] Hlists.
  unfold getSongListsBySession, map_values in Hlists.
  assert (Hin : songList ∈ filter (λ sl, songlist_sessionId sl = sessionId)
                              (songLists st).*2).
  { rewrite Hlists. apply elem_of_app. right. by left. }
  apply list_elem_of_filter in Hin as [Hsession Hin].
  apply list_elem_of_fmap in Hin as ([k sl] & Hsl & Hin). simpl in Hsl. subst sl.
  assert (Hk : songlist_id songList = k).
  { rewrite Forall_forall in Hids. apply (Hids _ Hin). }
  subst k.
  apply list_elem_of_split in Hin as (m1 & m2 & Hsplit).
  rewrite Hsplit in Hnodup, Hids, Hlists.
  rewrite fmap_app, fmap_cons in Hnodup. cbn [fst] in Hnodup.
  apply NoDup_app in Hnodup as (_ & Hm1 & Hm2).
  apply NoDup_cons in Hm2 as [Hm2 _].
  exists m1, m2. split; [done|]. split.
  { intros Hin1. apply (Hm1 _ Hin1). by left. }
  split; [done|].
  rewrite fmap_app, fmap_cons, filter_app, filter_cons_True in Hlists by done.
  cbn [snd] in Hlists.
  destruct (filter (λ sl, songlist_sessionId sl = sessionId) m2.*2)
    as [|y rest] eqn:Hrest using rev_ind.
  - split; [|done]. rewrite (assoc_L (++) _ [songList] []), app_nil_r in Hlists.
    by apply app_inj_tail in Hlists as [-> _].
  - exfalso. clear IHrest.
    change (songList :: rest ++ [y]) with ((songList :: rest) ++ [y]) in Hlists.
    rewrite (assoc_L (++)) in Hlists.
    apply app_inj_tail in Hlists as [_ ->].
    assert (Hy : songList ∈ filter (λ sl, songlist_sessionId sl = sessionId) m2.*2).
    { rewrite Hrest. apply elem_of_app. right. by left. }
    apply list_elem_of_filter in Hy as [_ Hy].
    apply list_elem_of_fmap in Hy as ([k sl] & Hsl & Hy). simpl in Hsl. subst sl.
    rewrite Forall_app, Forall_cons in Hids. destruct Hids as (_ & _ & Hids2).
    rewrite Forall_forall in Hids2. pose proof (Hids2 _ Hy) as Hk. simpl in Hk.
    subst k. apply Hm2. apply list_elem_of_fmap. by exists (songlist_id songList, songList).
Qed.

(** X15.  The task scheduled by [POST /api/process-list] always completes
    its song list: whatever the two services answer, when the list of the
    task is still the latest of its session the task stores the profile that
    [extractFeaturesFromSongs] returned in it, and the status of the session
    then reads "completed". *)
Theorem process_list_task_completes (sqrt : Qc → Qc) (w : World)
    (task : Scheduled) (st : MemStorage) (n : nat) (sessionId : string)
    (earlier : list SongList) (songList : SongList) :
  songLists_wf st →
  getSongListsBySession sessionId st = earlier ++ [songList] →
  songlist_id songList = scheduled_songListId task →
  ∃ (profile : AggregateProfile) (processed : nat) (st' : MemStorage)
    (trace : list Event) (n' : nat),
    extractFeaturesFromSongs sqrt w (scheduled_songs task) n
      = (Returned {| features := Some profile; processedCount := processed |},
         trace, n')
    ∧ process_list_task sqrt w task st n
      = (Returned st', trace ++ [ConsoleLog], n')
    ∧ getSongListsBySession sessionId st'
      = earlier ++ [with_features songList profile]
    ∧ processing_status sessionId st'
      = {| http_status := 200;
           http_body :=
             ProcessingStatus "completed" (songlist_id songList)
                              (length (songlist_songs songList)) true |}.
Proof.
  intros Hwf Hlists Hid.
  destruct (songLists_latest_split st sessionId earlier songList Hwf Hlists)
    as (m1 & m2 & Hsplit & Hm1 & Hsession & Hearlier & Hlater).
  destruct (extractFeaturesFromSongs_run sqrt w (scheduled_songs task) n)
    as (b & t & n' & _ & _ & _ & Hrun).
  set (profile := if (length (allFeatures b) =? 0)%nat
                  then emptyFeatures
                  else aggregateFeatures sqrt (allFeatures b)) in *.
  assert (Hget : getSongList (scheduled_songListId task) st = Some songList).
  { unfold getSongList. rewrite Hsplit, <-Hid. clear -Hm1.
    induction m1 as [|[k v] m1 IH]; simpl.
    - by rewrite decide_True.
    - simpl in Hm1. apply not_elem_of_cons in Hm1 as [Hne Hm1].
      rewrite decide_False by congruence. by apply IH. }
  exists profile, (count b).
  exists (set_songLists (m1 ++ (songlist_id songList,
                                with_features songList profile) :: m2) st).
  exists (t ++ [ConsoleLog]), n'.
  split; [exact Hrun|]. split.
  - unfold process_list_task, try_catch.
    unfold mbind, Async_bind, async_bind at 1. rewrite Hrun.
    cbn [features]. rewrite updateSongListFeatures_run, Hget. cbn [snd].
    rewrite <-Hid, Hsplit, map_set_present by done. done.
  - assert (Hnew : getSongListsBySession sessionId
        (set_songLists (m1 ++ (songlist_id songList,
                               with_features songList profile) :: m2) st)
        = earlier ++ [with_features songList profile]).
    { unfold getSongListsBySession, map_values. cbn [songLists set_songLists].
      rewrite fmap_app, fmap_cons, filter_app, filter_cons_True by done.
      cbn [snd]. by rewrite Hearlier, Hlater. }
    split; [done|]. unfold processing_status. rewrite Hnew, last_snoc. done.
Qed.

Lemma process_list_task_completes_witness :
  ∃ (profile : AggregateProfile) (processed : nat) (st' : MemStorage)
    (trace : list Event) (n' : nat),
    extractFeaturesFromSongs sample_sqrt silent_world
        [ {| artist := "A"; title := "one" |} ] 0%nat
      = (Returned {| features := Some profile; processedCount := processed |},
         trace, n')
    ∧ process_list_task sample_sqrt silent_world
        {| scheduled_songListId := "l1";
           scheduled_songs := [ {| artist := "A"; title := "one" |} ] |}
        waiting_storage 0%nat
      = (Returned st', trace ++ [ConsoleLog], n')
    ∧ getSongListsBySession "s1" st'
      = [] ++ [with_features
                 {| songlist_id := "l1";
                    songlist_sessionId := "s1";
                    songlist_songs := [ {| artist := "A"; title := "one" |} ];
                    songlist_features := None;
                    songlist_createdAt := 2 |} profile]
    ∧ processing_status "s1" st'
      = {| http_status := 200;
           http_body := ProcessingStatus "completed" "l1" 1 true |}.
Proof.
  apply (process_list_task_completes sample_sqrt silent_world
           {| scheduled_songListId := "l1";
              scheduled_songs := [ {| artist := "A"; title := "one" |} ] |}
           waiting_storage 0 "s1" []
           {| songlist_id := "l1";
              songlist_sessionId := "s1";
              songlist_songs := [ {| artist := "A"; title := "one" |} ];
              songlist_features := None;
              songlist_createdAt := 2 |}).
  - split; [apply NoDup_singleton|by repeat constructor].
  - reflexivity.
  - reflexivity.
Defined.

Example process_list_then_status :
  process_list (Some ("s1", [ {| artist := "A"; title := "one" |} ])) "l1" 2
    {| sessions := [("s1", {| session_id := "s1"; session_createdAt := 1 |})];
       songLists := [];
       recommendations := [];
       feedback := [];
       playlists := [] |}
    = ({| http_status := 200;
          http_body := ProcessingStarted "l1" "Processing started" 1 |},
       waiting_storage,
       Some {| scheduled_songListId := "l1";
               scheduled_songs := [ {| artist := "A"; title := "one" |} ] |})
  ∧ processing_status "s1" waiting_storage
    = {| http_status := 200;
         http_body := ProcessingStatus "processing" "l1" 1 false |}
  ∧ processing_status "s2" waiting_storage
    = {| http_status := 200; http_body := NoProcessing |}.
Proof. repeat split; reflexivity. Qed.

(** ** The playlist *)

Lemma set_playlists_same (st : MemStorage) : set_playlists (playlists st) st = st.
Proof. by destruct st. Qed.

(** [delete] takes out the entry of the key and keeps the order of the
    others. *)
Lemma map_delete_split {V : Type} (k : string) (v : V) (m1 m2 : JsMap V) :
  k ∉ m1.*1 → map_delete k (m1 ++ (k, v) :: m2) = m1 ++ m2.
Proof.
  induction m1 as [|[k1 v1] m1 IH]; intros Hk; simpl.
  - by rewrite decide_True.
  - simpl in Hk. apply not_elem_of_cons in Hk as [Hne Hk].
    rewrite decide_False by congruence. by rewrite IH.
Qed.

Lemma remove_first_none (sessionId recommendationId : string)
    (entries : list (string * Playlist)) (m : JsMap Playlist) :
  Forall (λ item, ¬ row_of sessionId recommendationId item) entries.*2 →
  remove_first sessionId recommendationId entries m = m.
Proof.
  induction entries as [|[id item] entries IH]; intros Hnone; [done|].
  rewrite fmap_cons, Forall_cons in Hnone. destruct Hnone as [Hitem Hnone].
  cbn [remove_first]. rewrite bool_decide_eq_false_2 by exact Hitem.
  by apply IH.
Qed.

Lemma remove_first_split (sessionId recommendationId id : string)
    (item : Playlist) (m1 m2 : list (string * Playlist)) (m : JsMap Playlist) :
  Forall (λ item, ¬ row_of sessionId recommendationId item) m1.*2 →
  row_of sessionId recommendationId item →
  remove_first sessionId recommendationId (m1 ++ (id, item) :: m2) m
    = map_delete id m.
Proof.
  induction m1 as [|[id1 item1] m1 IH]; intros Hnone Hitem.
  - cbn [app remove_first]. by rewrite bool_decide_eq_true_2.
  - rewrite fmap_cons, Forall_cons in Hnone. destruct Hnone as [Hitem1 Hnone].
    cbn [app remove_first]. rewrite bool_decide_eq_false_2 by exact Hitem1.
    by apply IH.
Qed.

(** X20.  [removeFromPlaylist] deletes one row at most: when no row of the
    playlist map is of the session and the recommendation the storage stays
    as it is, otherwise the first such row is deleted and every other row,
    a later row of the same session and recommendation included, stays where
    it is. *)
Theorem removeFromPlaylist_first_row (sessionId recommendationId : string)
    (st : MemStorage) :
  NoDup (playlists st).*1 →
  (Forall (λ item, ¬ row_of sessionId recommendationId item) (playlists st).*2 →
     removeFromPlaylist sessionId recommendationId st = st)
  ∧ (∀ (m1 m2 : JsMap Playlist) (id : string) (item : Playlist),
       playlists st = m1 ++ (id, item) :: m2 →
       Forall (λ item, ¬ row_of sessionId recommendationId item) m1.*2 →
       row_of sessionId recommendationId item →
       removeFromPlaylist sessionId recommendationId st
         = set_playlists (m1 ++ m2) st).
Proof.
  intros Hnodup. unfold removeFromPlaylist. split.
  - intros Hnone. rewrite remove_first_none by done. apply set_playlists_same.
  - intros m1 m2 id item Hsplit Hnone Hitem.
    rewrite Hsplit in Hnodup |- *.
    rewrite remove_first_split by done.
    rewrite map_delete_split; [done|].
    rewrite fmap_app, fmap_cons in Hnodup. cbn [fst] in Hnodup.
    apply NoDup_app in Hnodup as (_ & Hm1 & _).
    intros Hin. apply (Hm1 _ Hin). by left.
Qed.

Lemma removeFromPlaylist_first_row_witness :
  removeFromPlaylist "s1" "r1" liked_twice_storage
    = set_playlists ([] ++ [("p2", playlist_row "p2" 5)]) liked_twice_storage
  ∧ playlist "s1" (removeFromPlaylist "s1" "r1" liked_twice_storage)
    = {| http_status := 200;
         http_body := PlaylistBody [(playlist_row "p2" 5, sample_recommendation)] |}.
Proof.
  split; [|reflexivity].
  assert (Hnodup : NoDup (playlists liked_twice_storage).*1).
  { apply (bool_decide_unpack _). by vm_compute. }
  destruct (removeFromPlaylist_first_row "s1" "r1" liked_twice_storage Hnodup)
    as [_ Hfirst].
  apply (Hfirst [] [("p2", playlist_row "p2" 5)] "p1" (playlist_row "p1" 4)).
  - reflexivity.
  - constructor.
  - by split.
Defined.

(** A new row at the end of the playlist map shows at the end of the
    playlist of its session, when its recommendation is stored. *)
Lemma getPlaylistBySession_snoc (sessionId : string) (st st' : MemStorage)
    (id : string) (item : Playlist) :
  playlists st' = playlists st ++ [(id, item)] →
  recommendations st' = recommendations st →
  getPlaylistBySession sessionId st'
    = getPlaylistBySession sessionId st
      ++ (if decide (playlist_sessionId item = sessionId)
          then match getRecommendation (playlist_recommendationId item) st with
               | Some recommendation => [(item, recommendation)]
               | None => []
               end
          else []).
Proof.
  intros Hrows Hrecs. unfold getPlaylistBySession, getRecommendation, map_values.
  rewrite Hrows, Hrecs, fmap_app, filter_app, fmap_app, omap_app.
  f_equal. cbn [fmap list_fmap snd].
  destruct (decide (playlist_sessionId item = sessionId)) as [Hs|Hs].
  - rewrite filter_cons_True by done. rewrite filter_nil. cbn [fmap list_fmap omap list_omap snd fst].
    by destruct (map_get (playlist_recommendationId item) (recommendations st)).
  - rewrite filter_cons_False by done. by rewrite filter_nil.
Qed.

(** X21.  [POST /api/feedback]: a body that does not parse gives 500 and
    changes nothing; otherwise the feedback is stored and returned, and the
    playlist of the session gains one item at its end exactly when the
    feedback is a like and its recommendation is stored, whether or not the
    recommendation is in the playlist already; no other playlist changes. *)
Theorem submit_feedback_spec (id playlistId : string) (now later : Z)
    (st : MemStorage) :
  submit_feedback None id playlistId now later st
    = ({| http_status := 500; http_body := ErrorBody "Failed to submit feedback" |},
       st)
  ∧ ∀ data : InsertFeedback,
      id ∉ (feedback st).*1 →
      playlistId ∉ (playlists st).*1 →
      ∃ st' : MemStorage,
        submit_feedback (Some data) id playlistId now later st
          = ({| http_status := 200;
                http_body :=
                  FeedbackBody
                    {| feedback_id := id;
                       feedback_sessionId := given_sessionId data;
                       feedback_recommendationId := given_recommendationId data;
                       feedback_liked := given_liked data;
                       feedback_createdAt := now |} |},
             st')
        ∧ getFeedbackBySession (given_sessionId data) st'
          = getFeedbackBySession (given_sessionId data) st
            ++ [ {| feedback_id := id;
                    feedback_sessionId := given_sessionId data;
                    feedback_recommendationId := given_recommendationId data;
                    feedback_liked := given_liked data;
                    feedback_createdAt := now |} ]
        ∧ getPlaylistBySession (given_sessionId data) st'
          = getPlaylistBySession (given_sessionId data) st
            ++ match given_liked data,
                     getRecommendation (given_recommendationId data) st with
               | true, Some recommendation =>
                   [( {| playlist_id := playlistId;
                         playlist_sessionId := given_sessionId data;
                         playlist_recommendationId := given_recommendationId data;
                         playlist_createdAt := later |},
                      recommendation)]
               | _, _ => []
               end
        ∧ ∀ sessionId : string,
            sessionId ≠ given_sessionId data →
            getPlaylistBySession sessionId st' = getPlaylistBySession sessionId st.
Proof.
  split; [done|]. intros data Hid Hplaylist.
  unfold submit_feedback. cbn [createFeedback].
  eexists. split; [reflexivity|]. split.
  { unfold getFeedbackBySession, map_values.
    assert (Hfeedback : ∀ st0, feedback st0 = map_set id
              {| feedback_id := id;
                 feedback_sessionId := given_sessionId data;
                 feedback_recommendationId := given_recommendationId data;
                 feedback_liked := given_liked data;
                 feedback_createdAt := now |} (feedback st) →
              filter (λ f, feedback_sessionId f = given_sessionId data) (feedback st0).*2
              = filter (λ f, feedback_sessionId f = given_sessionId data) (feedback st).*2
                ++ [ {| feedback_id := id;
                        feedback_sessionId := given_sessionId data;
                        feedback_recommendationId := given_recommendationId data;
                        feedback_liked := given_liked data;
                        feedback_createdAt := now |} ]).
    { intros st0 ->. rewrite map_set_fresh by done.
      rewrite fmap_app, filter_app. f_equal. cbn [fmap list_fmap snd].
      by rewrite filter_cons_True. }
    apply Hfeedback. by destruct (given_liked data). }
  destruct (given_liked data).
  - cbn [addToPlaylist snd]. split.
    + rewrite (getPlaylistBySession_snoc _ st _ playlistId
                 {| playlist_id := playlistId;
                    playlist_sessionId := given_sessionId data;
                    playlist_recommendationId := given_recommendationId data;
                    playlist_createdAt := later |}).
      * cbn [playlist_sessionId playlist_recommendationId].
        by rewrite decide_True.
      * cbn [playlists set_playlists set_feedback]. by rewrite map_set_fresh.
      * done.
    + intros sessionId Hne.
      rewrite (getPlaylistBySession_snoc _ st _ playlistId
                 {| playlist_id := playlistId;
                    playlist_sessionId := given_sessionId data;
                    playlist_recommendationId := given_recommendationId data;
                    playlist_createdAt := later |}).
      * cbn [playlist_sessionId]. rewrite decide_False by congruence.
        apply app_nil_r.
      * cbn [playlists set_playlists set_feedback]. by rewrite map_set_fresh.
      * done.
  - split; [by rewrite app_nil_r|done].
Qed.

Example like_twice_remove_once :
  (submit_feedback
     (Some {| given_sessionId := "s1"; given_recommendationId := "r1";
              given_liked := true |})
     "f2" "p2" 5 5
     (submit_feedback
        (Some {| given_sessionId := "s1"; given_recommendationId := "r1";
                 given_liked := true |})
        "f1" "p1" 4 4
        (set_recommendations [("r1", sample_recommendation)]
           (createSession "s1" 1 empty_storage).2)).2).2
    = set_feedback
        [("f1", {| feedback_id := "f1"; feedback_sessionId := "s1";
                   feedback_recommendationId := "r1"; feedback_liked := true;
                   feedback_createdAt := 4 |});
         ("f2", {| feedback_id := "f2"; feedback_sessionId := "s1";
                   feedback_recommendationId := "r1"; feedback_liked := true;
                   feedback_createdAt := 5 |})]
        liked_twice_storage
  ∧ getPlaylistBySession "s1" liked_twice_storage
    = [(playlist_row "p1" 4, sample_recommendation);
       (playlist_row "p2" 5, sample_recommendation)]
  ∧ getPlaylistBySession "s1" (removeFromPlaylist "s1" "r1" liked_twice_storage)
    = [(playlist_row "p2" 5, sample_recommendation)].
Proof. repeat split; reflexivity. Qed.

(** ** The sonic profile *)

Lemma filter_fmap_stable {A : Type} (P : A → Prop) `{∀ x, Decision (P x)}
    (f : A → A) (l : list A) :
  (∀ x, P (f x) ↔ P x) → filter P (f <$> l) = f <$> filter P l.
Proof.
  intros Hf. induction l as [|x l IH]; [done|].
  rewrite fmap_cons. destruct (decide (P x)) as [Hx|Hx].
  - rewrite !filter_cons_True by (done || by apply Hf).
    by rewrite fmap_cons, IH.
  - rewrite !filter_cons_False by (done || by rewrite Hf). done.
Qed.

(** A song list read from a well-formed storage is stored under its id. *)
Lemma songLists_wf_stored (st : MemStorage) (sessionId : string)
    (songList : SongList) :
  songLists_wf st →
  songList ∈ getSongListsBySession sessionId st →
  songlist_id songList ∈ (songLists st).*1.
Proof.
  intros [_ Hids] Hin. unfold getSongListsBySession, map_values in Hin.
  apply list_elem_of_filter in Hin as [_ Hin].
  apply list_elem_of_fmap in Hin as ([k sl] & -> & Hin).
  rewrite Forall_forall in Hids. rewrite (Hids _ Hin).
  apply list_elem_of_fmap. by exists (k, sl).
Qed.

Lemma completed_with_other (id : string) (features : AggregateProfile)
    (m : JsMap SongList) :
  Forall (λ entry : string * SongList, songlist_id entry.2 = entry.1) m →
  id ∉ m.*1 →
  completed_with id features <$> m.*2 = m.*2.
Proof.
  induction m as [|[k sl] m IH]; intros Hids Hid; [done|].
  apply Forall_cons in Hids as [Hk Hids]. simpl in Hk, Hid.
  apply not_elem_of_cons in Hid as [Hne Hid].
  rewrite !fmap_cons, IH by done. cbn [snd]. unfold completed_with at 1.
  rewrite decide_False by congruence. done.
Qed.

(** [set] of the completed list over a well-formed map completes the list
    where it stands. *)
Lemma map_set_completed (id : string) (features : AggregateProfile)
    (m : JsMap SongList) (songList : SongList) :
  NoDup m.*1 →
  Forall (λ entry : string * SongList, songlist_id entry.2 = entry.1) m →
  map_get id m = Some songList →
  (map_set id (with_features songList features) m).*2
    = completed_with id features <$> m.*2.
Proof.
  induction m as [|[k sl] m IH]; intros Hnodup Hids Hget; [done|].
  rewrite fmap_cons in Hnodup. cbn [fst] in Hnodup.
  apply NoDup_cons in Hnodup as [Hk Hnodup].
  apply Forall_cons in Hids as [Hsl Hids]. simpl in Hsl, Hget.
  cbn [map_set]. destruct (decide (k = id)) as [->|Hne].
  - injection Hget as ->. rewrite !fmap_cons. cbn [snd].
    rewrite completed_with_other by done.
    unfold completed_with. by rewrite decide_True.
  - rewrite !fmap_cons, IH by done. cbn [snd]. unfold completed_with at 2.
    rewrite decide_False by congruence. done.
Qed.

(** What [updateSongListFeatures] does to the song lists of a session. *)
Lemma getSongListsBySession_update (sessionId id : string)
    (features : AggregateProfile) (st : MemStorage) :
  songLists_wf st →
  getSongListsBySession sessionId (updateSongListFeatures id features st).2
    = completed_with id features <$> getSongListsBySession sessionId st.
Proof.
  intros [Hnodup Hids]. rewrite updateSongListFeatures_run.
  unfold getSongListsBySession, getSongList, map_values.
  rewrite <-filter_fmap_stable.
  2:{ intros sl. unfold completed_with. by case_decide. }
  destruct (map_get id (songLists st)) as [songList|] eqn:Hget.
  - cbn [snd songLists set_songLists]. by rewrite (map_set_completed id features _ songList).
  - cbn [snd]. rewrite completed_with_other; [done|done|].
    by apply map_get_None.
Qed.

Lemma getSongListsBySession_create (sessionId id : string) (now : Z)
    (songs : list Song) (st : MemStorage) :
  id ∉ (songLists st).*1 →
  getSongListsBySession sessionId (createSongList id now sessionId songs st).2
    = getSongListsBySession sessionId st
      ++ [ {| songlist_id := id;
              songlist_sessionId := sessionId;
              songlist_songs := songs;
              songlist_features := None;
              songlist_createdAt := now |} ].
Proof.
  intros Hid. unfold getSongListsBySession, map_values.
  cbn [createSongList snd songLists set_songLists].
  rewrite map_set_fresh by done. rewrite fmap_app, filter_app.
  f_equal. cbn [fmap list_fmap snd]. by rewrite filter_cons_True.
Qed.

(** The task ends by storing the profile under the id it was given. *)
Lemma process_list_task_run (sqrt : Qc → Qc) (w : World) (task : Scheduled)
    (st : MemStorage) (n : nat) :
  ∃ (profile : AggregateProfile) (processed : nat) (trace : list Event)
    (n' : nat),
    extractFeaturesFromSongs sqrt w (scheduled_songs task) n
      = (Returned {| features := Some profile; processedCount := processed |},
         trace, n')
    ∧ process_list_task sqrt w task st n
      = (Returned (updateSongListFeatures (scheduled_songListId task) profile st).2,
         trace ++ [ConsoleLog], n').
Proof.
  destruct (extractFeaturesFromSongs_run sqrt w (scheduled_songs task) n)
    as (b & t & n' & _ & _ & _ & Hrun).
  eexists _, _, _, n'. split; [exact Hrun|].
  unfold process_list_task, try_catch.
  unfold mbind, Async_bind, async_bind at 1. rewrite Hrun. done.
Qed.

(** The profile shown depends on the first song list of the session only. *)
Lemma sonic_profile_first (toFixed : Qc → nat → string)
    (generateContent : AggregateProfile → Generated) (minor : bool)
    (sessionId : string) (st st' : MemStorage) :
  getSongListsBySession sessionId st' !! 0%nat
    = getSongListsBySession sessionId st !! 0%nat →
  sonic_profile toFixed generateContent minor sessionId st'
    = sonic_profile toFixed generateContent minor sessionId st.
Proof. intros Hfirst. unfold sonic_profile. by rewrite Hfirst. Qed.

(** X22.  [GET /api/sonic-profile] reads the first song list of the session
    and [GET /api/processing-status] the last: for a session that has a song
    list already, posting another one and running its extraction to the end
    leaves the sonic profile as it was, while the status reads "completed"
    for the new list. *)
Theorem sonic_profile_first_upload (toFixed : Qc → nat → string)
    (generateContent : AggregateProfile → Generated) (minor : bool)
    (sqrt : Qc → Qc) (w : World) (st : MemStorage) (sessionId : string)
    (songs : list Song) (id : string) (now : Z) (n : nat) (session : Session)
    (first : SongList) (rest : list SongList) :
  songLists_wf st →
  getSession sessionId st = Some session →
  getSongListsBySession sessionId st = first :: rest →
  id ∉ (songLists st).*1 →
  ∃ (response : HttpResponse) (st1 : MemStorage) (task : Scheduled)
    (st2 : MemStorage) (trace : list Event) (n' : nat),
    process_list (Some (sessionId, songs)) id now st = (response, st1, Some task)
    ∧ sonic_profile toFixed generateContent minor sessionId st1
      = sonic_profile toFixed generateContent minor sessionId st
    ∧ process_list_task sqrt w task st1 n = (Returned st2, trace, n')
    ∧ sonic_profile toFixed generateContent minor sessionId st2
      = sonic_profile toFixed generateContent minor sessionId st
    ∧ processing_status sessionId st2
      = {| http_status := 200;
           http_body := ProcessingStatus "completed" id (length songs) true |}.
Proof.
  intros Hwf Hsession Hlists Hid.
  set (task := {| scheduled_songListId := id; scheduled_songs := songs |}).
  set (st1 := (createSongList id now sessionId songs st).2).
  destruct (process_list_task_run sqrt w task st1 n)
    as (profile & processed & trace & n' & _ & Htask).
  eexists _, st1, task, _, _, n'.
  split; [unfold process_list; by rewrite Hsession|].
  assert (Hlists1 : getSongListsBySession sessionId st1
            = first :: rest
              ++ [ {| songlist_id := id;
                      songlist_sessionId := sessionId;
                      songlist_songs := songs;
                      songlist_features := None;
                      songlist_createdAt := now |} ]).
  { unfold st1. by rewrite getSongListsBySession_create, Hlists. }
  assert (Hwf1 : songLists_wf st1).
  { destruct Hwf as [Hnodup Hids]. split.
    - by apply map_set_NoDup.
    - by apply map_set_Forall. }
  assert (Hfirst : songlist_id first ≠ id).
  { intros Heq. apply Hid. rewrite <-Heq.
    apply (songLists_wf_stored st sessionId); [done|].
    rewrite Hlists. by left. }
  split; [apply sonic_profile_first; by rewrite Hlists1, Hlists|].
  split; [exact Htask|].
  assert (Hlists2 : getSongListsBySession sessionId
                      (updateSongListFeatures id profile st1).2
            = first :: rest
              ++ [ with_features
                     {| songlist_id := id;
                        songlist_sessionId := sessionId;
                        songlist_songs := songs;
                        songlist_features := None;
                        songlist_createdAt := now |} profile ]).
  { rewrite getSongListsBySession_update, Hlists1 by done.
    rewrite fmap_cons, fmap_app. cbn [fmap list_fmap].
    unfold completed_with at 1 3. cbn [songlist_id].
    rewrite decide_False, decide_True by done.
    f_equal. f_equal.
    assert (Hrest : ∀ sl, sl ∈ rest → completed_with id profile sl = sl).
    { intros sl Hsl. unfold completed_with. rewrite decide_False; [done|].
      intros Heq. apply Hid. rewrite <-Heq.
      apply (songLists_wf_stored st sessionId); [done|].
      rewrite Hlists. by right. }
    clear -Hrest. induction rest as [|sl rest IH]; [done|].
    rewrite fmap_cons, Hrest by (by left). f_equal.
    apply IH. intros sl' Hsl'. apply Hrest. by right. }
  cbn [scheduled_songListId task] in *.
  split; [apply sonic_profile_first; by rewrite Hlists2, Hlists|].
  unfold processing_status. rewrite Hlists2.
  change (first :: rest ++ ?l) with ((first :: rest) ++ l).
  rewrite last_snoc. done.
Qed.

Lemma sonic_profile_first_upload_witness :
  ∃ (response : HttpResponse) (st1 : MemStorage) (task : Scheduled)
    (st2 : MemStorage) (trace : list Event) (n' : nat),
    process_list (Some ("s1", [ {| artist := "B"; title := "two" |} ])) "l2" 3
                 completed_storage
      = (response, st1, Some task)
    ∧ sonic_profile sample_toFixed no_model false "s1" st1
      = sonic_profile sample_toFixed no_model false "s1" completed_storage
    ∧ process_list_task sample_sqrt rich_world task st1 0%nat
      = (Returned st2, trace, n')
    ∧ sonic_profile sample_toFixed no_model false "s1" st2
      = sonic_profile sample_toFixed no_model false "s1" completed_storage
    ∧ processing_status "s1" st2
      = {| http_status := 200;
           http_body := ProcessingStatus "completed" "l2" 1 true |}.
Proof.
  apply (sonic_profile_first_upload sample_toFixed no_model false sample_sqrt
           rich_world completed_storage "s1"
           [ {| artist := "B"; title := "two" |} ] "l2" 3 0%nat
           {| session_id := "s1"; session_createdAt := 1 |}
           (with_features
              {| songlist_id := "l1";
                 songlist_sessionId := "s1";
                 songlist_songs := [ {| artist := "A"; title := "one" |} ];
                 songlist_features := None;
                 songlist_createdAt := 2 |}
              (aggregateFeatures sample_sqrt [long_doc]))
           []).
  - split; [apply NoDup_singleton|by repeat constructor].
  - reflexivity.
  - reflexivity.
  - apply (bool_decide_unpack _). by vm_compute.
Defined.

Example sonic_profile_of_long_doc :
  sonic_profile sample_toFixed no_model false "s1" completed_storage
    = {| http_status := 200;
         http_body :=
           SonicProfileBody "0.0 BPM" "C# Major" "0.0kHz" "0.0"
                            "Neural pattern processing..." |}
  ∧ sonic_profile sample_toFixed no_model false "s1" waiting_storage
    = {| http_status := 200;
         http_body :=
           SonicProfileBody "-- BPM" "Unknown" "-- kHz" "--"
                            "Neural pattern processing..." |}
  ∧ sample_toFixed (q 1234 / q 10) 1%nat = "123.4"
  ∧ sample_toFixed (q 5 / q 1000) 2%nat = "0.01"
  ∧ sample_toFixed (- q 7 / q 2) 0%nat = "-4".
Proof. repeat split; by vm_compute. Qed.

(** X23.  When the features of the first song list aggregate documents whose
    first chroma vector has between one and twelve components, the key that
    [GET /api/sonic-profile] shows is the name in [keyMap] of the pitch class
    with the largest mean chroma, the lowest such class when several are as
    large. *)
Theorem sonic_profile_key (toFixed : Qc → nat → string)
    (generateContent : AggregateProfile → Generated) (minor : bool)
    (sqrt : Qc → Qc) (sessionId : string) (st : MemStorage)
    (first : SongList) (rest : list SongList)
    (docs : list AcousticBrainzFeatures) (v0 : list Qc) (vs : list (list Qc)) :
  getSongListsBySession sessionId st = first :: rest →
  songlist_features first = Some (aggregateFeatures sqrt docs) →
  chromas (collect docs) = v0 :: vs →
  (0 < length v0 ≤ 12)%nat →
  ∃ (pitch : nat) (name tempo centroid warmth archetype : string),
    sonic_profile toFixed generateContent minor sessionId st
      = {| http_status := 200;
           http_body :=
             SonicProfileBody
               tempo (name +:+ " " +:+ (if minor then "Minor" else "Major"))
               centroid warmth archetype |}
    ∧ keyMap !! pitch = Some name
    ∧ (pitch < length v0)%nat
    ∧ ∀ other : nat,
        (other < length v0)%nat →
        default 0 (meanVector (v0 :: vs) !! other)
          ≤ default 0 (meanVector (v0 :: vs) !! pitch)
        ∧ ((other < pitch)%nat →
           default 0 (meanVector (v0 :: vs) !! other)
             < default 0 (meanVector (v0 :: vs) !! pitch)).
Proof.
  intros Hlists Hfeatures Hchromas [Hpos Hlen].
  set (m := meanVector (v0 :: vs)).
  assert (Hm : length m = length v0) by apply meanVector_length.
  pose proof (pitch_order_perm m) as Hperm.
  pose proof (pitch_order_sorted m) as Hsorted.
  destruct (pitch_order m) as [|pitch order] eqn:Horder.
  { apply Permutation_length in Hperm. rewrite length_seq in Hperm.
    simpl in Hperm. lia. }
  assert (Hpitch : (pitch < length v0)%nat).
  { assert (Hin : pitch ∈ seq 0 (length m)) by (rewrite <-Hperm; by left).
    apply elem_of_seq in Hin. lia. }
  destruct (lookup_lt_is_Some_2 keyMap pitch) as [name Hname].
  { change (length keyMap) with 12%nat. lia. }
  exists pitch, name. do 4 eexists. split; [|split; [exact Hname|split; [exact Hpitch|]]].
  - unfold sonic_profile. rewrite Hlists. cbn [lookup list_lookup].
    rewrite Hfeatures. cbn [aggregateFeatures chroma dominant_pitches].
    rewrite Hchromas, getDominantPitches_order. fold m. rewrite Horder.
    cbn [take lookup list_lookup]. rewrite Nat.mod_small by lia.
    rewrite Hname. reflexivity.
  - intros other Hother.
    assert (Hin : other ∈ pitch :: order).
    { rewrite Hperm. apply elem_of_seq. lia. }
    apply StronglySorted_inv in Hsorted as [_ Hfirst].
    rewrite Forall_forall in Hfirst.
    apply elem_of_cons in Hin as [->|Hin].
    + split; [apply Qcle_refl|lia].
    + destruct (Hfirst _ Hin) as [Hlt|[Heq Hidx]].
      * split; [by apply Qclt_le_weak|done].
      * split; [rewrite Heq; apply Qcle_refl|lia].
Qed.

Lemma sonic_profile_key_witness :
  ∃ (pitch : nat) (name tempo centroid warmth archetype : string),
    sonic_profile sample_toFixed no_model false "s1" completed_storage
      = {| http_status := 200;
           http_body :=
             SonicProfileBody tempo (name +:+ " " +:+ "Major")
                              centroid warmth archetype |}
    ∧ keyMap !! pitch = Some name
    ∧ (pitch < length [q 0; q 5])%nat
    ∧ ∀ other : nat,
        (other < length [q 0; q 5])%nat →
        default 0 (meanVector ([q 0; q 5] :: []) !! other)
          ≤ default 0 (meanVector ([q 0; q 5] :: []) !! pitch)
        ∧ ((other < pitch)%nat →
           default 0 (meanVector ([q 0; q 5] :: []) !! other)
             < default 0 (meanVector ([q 0; q 5] :: []) !! pitch)).
Proof.
  apply (sonic_profile_key sample_toFixed no_model false sample_sqrt "s1"
           completed_storage
           (with_features
              {| songlist_id := "l1";
                 songlist_sessionId := "s1";
                 songlist_songs := [ {| artist := "A"; title := "one" |} ];
                 songlist_features := None;
                 songlist_createdAt := 2 |}
              (aggregateFeatures sample_sqrt [long_doc]))
           [] [long_doc] [q 0; q 5] []).
  - reflexivity.
  - reflexivity.
  - reflexivity.
  - simpl. lia.
Defined.

(** ** The recommendations *)

Lemma set_recommendations_twice (m m' : JsMap Recommendation) (st : MemStorage) :
  set_recommendations m' (set_recommendations m st) = set_recommendations m' st.
Proof. reflexivity. Qed.

Lemma map_get_snoc {V : Type} (k : string) (v : V) (m : JsMap V) :
  k ∉ m.*1 → map_get k (m ++ [(k, v)]) = Some v.
Proof.
  induction m as [|[k0 v0] m IH]; intros Hk; simpl.
  - by rewrite decide_True.
  - simpl in Hk. apply not_elem_of_cons in Hk as [Hne Hk].
    rewrite decide_False by congruence. by apply IH.
Qed.

Lemma string_truthy_ne (s : string) : string_truthy s = true → s ≠ EmptyString.
Proof. intros Hs ->. done. Qed.

(** The loop appends one recommendation per recommendation of the model to
    the map, and answers the recommendations it appended. *)
Lemma save_recommendations_run (searchVideo : string → option string)
    (uuid : nat → string) (clock : nat → Z) (sessionId songListId : string)
    (geminiRecs : list GeminiRecommendation) (i : nat) (st : MemStorage) :
  (∀ j, (j < length geminiRecs)%nat → uuid (i + j)%nat ∉ (recommendations st).*1) →
  NoDup (uuid <$> seq i (length geminiRecs)) →
  save_recommendations searchVideo uuid clock sessionId songListId geminiRecs i st
    = (imap (λ j, saved_of searchVideo uuid clock sessionId songListId (i + j))
            geminiRecs,
       set_recommendations
         (recommendations st
          ++ ((λ r, (recommendation_id r, r))
                <$> imap (λ j, saved_of searchVideo uuid clock sessionId
                                        songListId (i + j))
                         geminiRecs))
         st).
Proof.
  revert i st. induction geminiRecs as [|rec geminiRecs IH]; intros i st Hfresh Hnodup.
  { cbn [save_recommendations imap fmap list_fmap]. rewrite app_nil_r.
    by destruct st. }
  cbn [length seq fmap list_fmap] in Hnodup.
  apply NoDup_cons in Hnodup as [Hi Hnodup].
  assert (Hi0 : uuid i ∉ (recommendations st).*1).
  { specialize (Hfresh 0%nat). rewrite Nat.add_0_r in Hfresh.
    apply Hfresh. simpl. lia. }
  set (saved := saved_of searchVideo uuid clock sessionId songListId i rec).
  assert (Hstep :
    (let '(saved0, st0) :=
       createRecommendation (uuid i) (clock i)
         {| insert_sessionId := sessionId;
            insert_songListId := songListId;
            insert_artist := gemini_artist rec;
            insert_title := gemini_title rec;
            insert_sonicMatch := sonic_match rec;
            insert_searchTerm := search_term rec;
            insert_videoId := None |} st in
     match searchVideo (search_term rec) with
     | Some videoId =>
         (with_videoId saved0 videoId,
          updateRecommendationVideoId (recommendation_id saved0) videoId st0)
     | None => (saved0, st0)
     end)
    = (saved, set_recommendations (recommendations st ++ [(uuid i, saved)]) st)).
  { cbn [createRecommendation]. unfold saved, saved_of.
    rewrite map_set_fresh by done.
    destruct (searchVideo (search_term rec)) as [videoId|]; [|done].
    unfold updateRecommendationVideoId.
    cbn [recommendation_id recommendations set_recommendations].
    rewrite map_get_snoc by done.
    rewrite (map_set_present _ _ _ _ []) by done. done. }
  cbn [save_recommendations].
  destruct (createRecommendation (uuid i) (clock i) _ st) as [saved0 st0].
  rewrite Hstep. clear Hstep.
  rewrite IH.
  - cbn [imap fmap list_fmap recommendations set_recommendations].
    rewrite Nat.add_0_r. fold saved. rewrite set_recommendations_twice.
    cbn [recommendation_id saved saved_of]. rewrite <-(assoc_L (++)).
    cbn [app]. unfold compose.
    assert (Himap : ∀ l : list GeminiRecommendation,
              imap (λ j, saved_of searchVideo uuid clock sessionId songListId
                                  (i + S j)) l
              = imap (λ j, saved_of searchVideo uuid clock sessionId songListId
                                    (S i + j)) l).
    { intros l. apply imap_ext. intros j x _. f_equal. lia. }
    by rewrite Himap.
  - intros j Hj. cbn [recommendations set_recommendations].
    rewrite fmap_app. cbn [fmap list_fmap fst].
    rewrite not_elem_of_app, list_elem_of_singleton. split.
    + replace (S i + j)%nat with (i + S j)%nat by lia.
      apply Hfresh. simpl. lia.
    + intros Heq. apply Hi. rewrite <-Heq.
      apply list_elem_of_fmap. exists (S i + j)%nat. split; [done|].
      apply elem_of_seq. lia.
  - exact Hnodup.
Qed.

Lemma generateRecommendations_complete
    (generateContent : AggregateProfile → list string → list FeedbackDatum →
                       option (list GeminiRecommendation))
    (features : AggregateProfile) (userSongs : list string)
    (feedbackHistory : list FeedbackDatum) :
  Forall (λ rec, gemini_artist rec ≠ EmptyString
                 ∧ gemini_title rec ≠ EmptyString
                 ∧ sonic_match rec ≠ EmptyString
                 ∧ search_term rec ≠ EmptyString)
         (generateRecommendations generateContent features userSongs
                                  feedbackHistory).
Proof.
  unfold generateRecommendations.
  destruct (generateContent features userSongs feedbackHistory) as [recs|];
    [|constructor].
  destruct (length recs =? 0)%nat; [constructor|].
  apply Forall_forall. intros rec Hrec.
  apply list_elem_of_filter in Hrec as [Hrec _].
  apply andb_prop in Hrec as [Hrec H4]. apply andb_prop in Hrec as [Hrec H3].
  apply andb_prop in Hrec as [H1 H2].
  repeat split; by apply string_truthy_ne.
Qed.

(** X24.  [POST /api/recommendations]: while the song list is not stored or
    has no features yet the answer is 400, and when the model gives no usable
    recommendation it is 500, the storage staying as it is in both cases;
    otherwise, the ids being new, the answer lists one recommendation per
    recommendation of the model, in order, each with the video found for its
    search term, the storage holds exactly these recommendations after those
    it held, and none of them has an empty artist, title, match or search
    term. *)
Theorem generate_recommendations_spec
    (generateContent : AggregateProfile → list string → list FeedbackDatum →
                       option (list GeminiRecommendation))
    (searchVideo : string → option string) (uuid : nat → string)
    (clock : nat → Z) (sessionId songListId : string) (st : MemStorage) :
  ((∀ songList, getSongList songListId st = Some songList →
                songlist_features songList = None) →
   generate_recommendations generateContent searchVideo uuid clock
                            (Some (sessionId, songListId)) st
     = ({| http_status := 400;
           http_body := ErrorBody "Song list not found or features not ready" |},
        st))
  ∧ ∀ (songList : SongList) (features : AggregateProfile)
      (geminiRecs : list GeminiRecommendation),
      getSongList songListId st = Some songList →
      songlist_features songList = Some features →
      generateRecommendations generateContent features
        ((λ s, artist s +:+ " - " +:+ title s) <$> songlist_songs songList)
        (feedbackData (getFeedbackBySession sessionId st)
                      (getRecommendationsBySession sessionId st))
        = geminiRecs →
      (geminiRecs = [] →
       generate_recommendations generateContent searchVideo uuid clock
                                (Some (sessionId, songListId)) st
         = ({| http_status := 500;
               http_body := ErrorBody "Failed to generate recommendations" |},
            st))
      ∧ (geminiRecs ≠ [] →
         (∀ j, (j < length geminiRecs)%nat →
               uuid j ∉ (recommendations st).*1) →
         NoDup (uuid <$> seq 0 (length geminiRecs)) →
         ∃ saved : list Recommendation,
           saved = imap (saved_of searchVideo uuid clock sessionId songListId)
                        geminiRecs
           ∧ generate_recommendations generateContent searchVideo uuid clock
                                      (Some (sessionId, songListId)) st
             = ({| http_status := 200; http_body := RecommendationsBody saved |},
                set_recommendations
                  (recommendations st
                   ++ ((λ r, (recommendation_id r, r)) <$> saved)) st)
           ∧ Forall complete saved).
Proof.
  split.
  { intros Hnone. unfold generate_recommendations.
    destruct (getSongList songListId st) as [songList|]; [|done].
    by rewrite (Hnone songList). }
  intros songList features geminiRecs Hget Hfeatures Hrecs.
  unfold generate_recommendations. rewrite Hget, Hfeatures, Hrecs. split.
  { by intros ->. }
  intros Hsome Hfresh Hnodup.
  destruct geminiRecs as [|rec geminiRecs]; [done|].
  change (length (rec :: geminiRecs) =? 0)%nat with false. cbv iota.
  eexists. split; [reflexivity|].
  rewrite save_recommendations_run by done. split; [done|].
  pose proof (generateRecommendations_complete generateContent features
                ((λ s, artist s +:+ " - " +:+ title s) <$> songlist_songs songList)
                (feedbackData (getFeedbackBySession sessionId st)
                              (getRecommendationsBySession sessionId st)))
    as Hcomplete.
  rewrite Hrecs in Hcomplete. clear -Hcomplete.
  apply Forall_forall. intros r Hr.
  apply elem_of_lookup_imap in Hr as (j & rec0 & -> & Hrec0).
  rewrite Forall_forall in Hcomplete.
  apply (Hcomplete rec0). by eapply list_elem_of_lookup_2.
Qed.

Example recommendations_for_a_completed_list :
  generate_recommendations sample_model
    (λ term, if String.eqb term "Artist Title official audio"
             then Some "video-1" else None)
    (λ _, "r1") (λ _, 3%Z) (Some ("s1", "l1")) completed_storage
    = ({| http_status := 200;
          http_body :=
            RecommendationsBody [with_videoId sample_recommendation "video-1"] |},
       set_recommendations
         [("r1", with_videoId sample_recommendation "video-1")]
         completed_storage)
  ∧ generate_recommendations sample_model (λ _, None) (λ _, "r1") (λ _, 3%Z)
      (Some ("s1", "l1")) waiting_storage
    = ({| http_status := 400;
          http_body := ErrorBody "Song list not found or features not ready" |},
       waiting_storage)
  ∧ generate_recommendations (λ _ _ _, None) (λ _, None) (λ _, "r1") (λ _, 3%Z)
      (Some ("s1", "l1")) completed_storage
    = ({| http_status := 500;
          http_body := ErrorBody "Failed to generate recommendations" |},
       completed_storage).
Proof. repeat split; reflexivity. Qed.

(** * Part VII: the earlier revision *)

Lemma earlier_search_once_run (w : World) (artist title : string) (n : nat) :
  Earlier.search_once w artist title n =
    match musicbrainz w n artist title with
    | Rejected _ =>
        (Returned (Return None),
         [Delay RATE_LIMIT_DELAY; FetchRecording artist title; ConsoleError], S n)
    | Resolved response =>
        if ok response then
          match json response with
          | Some data =>
              (Returned (Return (first_id data)),
               [Delay RATE_LIMIT_DELAY; FetchRecording artist title], S n)
          | None =>
              (Returned (Return None),
               [Delay RATE_LIMIT_DELAY; FetchRecording artist title; ConsoleError],
               S n)
          end
        else if (status response =? 429)%Z then
          (Returned Continue,
           [Delay RATE_LIMIT_DELAY; FetchRecording artist title; Delay 5000], S n)
        else
          (Returned (Return None),
           [Delay RATE_LIMIT_DELAY; FetchRecording artist title; ConsoleError],
           S n)
    end.
Proof.
  unfold Earlier.search_once, try_catch, first_id.
  unfold mbind, Async_bind, async_bind, fetch_recording, delay, emit.
  destruct (musicbrainz w n artist title) as [e|response]; simpl; [done|].
  destruct (ok response); simpl.
  - unfold response_json. destruct (json response) as [data|]; simpl; [|done].
    by destruct (recordings data) as [[|r rs]|].
  - by destruct (status response =? 429)%Z.
Qed.

(** A 429 that is not a 2xx status, as every 429 is. *)
Lemma rate_limited_not_ok {A : Type} (response : Response A) :
  status response = 429%Z → ok response = false.
Proof. intros H. unfold ok. by rewrite H. Qed.

Lemma earlier_searchRecording_stuck (w : World) (artist title : string)
    (fuel k n : nat) :
  (∀ i, (i < k)%nat →
     ∃ response, musicbrainz w (n + i) artist title = Resolved response
                 ∧ status response = 429%Z) →
  (fuel ≤ k)%nat →
  Earlier.searchRecording fuel w artist title n = None.
Proof.
  revert k n. induction fuel as [|fuel IH]; intros k n Hall Hfuel; [done|].
  destruct k as [|k]; [lia|].
  destruct (Hall 0%nat) as (response & Hreply & Hstatus); [lia|].
  rewrite Nat.add_0_r in Hreply.
  cbn [Earlier.searchRecording]. rewrite earlier_search_once_run, Hreply.
  rewrite (rate_limited_not_ok _ Hstatus), Hstatus. simpl.
  rewrite (IH k (S n)); [done| |lia].
  intros i Hi. replace (S n + i)%nat with (n + S i)%nat by lia.
  apply Hall. lia.
Qed.

Lemma earlier_searchRecording_retries (w : World) (artist title : string)
    (response : Response MusicBrainzResponse) (data : MusicBrainzResponse)
    (k fuel n : nat) :
  (∀ i, (i < k)%nat →
     ∃ response, musicbrainz w (n + i) artist title = Resolved response
                 ∧ status response = 429%Z) →
  musicbrainz w (n + k) artist title = Resolved response →
  ok response = true →
  json response = Some data →
  (k < fuel)%nat →
  ∃ rest,
    Earlier.searchRecording fuel w artist title n
      = Some (Returned (first_id data),
              Delay RATE_LIMIT_DELAY :: FetchRecording artist title :: rest,
              (n + S k)%nat)
    ∧ fetches rest = k
    ∧ backoffs rest = replicate k 5000%Z.
Proof.
  revert fuel n.
  induction k as [|k IH]; intros fuel n Hall Hreply Hok Hjson Hfuel.
  - destruct fuel as [|fuel]; [lia|].
    rewrite Nat.add_0_r in Hreply.
    cbn [Earlier.searchRecording].
    rewrite earlier_search_once_run, Hreply, Hok, Hjson.
    exists []. replace (n + 1)%nat with (S n) by lia. done.
  - destruct fuel as [|fuel]; [lia|].
    destruct (Hall 0%nat) as (r0 & Hr0 & Hs0); [lia|].
    rewrite Nat.add_0_r in Hr0.
    destruct (IH fuel (S n)) as (rest & Hrest & Hf2 & Hb2); [| |done|done|lia|].
    { intros i Hi. replace (S n + i)%nat with (n + S i)%nat by lia.
      apply Hall. lia. }
    { by replace (S n + k)%nat with (n + S k)%nat by lia. }
    cbn [Earlier.searchRecording].
    rewrite earlier_search_once_run, Hr0.
    rewrite (rate_limited_not_ok _ Hs0), Hs0. simpl. rewrite Hrest.
    exists (Delay 5000
              :: Delay RATE_LIMIT_DELAY :: FetchRecording artist title :: rest).
    replace (S n + S k)%nat with (n + S (S k))%nat by lia.
    split; [reflexivity|]. split.
    + change (fetches ([Delay 5000; Delay RATE_LIMIT_DELAY;
                        FetchRecording artist title] ++ rest) = S k).
      rewrite fetches_app, Hf2. done.
    + cbn [backoffs replicate]. by rewrite Hb2.
Qed.

(** X17.  The earlier [searchRecording] retries a 429 without any bound,
    waiting 5000 ms each time: after [k] replies 429, for any [k], it is
    still retrying (no recursion depth up to [k] gives a result), and when
    the next reply is a parsed 2xx reply it returns its first identifier
    after [k + 1] requests and [k] waits of 5000 ms.  So it never returns
    while the service keeps answering 429. *)
Theorem earlier_searchRecording_unbounded (w : World) (artist title : string)
    (n : nat) :
  (∀ (k fuel : nat),
     (∀ i, (i < k)%nat →
        ∃ response, musicbrainz w (n + i) artist title = Resolved response
                    ∧ status response = 429%Z) →
     (fuel ≤ k)%nat →
     Earlier.searchRecording fuel w artist title n = None)
  ∧ (∀ (k fuel : nat) (response : Response MusicBrainzResponse)
       (data : MusicBrainzResponse),
       (∀ i, (i < k)%nat →
          ∃ response, musicbrainz w (n + i) artist title = Resolved response
                      ∧ status response = 429%Z) →
       musicbrainz w (n + k) artist title = Resolved response →
       ok response = true →
       json response = Some data →
       (k < fuel)%nat →
       ∃ trace,
         Earlier.searchRecording fuel w artist title n
           = Some (Returned (first_id data), trace, (n + S k)%nat)
         ∧ fetches trace = S k
         ∧ backoffs trace = replicate k 5000%Z).
Proof.
  split.
  - intros k fuel. apply earlier_searchRecording_stuck.
  - intros k fuel response data Hall Hreply Hok Hjson Hfuel.
    destruct (earlier_searchRecording_retries w artist title response data
                k fuel n Hall Hreply Hok Hjson Hfuel)
      as (rest & Hrun & Hf & Hb).
    eexists. split; [exact Hrun|]. split.
    + change (fetches ([Delay RATE_LIMIT_DELAY; FetchRecording artist title]
                       ++ rest) = S k).
      rewrite fetches_app, Hf. done.
    + done.
Qed.

(** X18.  The earlier [searchRecording] does not retry a failure other than
    a 429: a rejected [fetch], another status outside 2xx or a body that
    does not parse gives [null] after a single request. *)
Theorem earlier_searchRecording_no_retry (w : World) (artist title : string)
    (fuel n : nat) :
  failed (musicbrainz w n artist title) = true →
  rate_limited (musicbrainz w n artist title) = false →
  Earlier.searchRecording (S fuel) w artist title n
    = Some (Returned None,
            [Delay RATE_LIMIT_DELAY; FetchRecording artist title; ConsoleError],
            S n).
Proof.
  intros Hfailed Hlimited. cbn [Earlier.searchRecording].
  rewrite earlier_search_once_run.
  destruct (musicbrainz w n artist title) as [e|response]; [done|].
  simpl in Hfailed, Hlimited. rewrite Hlimited.
  destruct (ok response); simpl in Hfailed; [|done].
  destruct (json response); [by case_bool_decide|done].
Qed.

Lemma earlier_searchRecording_no_retry_witness :
  Earlier.searchRecording 1 down_world "Artist" "Title" 0%nat
    = Some (Returned None,
            [Delay RATE_LIMIT_DELAY; FetchRecording "Artist" "Title"; ConsoleError],
            1%nat).
Proof.
  apply (earlier_searchRecording_no_retry down_world "Artist" "Title" 0 0);
    reflexivity.
Defined.

Example searchRecording_down :
  searchRecording down_world "Artist" "Title" 0%nat =
    (Returned None,
     [Delay 1000; FetchRecording "Artist" "Title"; ConsoleError; Delay 1000;
      Delay 1000; FetchRecording "Artist" "Title"; ConsoleError; Delay 2000;
      Delay 1000; FetchRecording "Artist" "Title"; ConsoleError],
     3%nat).
Proof. reflexivity. Qed.

Lemma earlier_searchRecording_falsy (w : World) (artist title : string)
    (fuel n : nat) :
  (∀ n artist title,
     rate_limited (musicbrainz w n artist title) = false
     ∧ ∀ response data,
         musicbrainz w n artist title = Resolved response →
         ok response = true →
         json response = Some data →
         first_id data = None ∨ first_id data = Some EmptyString) →
  ∃ result trace,
    Earlier.searchRecording (S fuel) w artist title n
      = Some (Returned result, trace, S n)
    ∧ (result = None ∨ result = Some EmptyString)
    ∧ looked_up trace = [].
Proof.
  intros Hw. destruct (Hw n artist title) as [Hlimited Hfalsy].
  cbn [Earlier.searchRecording]. rewrite earlier_search_once_run.
  destruct (musicbrainz w n artist title) as [e|response] eqn:Hreply.
  { eexists _, _. split; [reflexivity|]. split; [by left|done]. }
  simpl in Hlimited. rewrite Hlimited.
  destruct (ok response) eqn:Hok.
  - destruct (json response) as [data|] eqn:Hjson.
    + eexists _, _. split; [reflexivity|]. split; [by eapply Hfalsy|done].
    + eexists _, _. split; [reflexivity|]. split; [by left|done].
  - eexists _, _. split; [reflexivity|]. split; [by left|done].
Qed.

Lemma earlier_for_each_unresolved (w : World) (songs : list Song) (b : Batch)
    (fuel n : nat) :
  (∀ n artist title,
     rate_limited (musicbrainz w n artist title) = false
     ∧ ∀ response data,
         musicbrainz w n artist title = Resolved response →
         ok response = true →
         json response = Some data →
         first_id data = None ∨ first_id data = Some EmptyString) →
  ∃ trace,
    Earlier.for_each_song (S fuel) w songs b n
      = Some (Returned {| allFeatures := allFeatures b;
                          count := (count b + length songs)%nat |},
              trace, (n + length songs)%nat)
    ∧ looked_up trace = [].
Proof.
  intros Hw. revert b n. induction songs as [|song songs IH]; intros b n.
  - exists []. simpl. rewrite !Nat.add_0_r. by destruct b.
  - destruct (earlier_searchRecording_falsy w (artist song) (title song) fuel n Hw)
      as (result & t1 & Hrun & Hfalsy & Hl1).
    destruct (IH {| allFeatures := allFeatures b; count := S (count b) |} (S n))
      as (t2 & Hrest & Hl2).
    cbn [Earlier.for_each_song]. unfold Earlier.process_song, Earlier.and_then.
    rewrite Hrun.
    destruct Hfalsy as [->| ->]; simpl; rewrite Hrest; eexists;
      cbn [allFeatures count];
      replace (S (count b) + length songs)%nat
        with (count b + S (length songs))%nat by lia;
      replace (S n + length songs)%nat with (n + S (length songs))%nat by lia;
      (split; [reflexivity|]);
      by rewrite !looked_up_app, Hl1, Hl2.
Qed.

(** X19.  When the search service never answers 429 and no reply carries a
    recording with a non-empty identifier, the earlier
    [extractFeaturesFromSongs] returns [features: null], after at most one
    request per song attempted and without calling the feature service. *)
Theorem earlier_extractFeaturesFromSongs_null (sqrt : Qc → Qc) (w : World)
    (songs : list Song) (fuel n : nat) :
  (∀ n artist title,
     rate_limited (musicbrainz w n artist title) = false
     ∧ ∀ response data,
         musicbrainz w n artist title = Resolved response →
         ok response = true →
         json response = Some data →
         first_id data = None ∨ first_id data = Some EmptyString) →
  ∃ (trace : list Event) (n' : nat),
    Earlier.extractFeaturesFromSongs (S fuel) sqrt w songs n
      = Some (Returned {| features := None;
                          processedCount := (length songs `min` 500)%nat |},
              trace, n')
    ∧ (n' ≤ n + length songs `min` 500)%nat
    ∧ looked_up trace = [].
Proof.
  intros Hw.
  destruct (earlier_for_each_unresolved w (take 500 songs)
              {| allFeatures := []; count := 0 |} fuel n Hw)
    as (trace & Hrun & Hl).
  rewrite length_take, (Nat.min_comm 500) in Hrun.
  unfold Earlier.extractFeaturesFromSongs, Earlier.and_then.
  rewrite Hrun. cbn [allFeatures count length Nat.eqb]. simpl.
  exists (trace ++ []), (n + length songs `min` 500)%nat.
  split; [done|]. split; [lia|]. by rewrite app_nil_r.
Qed.

Lemma earlier_extractFeaturesFromSongs_null_witness :
  ∃ (trace : list Event) (n' : nat),
    Earlier.extractFeaturesFromSongs 1 sample_sqrt silent_world
        [ {| artist := "A"; title := "one" |}; {| artist := "B"; title := "two" |} ]
        0%nat
      = Some (Returned {| features := None;
                          processedCount := (2 `min` 500)%nat |},
              trace, n')
    ∧ (n' ≤ 0 + 2 `min` 500)%nat
    ∧ looked_up trace = [].
Proof.
  apply (earlier_extractFeaturesFromSongs_null sample_sqrt silent_world
           [ {| artist := "A"; title := "one" |};
             {| artist := "B"; title := "two" |} ] 0 0).
  intros n artist title. split; [reflexivity|].
  intros response data Hreply _ Hjson.
  injection Hreply as <-. injection Hjson as <-. by left.
Defined.

Example earlier_searchRecording_always_limited (fuel : nat) :
  Earlier.searchRecording fuel limited_world "Artist" "Title" 0%nat = None.
Proof.
  apply (earlier_searchRecording_stuck limited_world "Artist" "Title" fuel fuel 0);
    [|done].
  intros i _. by eexists.
Qed.
